(** * fifa-koenig-tracker: standings, king streaks and best-of-N sessions

    A shallow embedding of the data transformations of the tracker and
    the properties its specification states about them.  The source is
    [App.tsx] in two revisions: the first has [computeStandings],
    [TableStats], [ExportButton] and [ImportButton]; the second keeps the
    first two and adds [useKingInfo] and the session manager
    ([StartSessionForm], [ActiveSessionDisplay], [finishSession]).

    Conventions of the embedding.
    - A JavaScript [number] holding a count or a score is a [Z]; the
      non-integral values of the type (NaN, infinities, fractions) are
      outside the model.
    - A [string] is a [string]; a [T[]] is a [list T]; an optional field
      [f?: T] is an [option T].
    - A [Map<string, V>] is an association list in insertion order, as
      [Map.prototype.values] enumerates it.
    - A [Record<string, number>] used as a dictionary is a [gmap string Z].
    - What the platform supplies ([localeCompare], [Date], [uid], the JSON
      codec) enters as a parameter of the section that uses it. *)

From Stdlib Require Import ZArith QArith Qround Lia Sorted OrderedTypeEx Ascii.
From stdpp Require Import gmap strings list fin_maps pretty.

Local Open Scope Z_scope.

(** ** Entities *)

Inductive Mode := Mode1v1 | Mode2v2.

Module Player.
Record t := mk { id : string; name : string }.
End Player.

Module Match.
Record t := mk {
  id : string;
  dateISO : string;
  mode : Mode;
  teamAName : string;
  teamBName : string;
  teamAPlayers : list string;
  teamBPlayers : list string;
  goalsA : Z;
  goalsB : Z;
  enteredBy : string;
  sessionId : option string
}.
End Match.

(** ** Standings aggregator ([computeStandings]) *)

(** The accumulator object stored per player id in the [Map]. *)
Module Stat.
Record t := mk {
  id : string;
  name : string;
  played : Z;
  wins : Z;
  draws : Z;
  losses : Z;
  goalsFor : Z;
  goalsAgainst : Z
}.
End Stat.

(** One element of the array [computeStandings] returns:
    [{ ...s, points, goalDiff }].  The first revision adds three
    floating-point ratios per game ([pointsPerGame], [goalsPerGame],
    [concededPerGame]), which no property here reads and which are left
    out. *)
Module Row.
Record t := mk {
  id : string;
  name : string;
  played : Z;
  wins : Z;
  draws : Z;
  losses : Z;
  goalsFor : Z;
  goalsAgainst : Z;
  points : Z;
  goalDiff : Z
}.
End Row.

(** A keyed collection in insertion order: a [Map<string, V>], or the own
    properties of an object. *)
Section keyed.
Context {V : Type}.

(** [map.get(k)], [obj[k]]; [None] is [undefined]. *)
Fixpoint map_get (k : string) (m : list (string * V)) : option V :=
  match m with
  | [] => None
  | (k', v) :: m' => if decide (k' = k) then Some v else map_get k m'
  end.

(** [map.set(k, v)], [obj[k] = v]: an existing key keeps its place and
    takes the new value, a new key goes last. *)
Fixpoint map_set (k : string) (v : V) (m : list (string * V))
  : list (string * V) :=
  match m with
  | [] => [(k, v)]
  | (k', v') :: m' =>
      if decide (k' = k) then (k', v) :: m' else (k', v') :: map_set k v m'
  end.
End keyed.

(** [Map<string, Stat>]. *)
Abbreviation StatMap := (list (string * Stat.t)).

(** [new Map(players.map((p) => [p.id, { id: p.id, name: p.name,
    played: 0, ... }]))]. *)
Definition freshStat (p : Player.t) : Stat.t :=
  Stat.mk (Player.id p) (Player.name p) 0 0 0 0 0 0.

Definition initMap (players : list Player.t) : StatMap :=
  foldl (fun m p => map_set (Player.id p) (freshStat p) m) [] players.

(** The updates of the accumulator [s] inside the player loops. *)

(** [s.played += 1; s.goalsFor += mine; s.goalsAgainst += theirs]. *)
Definition addGame (s : Stat.t) (mine theirs : Z) : Stat.t :=
  Stat.mk (Stat.id s) (Stat.name s) (Stat.played s + 1) (Stat.wins s)
    (Stat.draws s) (Stat.losses s)
    (Stat.goalsFor s + mine) (Stat.goalsAgainst s + theirs).

(** [s.wins += 1]. *)
Definition addWin (s : Stat.t) : Stat.t :=
  Stat.mk (Stat.id s) (Stat.name s) (Stat.played s) (Stat.wins s + 1)
    (Stat.draws s) (Stat.losses s) (Stat.goalsFor s) (Stat.goalsAgainst s).

(** [s.losses += 1]. *)
Definition addLoss (s : Stat.t) : Stat.t :=
  Stat.mk (Stat.id s) (Stat.name s) (Stat.played s) (Stat.wins s)
    (Stat.draws s) (Stat.losses s + 1) (Stat.goalsFor s) (Stat.goalsAgainst s).

(** [s.draws += 1]. *)
Definition addDraw (s : Stat.t) : Stat.t :=
  Stat.mk (Stat.id s) (Stat.name s) (Stat.played s) (Stat.wins s)
    (Stat.draws s + 1) (Stat.losses s) (Stat.goalsFor s) (Stat.goalsAgainst s).

(** Body of the loop over [m.teamAPlayers], after the [if (!s) continue]. *)
Definition creditA (m : Match.t) (s : Stat.t) : Stat.t :=
  let aWon := bool_decide (Match.goalsA m > Match.goalsB m) in
  let bWon := bool_decide (Match.goalsB m > Match.goalsA m) in
  let s := addGame s (Match.goalsA m) (Match.goalsB m) in
  if aWon then addWin s else if bWon then addLoss s else addDraw s.

(** Body of the loop over [m.teamBPlayers]. *)
Definition creditB (m : Match.t) (s : Stat.t) : Stat.t :=
  let aWon := bool_decide (Match.goalsA m > Match.goalsB m) in
  let bWon := bool_decide (Match.goalsB m > Match.goalsA m) in
  let s := addGame s (Match.goalsB m) (Match.goalsA m) in
  if bWon then addWin s else if aWon then addLoss s else addDraw s.

(** One iteration of a player loop: the object found under [pid] is
    updated in place, a missing one is skipped. *)
Definition creditPlayer (credit : Stat.t -> Stat.t) (map : StatMap) (pid : string)
  : StatMap :=
  match map_get pid map with
  | None => map
  | Some s => map_set pid (credit s) map
  end.

(** Body of [for (const m of matches)]. *)
Definition aggregateMatch (map : StatMap) (m : Match.t) : StatMap :=
  foldl (creditPlayer (creditB m))
        (foldl (creditPlayer (creditA m)) map (Match.teamAPlayers m))
        (Match.teamBPlayers m).

(** The final [.map((s) => ...)]. *)
Definition toRow (s : Stat.t) : Row.t :=
  let points := Stat.wins s * 3 + Stat.draws s in
  let goalDiff := Stat.goalsFor s - Stat.goalsAgainst s in
  Row.mk (Stat.id s) (Stat.name s) (Stat.played s) (Stat.wins s) (Stat.draws s)
    (Stat.losses s) (Stat.goalsFor s) (Stat.goalsAgainst s) points goalDiff.

Definition computeStandings (players : list Player.t) (matches : list Match.t)
  : list Row.t :=
  toRow <$> (snd <$> foldl aggregateMatch (initMap players) matches).

(** ** Standings display order ([TableStats]) *)

(** [x || y] on numbers: [x] when it is truthy (not zero), else [y]. *)
Definition orElse (x y : Z) : Z := if decide (x = 0) then y else x.

(** [Array.prototype.sort(comparefn)]: the stable sort that puts [a]
    before [b] when [comparefn(a, b) < 0] and keeps the original order of
    elements that compare equal.  For a consistent comparator that order
    is unique; it is computed here by insertion from the right, an
    element moving behind the elements of the sorted rest it compares
    greater than. *)
Section arraySort.
Context {A : Type} (comparefn : A -> A -> Z).

Fixpoint insertSorted (x : A) (l : list A) : list A :=
  match l with
  | [] => [x]
  | y :: l' =>
      if decide (comparefn x y > 0) then y :: insertSorted x l'
      else x :: y :: l'
  end.

Definition arraySort (l : list A) : list A := foldr insertSorted [] l.
End arraySort.

Section TableStats.
(** [String.prototype.localeCompare], the collation of the host. *)
Variable localeCompare : string -> string -> Z.



End TableStats.

(** ** The persisted snapshot ([DB]) *)

Module KingSession.
Record t := mk {
  id : string;
  dateISO : string;
  kings : list string;
  bestOf : Z;
  mode : Mode;
  kingEnteredBy : option string
}.
End KingSession.

Inductive ViolationType :=
  | unerlaubt_pausiert
  | durch_den_bildschirm_gelaufen
  | koenigstitel_nicht_erwaehnt
  | kein_getraenk_erhalten
  | sonderrecht_des_hauens_ignoriert
  | sonstiges.

Module Violation.
Record t := mk {
  id : string;
  dateISO : string;
  playerId : string;
  type : ViolationType;
  comment : string;
  enteredBy : string
}.
End Violation.

Inductive ThemeKey := FCB | BVB | FALCO.

Module DB.
Record t := mk {
  theme : ThemeKey;
  players : list Player.t;
  matches : list Match.t;
  kingSessions : list KingSession.t;
  violations : list Violation.t
}.
End DB.

(** ** King-streak calculator ([useKingInfo]) *)

(** The two dictionaries of the hook.  Every read in the loops below is
    of a player's key, which the initialisation loop has written, so the
    default of the total lookup [!!!] is never what is read. *)
Record Streaks := mkStreaks {
  longestStreaks : gmap string Z;
  currentStreaks : gmap string Z
}.

Module CurrentKing.
Record t := mk { id : string; name : string; streak : Z }.
End CurrentKing.

Module KingInfo.
Record t := mk {
  currentKings : list CurrentKing.t;
  longestStreaks : gmap string Z
}.
End KingInfo.

(** [longestStreaks[player.id] = 0; currentStreaks[player.id] = 0]. *)
Definition initPlayer (st : Streaks) (player : Player.t) : Streaks :=
  mkStreaks (<[Player.id player := 0]> (longestStreaks st))
            (<[Player.id player := 0]> (currentStreaks st)).

(** [if (currentStreaks[id] > longestStreaks[id])
       longestStreaks[id] = currentStreaks[id]]. *)
Definition flushPlayer (st : Streaks) (player : Player.t) : Streaks :=
  let pid := Player.id player in
  if decide (currentStreaks st !!! pid > longestStreaks st !!! pid)
  then mkStreaks (<[pid := currentStreaks st !!! pid]> (longestStreaks st))
                 (currentStreaks st)
  else st.

(** Body of the inner loop over [db.players] for one session;
    [winnerIds.has(player.id)] is membership in [session.kings]. *)
Definition stepPlayer (session : KingSession.t) (st : Streaks) (player : Player.t)
  : Streaks :=
  let pid := Player.id player in
  if decide (pid ∈ KingSession.kings session)
  then mkStreaks (longestStreaks st)
                 (<[pid := currentStreaks st !!! pid + 1]> (currentStreaks st))
  else
    let st' := flushPlayer st player in
    mkStreaks (longestStreaks st') (<[pid := 0]> (currentStreaks st')).

(** Body of the loop over [sortedSessions]. *)
Definition stepSession (players : list Player.t) (st : Streaks)
    (session : KingSession.t) : Streaks :=
  if decide (length (KingSession.kings session) = 0%nat) then st
  else foldl (stepPlayer session) st players.

Section useKingInfo.
(** [new Date(iso).getTime()], for the date strings that parse. *)
Variable getTime : string -> Z.

Definition byDate (a b : KingSession.t) : Z :=
  getTime (KingSession.dateISO a) - getTime (KingSession.dateISO b).

Definition sortedSessions (db : DB.t) : list KingSession.t :=
  arraySort byDate (DB.kingSessions db).

(** The dictionaries after the chronological walk and the final flush. *)
Definition kingStreaks (db : DB.t) : Streaks :=
  let players := DB.players db in
  let st0 := foldl initPlayer (mkStreaks ∅ ∅) players in
  let st1 := foldl (stepSession players) st0 (sortedSessions db) in
  foldl flushPlayer st1 players.

Definition useKingInfo (db : DB.t) : KingInfo.t :=
  let st := kingStreaks db in
  let currentKings :=
    (fun p => CurrentKing.mk (Player.id p) (Player.name p)
                             (currentStreaks st !!! Player.id p))
      <$> List.filter (fun p => bool_decide (currentStreaks st !!! Player.id p > 0))
                      (DB.players db) in
  KingInfo.mk currentKings (longestStreaks st).
End useKingInfo.

(** ** Best-of-N session ([StartSessionForm], [ActiveSessionDisplay]) *)

Module SessionTeam.
Record t := mk { id : string; name : string; players : list string }.
End SessionTeam.

(** A schedule slot; [null] scores are [None]. *)
Module ActiveSessionMatch.
Record t := mk {
  id : string;
  teamA : SessionTeam.t;
  teamB : SessionTeam.t;
  goalsA : option Z;
  goalsB : option Z
}.
End ActiveSessionMatch.

Module ActiveSession.
Record t := mk {
  teams : list SessionTeam.t;
  schedule : list ActiveSessionMatch.t;
  bestOf : Z;
  mode : Mode
}.
End ActiveSession.

(** [Math.ceil(activeSession.bestOf / 2)], with [/] the exact quotient. *)
Definition winsNeeded (activeSession : ActiveSession.t) : Z :=
  Qceiling (inject_Z (ActiveSession.bestOf activeSession) / 2)%Q.

(** [m.goalsA !== null && m.goalsB !== null && m.goalsA > m.goalsB]. *)
Definition wonByA (m : ActiveSessionMatch.t) : bool :=
  match ActiveSessionMatch.goalsA m, ActiveSessionMatch.goalsB m with
  | Some a, Some b => bool_decide (a > b)
  | _, _ => false
  end.

(** [m.goalsA !== null && m.goalsB !== null && m.goalsB > m.goalsA]. *)
Definition wonByB (m : ActiveSessionMatch.t) : bool :=
  match ActiveSessionMatch.goalsA m, ActiveSessionMatch.goalsB m with
  | Some a, Some b => bool_decide (b > a)
  | _, _ => false
  end.

(** The [scores] memo. *)
Definition teamAWins (schedule : list ActiveSessionMatch.t) : Z :=
  Z.of_nat (length (List.filter wonByA schedule)).

Definition teamBWins (schedule : list ActiveSessionMatch.t) : Z :=
  Z.of_nat (length (List.filter wonByB schedule)).

Inductive Side := SideA | SideB.

(** [updateScore(matchId, team, value)]; [score] is what the input text
    stands for: [null] for the empty text, else the parsed integer. *)
Definition updateScore (matchId : string) (team : Side) (score : option Z)
    (current : list ActiveSessionMatch.t) : list ActiveSessionMatch.t :=
  (fun m =>
     if decide (ActiveSessionMatch.id m = matchId) then
       match team with
       | SideA => ActiveSessionMatch.mk (ActiveSessionMatch.id m)
                    (ActiveSessionMatch.teamA m) (ActiveSessionMatch.teamB m)
                    score (ActiveSessionMatch.goalsB m)
       | SideB => ActiveSessionMatch.mk (ActiveSessionMatch.id m)
                    (ActiveSessionMatch.teamA m) (ActiveSessionMatch.teamB m)
                    (ActiveSessionMatch.goalsA m) score
       end
     else m) <$> current.

(** What the host supplies to a run of the application: the values
    successive calls of [uid()] return, the instant [new Date()] reads at
    finalization, and the user's answer to [window.confirm]. *)
Record Host := mkHost {
  uidAt : nat -> string;
  nowISO : string;
  confirmAnswer : bool
}.

(** The state the session screens work on: the snapshot, the active
    session together with the [schedule] state of its display (absent
    when [activeSession] is [null]), and how many ids were drawn. *)
Record App := mkApp {
  db : DB.t;
  activeSession : option (ActiveSession.t * list ActiveSessionMatch.t);
  uidCount : nat
}.

(** [handleStart]: needs exactly two teams; builds [bestOf] empty slots. *)
Definition handleStart (host : Host) (sessionTeams : list SessionTeam.t)
    (bestOf : Z) (mode : Mode) (app : App) : App :=
  match sessionTeams with
  | [teamA; teamB] =>
      let n := Z.to_nat bestOf in
      let schedule :=
        (fun i => ActiveSessionMatch.mk (uidAt host (uidCount app + i)) teamA teamB
                    None None) <$> seq 0 n in
      mkApp (db app)
            (Some (ActiveSession.mk sessionTeams schedule bestOf mode, schedule))
            (uidCount app + n)
  | _ => app
  end.

(** ** Session finalizer ([finishSession]) *)

(** In [toMatch] below, [m.goalsA!] is read on filled slots only, so the
    default of [default 0] is never what is stored. *)

Section finishSession.
Variable host : Host.
Variable session : ActiveSession.t.
Variable schedule : list ActiveSessionMatch.t.

Definition decided : bool :=
  bool_decide (teamAWins schedule >= winsNeeded session) ||
  bool_decide (teamBWins schedule >= winsNeeded session).

Definition winnerTeam : option SessionTeam.t :=
  if bool_decide (teamAWins schedule >= winsNeeded session)
  then ActiveSession.teams session !! 0%nat
  else if bool_decide (teamBWins schedule >= winsNeeded session)
       then ActiveSession.teams session !! 1%nat
       else None.

Definition kings : list string :=
  match winnerTeam with
  | Some team => SessionTeam.players team
  | None => []
  end.

(** [m.goalsA !== null && m.goalsB !== null]. *)
Definition filled (m : ActiveSessionMatch.t) : bool :=
  match ActiveSessionMatch.goalsA m, ActiveSessionMatch.goalsB m with
  | Some _, Some _ => true
  | _, _ => false
  end.

(** The callback of [.map] on the filled slots; [i] counts the [uid()]
    calls made since [sessionId] was drawn. *)
Definition toMatch (count : nat) (sessionId : string) (i : nat)
    (m : ActiveSessionMatch.t) : Match.t :=
  Match.mk (uidAt host (count + 1 + i)) (nowISO host) (ActiveSession.mode session)
    (SessionTeam.name (ActiveSessionMatch.teamA m))
    (SessionTeam.name (ActiveSessionMatch.teamB m))
    (SessionTeam.players (ActiveSessionMatch.teamA m))
    (SessionTeam.players (ActiveSessionMatch.teamB m))
    (default 0 (ActiveSessionMatch.goalsA m))
    (default 0 (ActiveSessionMatch.goalsB m))
    "Session" (Some sessionId).

Definition newMatches (count : nat) : list Match.t :=
  imap (toMatch count (uidAt host count)) (List.filter filled schedule).

Definition newKingSession (count : nat) : KingSession.t :=
  KingSession.mk (uidAt host count) (nowISO host) kings
    (ActiveSession.bestOf session) (ActiveSession.mode session) (Some "Session").

(** The functional update given to [setDb]. *)
Definition appendSession (count : nat) (prev : DB.t) : DB.t :=
  DB.mk (DB.theme prev) (DB.players prev)
    (DB.matches prev ++ newMatches count)
    (DB.kingSessions prev ++ [newKingSession count])
    (DB.violations prev).

(** [finishSession(isConfirmed)]: an undecided series is finished only
    on confirmation; otherwise one [setDb] appends the matches and the
    king session, and the active session is dropped. *)
Definition finishSession (isConfirmed : bool) (app : App) : App :=
  if negb isConfirmed && negb decided && negb (confirmAnswer host) then app
  else
    mkApp (appendSession (uidCount app) (db app)) None
          (uidCount app + 1 + length (List.filter filled schedule)).
End finishSession.

(** The effect of [ActiveSessionDisplay] that runs when [scores] changed:
    a reached threshold finishes the session at once. *)
Definition autoFinish (host : Host) (app : App) : App :=
  match activeSession app with
  | Some (session, schedule) =>
      if decided session schedule
      then finishSession host session schedule true app
      else app
  | None => app
  end.

(** [handleStart] followed by the first render of the display, whose
    effect runs once on mount. *)
Definition startSession (host : Host) (sessionTeams : list SessionTeam.t)
    (bestOf : Z) (mode : Mode) (app : App) : App :=
  autoFinish host (handleStart host sessionTeams bestOf mode app).

(** What the user can do on the session screen. *)
Inductive Action :=
  | EnterScore (matchId : string) (team : Side) (score : option Z)
  | PressFinish
  | PressCancel.

(** One user action and the effects that follow its re-render. *)
Definition act (host : Host) (app : App) (a : Action) : App :=
  match activeSession app with
  | None => app
  | Some (session, schedule) =>
      match a with
      | EnterScore matchId team score =>
          autoFinish host
            (mkApp (db app)
                   (Some (session, updateScore matchId team score schedule))
                   (uidCount app))
      | PressFinish => finishSession host session schedule false app
      | PressCancel =>
          if confirmAnswer host then mkApp (db app) None (uidCount app) else app
      end
  end.

(** ** Export and import ([ExportButton], [ImportButton]) *)

(** The values a snapshot is made of at run time, which [JSON.stringify]
    is given and [JSON.parse] returns.  An object is the list of its own
    properties.  A number is an integer or [NaN], which [parseInt] gives
    for a text that starts with no digit. *)
#[local] Set Warnings "-register-all".
Inductive value :=
  | VNull
  | VBool (b : bool)
  | VNum (n : Z)
  | VNaN
  | VStr (s : string)
  | VArr (items : list value)
  | VObj (props : list (string * value)).

(** Truthiness, with [None] for [undefined]. *)
Definition truthy (v : option value) : bool :=
  match v with
  | None | Some VNull | Some VNaN => false
  | Some (VBool b) => b
  | Some (VNum n) => negb (n =? 0)
  | Some (VStr s) => negb (String.eqb s "")
  | Some (VArr _) | Some (VObj _) => true
  end.

(** The properties [{ ...data }] copies: those of an object, the indexed
    elements of an array, the indexed characters of a string, none of any
    other value. *)
Definition ownProps (data : value) : list (string * value) :=
  match data with
  | VObj props => props
  | VArr items => imap (fun i v => (pretty i, v)) items
  | VStr s =>
      imap (fun i c => (pretty i, VStr (String c ""))) (String.list_ascii_of_string s)
  | _ => []
  end.

(** [data.theme]: a [TypeError] on [null] (outer [None]), the property of
    an object, [undefined] on the other values. *)
Definition themeOf (data : value) : option (option value) :=
  match data with
  | VNull => None
  | VObj props => Some (map_get "theme" props)
  | _ => Some None
  end.

(** [keepTheme || data.theme || "BVB"]; [data.theme] is evaluated only
    when [keepTheme] is falsy.  [None] when it throws. *)
Definition importedTheme (keepTheme : option value) (data : value)
  : option value :=
  if truthy keepTheme then keepTheme
  else match themeOf data with
       | None => None
       | Some t => if truthy t then t else Some (VStr "BVB")
       end.

Section export_import.
(** [JSON.stringify(v, null, 2)] and [JSON.parse], the codec of the
    host; [JSON_parse] is [None] where [JSON.parse] throws. *)
Variable JSON_stringify : value -> string.
Variable JSON_parse : string -> option value.

(** [ExportButton]: the text of the downloaded file. *)
Definition download (db : value) : string := JSON_stringify db.

(** [ImportButton], [reader.onload]: the snapshot after the file was
    read, given the snapshot before.  A text that does not parse and a
    [TypeError] both end in the [catch], which leaves the snapshot. *)
Definition onPick (keepTheme : option value) (text : string) (current : value)
  : value :=
  match JSON_parse text with
  | None => current
  | Some data =>
      match importedTheme keepTheme data with
      | None => current
      | Some theme => VObj (map_set "theme" theme (ownProps data))
      end
  end.
End export_import.

(** *** Snapshots as values *)

Definition modeValue (m : Mode) : value :=
  VStr match m with Mode1v1 => "1v1" | Mode2v2 => "2v2" end.

Definition themeValue (t : ThemeKey) : value :=
  VStr match t with FCB => "FCB" | BVB => "BVB" | FALCO => "FALCO" end.

Definition violationTypeValue (t : ViolationType) : value :=
  VStr match t with
       | unerlaubt_pausiert => "unerlaubt_pausiert"
       | durch_den_bildschirm_gelaufen => "durch_den_bildschirm_gelaufen"
       | koenigstitel_nicht_erwaehnt => "koenigstitel_nicht_erwaehnt"
       | kein_getraenk_erhalten => "kein_getraenk_erhalten"
       | sonderrecht_des_hauens_ignoriert => "sonderrecht_des_hauens_ignoriert"
       | sonstiges => "sonstiges"
       end.

Definition idsValue (ids : list string) : value := VArr (VStr <$> ids).

(** An optional field is a property only when it has a value. *)
Definition optionalProp (k : string) (o : option string)
  : list (string * value) :=
  match o with
  | Some s => [(k, VStr s)]
  | None => []
  end.

Definition playerValue (p : Player.t) : value :=
  VObj [("id", VStr (Player.id p)); ("name", VStr (Player.name p))].

Definition matchValue (m : Match.t) : value :=
  VObj ([("id", VStr (Match.id m)); ("dateISO", VStr (Match.dateISO m));
         ("mode", modeValue (Match.mode m));
         ("teamAName", VStr (Match.teamAName m));
         ("teamBName", VStr (Match.teamBName m));
         ("teamAPlayers", idsValue (Match.teamAPlayers m));
         ("teamBPlayers", idsValue (Match.teamBPlayers m));
         ("goalsA", VNum (Match.goalsA m)); ("goalsB", VNum (Match.goalsB m));
         ("enteredBy", VStr (Match.enteredBy m))]
        ++ optionalProp "sessionId" (Match.sessionId m)).

Definition kingSessionValue (s : KingSession.t) : value :=
  VObj ([("id", VStr (KingSession.id s)); ("dateISO", VStr (KingSession.dateISO s));
         ("kings", idsValue (KingSession.kings s));
         ("bestOf", VNum (KingSession.bestOf s));
         ("mode", modeValue (KingSession.mode s))]
        ++ optionalProp "kingEnteredBy" (KingSession.kingEnteredBy s)).

Definition violationValue (v : Violation.t) : value :=
  VObj [("id", VStr (Violation.id v)); ("dateISO", VStr (Violation.dateISO v));
        ("playerId", VStr (Violation.playerId v));
        ("type", violationTypeValue (Violation.type v));
        ("comment", VStr (Violation.comment v));
        ("enteredBy", VStr (Violation.enteredBy v))].

(** The object a [DB] is at run time.  Properties stand in the order of
    the type declarations; deep equality does not depend on it. *)
Definition dbValue (db : DB.t) : value :=
  VObj [("theme", themeValue (DB.theme db));
        ("players", VArr (playerValue <$> DB.players db));
        ("matches", VArr (matchValue <$> DB.matches db));
        ("kingSessions", VArr (kingSessionValue <$> DB.kingSessions db));
        ("violations", VArr (violationValue <$> DB.violations db))].


(** ** Player names ([nameOf]) *)

(** [players.find((p) => p.id === id)?.name || "?"]. *)
Definition nameOf (players : list Player.t) (id : string) : string :=
  match List.find (fun p => bool_decide (Player.id p = id)) players with
  | Some p => if decide (Player.name p = "") then "?" else Player.name p
  | None => "?"
  end.

(** ** King titles per player ([Standings], [sessionCounts]) *)

Module TitleCount.
Record t := mk { id : string; name : string; wins : Z }.
End TitleCount.

(** [rec.wins += 1] on the record found under [pid]; a missing record is
    skipped. *)
Definition countTitle (map : list (string * TitleCount.t)) (pid : string)
  : list (string * TitleCount.t) :=
  match map_get pid map with
  | None => map
  | Some rec =>
      map_set pid (TitleCount.mk (TitleCount.id rec) (TitleCount.name rec)
                     (TitleCount.wins rec + 1)) map
  end.

Definition initTitles (players : list Player.t) : list (string * TitleCount.t) :=
  foldl (fun m p => map_set (Player.id p)
                      (TitleCount.mk (Player.id p) (Player.name p) 0) m)
        [] players.

Definition sessionCounts (db : DB.t) : list TitleCount.t :=
  snd <$> foldl (fun map s => foldl countTitle map (KingSession.kings s))
                (initTitles (DB.players db)) (DB.kingSessions db).

(** ** History ([deleteMatch], [removeKingTitle], [combinedHistory]) *)

(** [deleteMatch(id)], after the answer to [window.confirm]. *)
Definition deleteMatch (host : Host) (id : string) (prev : DB.t) : DB.t :=
  if confirmAnswer host then
    DB.mk (DB.theme prev) (DB.players prev)
      (List.filter (fun m => negb (bool_decide (Match.id m = id))) (DB.matches prev))
      (DB.kingSessions prev) (DB.violations prev)
  else prev.

(** [s.id === id ? { ...s, kings: [] } : s]. *)
Definition clearKings (id : string) (s : KingSession.t) : KingSession.t :=
  if decide (KingSession.id s = id) then
    KingSession.mk (KingSession.id s) (KingSession.dateISO s) []
      (KingSession.bestOf s) (KingSession.mode s) (KingSession.kingEnteredBy s)
  else s.

(** [removeKingTitle(id)], after the answer to [window.confirm]. *)
Definition removeKingTitle (host : Host) (id : string) (prev : DB.t) : DB.t :=
  if confirmAnswer host then
    DB.mk (DB.theme prev) (DB.players prev) (DB.matches prev)
      (clearKings id <$> DB.kingSessions prev) (DB.violations prev)
  else prev.

Inductive HistoryItem :=
  | MatchItem (date : string) (data : Match.t)
  | SessionItem (date : string) (data : KingSession.t).

Definition itemDate (item : HistoryItem) : string :=
  match item with
  | MatchItem date _ => date
  | SessionItem date _ => date
  end.

Section combinedHistory.
Variable getTime : string -> Z.

(** Newest first. *)
Definition byDateDesc (a b : HistoryItem) : Z :=
  getTime (itemDate b) - getTime (itemDate a).

Definition combinedHistory (db : DB.t) : list HistoryItem :=
  let matchHistory := (fun m => MatchItem (Match.dateISO m) m) <$> DB.matches db in
  let sessionHistory :=
    (fun s => SessionItem (KingSession.dateISO s) s) <$> DB.kingSessions db in
  arraySort byDateDesc (matchHistory ++ sessionHistory).
End combinedHistory.

(** ** Statistics ([Stats]) *)

(** [if (counts[v.playerId] !== undefined) counts[v.playerId]++].  The
    dictionary is a plain object; ids are taken not to name a property
    that objects inherit (no value of [uid()] does), so that a key reads
    as [undefined] exactly when it was never written. *)
Definition countViolation (counts : gmap string Z) (v : Violation.t) : gmap string Z :=
  match counts !! Violation.playerId v with
  | Some n => <[Violation.playerId v := n + 1]> counts
  | None => counts
  end.

Definition violationCounts (db : DB.t) : gmap string Z :=
  foldl countViolation
        (foldl (fun counts p => <[Player.id p := 0]> counts) ∅ (DB.players db))
        (DB.violations db).

Module PlayerStat.
Record t := mk { id : string; name : string; longestStreak : Z; violations : Z }.
End PlayerStat.

(** [b.longestStreak - a.longestStreak || a.violations - b.violations]. *)
Definition comparePlayerStats (a b : PlayerStat.t) : Z :=
  orElse (PlayerStat.longestStreak b - PlayerStat.longestStreak a)
         (PlayerStat.violations a - PlayerStat.violations b).

(** [x || 0] on a dictionary read. *)
Definition orZero (x : option Z) : Z := default 0 x.

Definition playerStats (db : DB.t) (kingInfo : KingInfo.t) : list PlayerStat.t :=
  arraySort comparePlayerStats
    ((fun p => PlayerStat.mk (Player.id p) (Player.name p)
                 (orZero (KingInfo.longestStreaks kingInfo !! Player.id p))
                 (orZero (violationCounts db !! Player.id p)))
       <$> DB.players db).

(** ** Rule violations ([ViolationsTab]) *)

(** [addViolation()]: nothing without a player; else the new violation
    goes first. *)
Definition addViolation (host : Host) (playerId : string) (type : ViolationType)
    (comment enteredBy : string) (app : App) : App :=
  if decide (playerId = "") then app
  else
    let violation :=
      Violation.mk (uidAt host (uidCount app)) (nowISO host) playerId type comment
        (if decide (enteredBy = "") then "Unbekannt" else enteredBy) in
    mkApp (DB.mk (DB.theme (db app)) (DB.players (db app)) (DB.matches (db app))
             (DB.kingSessions (db app)) (violation :: DB.violations (db app)))
          (activeSession app) (S (uidCount app)).

(** ** Roster ([Settings]) *)

Section Settings.
(** [String.prototype.trim]. *)
Variable trim : string -> string.

(** [addPlayer()] of the second revision: a blank name and a name already
    in the roster are ignored. *)
Definition addPlayer (host : Host) (newName : string) (app : App) : App :=
  if negb (bool_decide (trim newName = "")) &&
     negb (existsb (fun p => bool_decide (Player.name p = trim newName))
                   (DB.players (db app)))
  then
    mkApp (DB.mk (DB.theme (db app))
             (DB.players (db app) ++ [Player.mk (uidAt host (uidCount app)) (trim newName)])
             (DB.matches (db app)) (DB.kingSessions (db app)) (DB.violations (db app)))
          (activeSession app) (S (uidCount app))
  else app.
End Settings.

(** [deletePlayer(id)], after the answer to [window.confirm]. *)
Definition deletePlayer (host : Host) (id : string) (prev : DB.t) : DB.t :=
  if confirmAnswer host then
    DB.mk (DB.theme prev)
      (List.filter (fun p => negb (bool_decide (Player.id p = id))) (DB.players prev))
      (DB.matches prev) (DB.kingSessions prev) (DB.violations prev)
  else prev.


(** ** Session form ([StartSessionForm]) *)

(** The five state cells of the form. *)
Module Form.
Record t := mk {
  mode : Mode;
  bestOf : Z;
  sessionTeams : list SessionTeam.t;
  teamName : string;
  teamPlayers : list string
}.
End Form.

(** The initial values given to [useState]. *)
Definition initialForm : Form.t := Form.mk Mode1v1 3 [] "" [].

(** [sessionTeams.flatMap(t => t.players)]. *)
Definition takenIds (sessionTeams : list SessionTeam.t) : list string :=
  sessionTeams ≫= SessionTeam.players.

Definition availablePlayers (players : list Player.t) (sessionTeams : list SessionTeam.t)
  : list Player.t :=
  List.filter (fun p => negb (bool_decide (Player.id p ∈ takenIds sessionTeams))) players.

Definition playersPerTeam (mode : Mode) : nat :=
  match mode with Mode1v1 => 1 | Mode2v2 => 2 end.

(** The updater [toggleTeamPlayer] gives to [setTeamPlayers]. *)
Definition toggleTeamPlayer (perTeam : nat) (id : string) (current : list string)
  : list string :=
  if bool_decide (id ∈ current)
  then List.filter (fun pId => negb (bool_decide (pId = id))) current
  else if bool_decide (perTeam <= length current)%nat then current
       else current ++ [id].

(** [Array.prototype.join]. *)
Fixpoint join (sep : string) (xs : list string) : string :=
  match xs with
  | [] => ""
  | [x] => x
  | x :: rest => x +:+ sep +:+ join sep rest
  end.

(** The options of the best-of select. *)
Inductive BestOfOption := BestOf3 | BestOf5 | BestOf7 | BestOf9.

Definition optionValue (o : BestOfOption) : Z :=
  match o with BestOf3 => 3 | BestOf5 => 5 | BestOf7 => 7 | BestOf9 => 9 end.

(** What the user can do on the form.  A player button and a remove
    button are named by their position in the rendered list. *)
Inductive FormEvent :=
  | PickMode (m : Mode)
  | PickBestOf (o : BestOfOption)
  | TypeTeamName (text : string)
  | ClickPlayer (i : nat)
  | ClickAddTeam
  | ClickRemoveTeam (i : nat)
  | ClickStart.

(** What the user can do on the other tabs. *)
Inductive OtherEvent :=
  | LookOnly
  | AddViolation (playerId : string) (type : ViolationType) (comment enteredBy : string)
  | DeleteMatch (id : string)
  | RemoveKingTitle (id : string)
  | AddPlayer (newName : string)
  | DeletePlayer (id : string)
  | SetTheme (key : ThemeKey).

Inductive Event :=
  | OnForm (e : FormEvent)
  | OnDisplay (a : Action)
  | Elsewhere (e : OtherEvent).

Section SessionManager.
Variable trim : string -> string.

(** [addTeam()]: a team needs exactly [playersPerTeam] players; its name
    is the trimmed text or, when that is empty, the players' names. *)
Definition addTeam (host : Host) (players : list Player.t) (form : Form.t) (count : nat)
  : Form.t * nat :=
  if bool_decide (length (Form.teamPlayers form) <> playersPerTeam (Form.mode form))
  then (form, count)
  else
    let finalTeamName :=
      if decide (trim (Form.teamName form) = "")
      then join " & " (nameOf players <$> Form.teamPlayers form)
      else trim (Form.teamName form) in
    (Form.mk (Form.mode form) (Form.bestOf form)
       (Form.sessionTeams form ++
          [SessionTeam.mk (uidAt host count) finalTeamName (Form.teamPlayers form)])
       "" [],
     S count).

(** One event on the form while no session is active.  The add button is
    disabled unless the selection is complete and fewer than two teams
    exist; the start button is disabled unless there are two teams.  A
    started session unmounts the form, whose state is then lost. *)
Definition formStep (host : Host) (app : App) (form : Form.t) (e : FormEvent)
  : App * Form.t :=
  match e with
  | PickMode m =>
      (app, Form.mk m (Form.bestOf form) (Form.sessionTeams form) (Form.teamName form) [])
  | PickBestOf o =>
      (app, Form.mk (Form.mode form) (optionValue o) (Form.sessionTeams form)
              (Form.teamName form) (Form.teamPlayers form))
  | TypeTeamName text =>
      (app, Form.mk (Form.mode form) (Form.bestOf form) (Form.sessionTeams form) text
              (Form.teamPlayers form))
  | ClickPlayer i =>
      match availablePlayers (DB.players (db app)) (Form.sessionTeams form) !! i with
      | Some p =>
          (app, Form.mk (Form.mode form) (Form.bestOf form) (Form.sessionTeams form)
                  (Form.teamName form)
                  (toggleTeamPlayer (playersPerTeam (Form.mode form)) (Player.id p)
                     (Form.teamPlayers form)))
      | None => (app, form)
      end
  | ClickAddTeam =>
      if bool_decide (length (Form.teamPlayers form) <> playersPerTeam (Form.mode form))
         || bool_decide (2 <= length (Form.sessionTeams form))%nat
      then (app, form)
      else
        let '(form', count') := addTeam host (DB.players (db app)) form (uidCount app) in
        (mkApp (db app) (activeSession app) count', form')
  | ClickRemoveTeam i =>
      match Form.sessionTeams form !! i with
      | Some team =>
          (app, Form.mk (Form.mode form) (Form.bestOf form)
                  (List.filter (fun t => negb (bool_decide (SessionTeam.id t = SessionTeam.id team)))
                     (Form.sessionTeams form))
                  (Form.teamName form) (Form.teamPlayers form))
      | None => (app, form)
      end
  | ClickStart =>
      if bool_decide (length (Form.sessionTeams form) <> 2%nat) then (app, form)
      else (startSession host (Form.sessionTeams form) (Form.bestOf form) (Form.mode form) app,
            initialForm)
  end.

(** One event on another tab. *)
Definition otherStep (host : Host) (app : App) (e : OtherEvent) : App :=
  match e with
  | LookOnly => app
  | AddViolation playerId type comment enteredBy =>
      addViolation host playerId type comment enteredBy app
  | DeleteMatch id => mkApp (deleteMatch host id (db app)) (activeSession app) (uidCount app)
  | RemoveKingTitle id =>
      mkApp (removeKingTitle host id (db app)) (activeSession app) (uidCount app)
  | AddPlayer newName => addPlayer trim host newName app
  | DeletePlayer id => mkApp (deletePlayer host id (db app)) (activeSession app) (uidCount app)
  | SetTheme key =>
      mkApp (DB.mk key (DB.players (db app)) (DB.matches (db app))
               (DB.kingSessions (db app)) (DB.violations (db app)))
            (activeSession app) (uidCount app)
  end.

(** [ActiveSessionDisplay] mounting: its [schedule] starts from
    [activeSession.schedule], and its effect runs once. *)
Definition mountDisplay (host : Host) (app : App) : App :=
  match activeSession app with
  | Some (session, _) =>
      autoFinish host
        (mkApp (db app) (Some (session, ActiveSession.schedule session)) (uidCount app))
  | None => app
  end.

(** One event of a run that starts and ends on the session tab.  The tab
    shows the form when no session is active and the display otherwise;
    an event for the component that is not shown cannot occur.  An event
    on another tab is followed by the return to the session tab, where
    the component shown is mounted anew.  [host] is what the platform
    answers during this event. *)
Definition step (s : App * Form.t) (he : Host * Event) : App * Form.t :=
  let '(app, form) := s in
  let '(host, e) := he in
  match e with
  | OnForm fe =>
      match activeSession app with
      | None => formStep host app form fe
      | Some _ => s
      end
  | OnDisplay a => (act host app a, form)
  | Elsewhere oe => (mountDisplay host (otherStep host app oe), initialForm)
  end.

(** A run from the state the application opens in. *)
Definition run (db0 : DB.t) (events : list (Host * Event)) : App * Form.t :=
  foldl step (mkApp db0 None 0, initialForm) events.
End SessionManager.

(** ** Title table ([Standings]) *)

Section Standings.
Variable localeCompare : string -> string -> Z.

(** [b.wins - a.wins || a.name.localeCompare(b.name)]. *)
Definition compareTitles (a b : TitleCount.t) : Z :=
  orElse (TitleCount.wins b - TitleCount.wins a)
         (localeCompare (TitleCount.name a) (TitleCount.name b)).

(** The rows of the title table as rendered. *)
Definition titleTable (db : DB.t) : list TitleCount.t :=
  arraySort compareTitles (sessionCounts db).
End Standings.

(** ** Header ([Header], [kingTitle]) *)

Definition KING_TITLES (streak : Z) : option string :=
  match streak with
  | 1 => Some "König" | 2 => Some "Zönig" | 3 => Some "Drönig" | 4 => Some "Vönig"
  | 5 => Some "Fönig" | 6 => Some "Sönig" | 7 => Some "Septönig" | 8 => Some "Oktönig"
  | 9 => Some "Nönig" | 10 => Some "Xönig" | 11 => Some "Kaiser" | 12 => Some "Zwaiser"
  | 13 => Some "Traiser"
  | _ => None
  end.

(** [b.streak - a.streak]. *)
Definition byStreakDesc (a b : CurrentKing.t) : Z :=
  CurrentKing.streak b - CurrentKing.streak a.

(** [KING_TITLES[topKing.streak] || `König (${topKing.streak}x)`]; every
    title of the table is truthy. *)
Definition titleFor (streak : Z) : string :=
  match KING_TITLES streak with
  | Some title => title
  | None => "König (" +:+ pretty streak +:+ "x)"
  end.

(** [`${k.name} (${k.streak})`]. *)
Definition kingLabel (k : CurrentKing.t) : string :=
  CurrentKing.name k +:+ " (" +:+ pretty (CurrentKing.streak k) +:+ ")".

(** The [kingTitle] memo.  The sorted copy of a non-empty list is not
    empty, so the branch on [[]] is never taken. *)
Definition kingTitle (kingInfo : KingInfo.t) : string :=
  match KingInfo.currentKings kingInfo with
  | [] => "Der Thron ist leer"
  | _ =>
      let sortedKings := arraySort byStreakDesc (KingInfo.currentKings kingInfo) in
      match sortedKings with
      | [] => ""
      | topKing :: _ =>
          let title := titleFor (CurrentKing.streak topKing) in
          let names := join " & " (kingLabel <$> sortedKings) in
          title +:+ ": " +:+ names
      end
  end.

(** ** Persistence ([useLocalState]) *)

Section useLocalState.
(** [JSON.stringify(v)] and [JSON.parse], the codec of the host;
    [JSON_parse] is [None] where [JSON.parse] throws. *)
Variable JSON_stringify : value -> string.
Variable JSON_parse : string -> option value.

(** [{ ...initial, ...data }]: the properties of [initial], overridden
    and extended by those [data] has. *)
Definition spreadOver (initial : list (string * value)) (data : value)
  : list (string * value) :=
  foldl (fun o kv => map_set kv.1 kv.2 o) initial (ownProps data).

(** The initializer given to [useState]; [raw] is what
    [localStorage.getItem(STORAGE_KEY)] returns, [None] for [null].  A
    missing or empty text and a text that does not parse give [initial]. *)
Definition loadState (initial : list (string * value)) (raw : option string) : value :=
  match raw with
  | None => VObj initial
  | Some text =>
      if decide (text = "") then VObj initial
      else match JSON_parse text with
           | None => VObj initial
           | Some data => VObj (spreadOver initial data)
           end
  end.

(** The effect: what [localStorage.setItem] stores after a state change. *)
Definition saveState (state : value) : string := JSON_stringify state.
End useLocalState.

(** ** Manual match entry of the first revision ([NewMatch], [TeamPicker]) *)

#[global] Instance Mode_eq_dec : EqDecision Mode.
Proof. solve_decision. Defined.

Module TeamPicker.
(** [toggle(id)]: what [onChange] receives, or [value] itself when
    [onChange] is not called. *)
Definition toggle (max : nat) (value : list string) (id : string) : list string :=
  if bool_decide (id ∈ value)
  then List.filter (fun x => negb (bool_decide (x = id))) value
  else if bool_decide (length value < max)%nat then value ++ [id]
       else value.
End TeamPicker.

(** [parseInt(e.target.value || "0", 10)] of [NumberInput]; [entered] is
    the integer the text stands for, [None] for the empty text. *)
Definition NumberInput (entered : option Z) : Z := default 0 entered.

(** The state cells of the entry form. *)
Module NewMatch.
Record t := mk {
  mode : Mode;
  teamAPlayers : list string;
  teamBPlayers : list string;
  teamAName : string;
  teamBName : string;
  goalsA : Z;
  goalsB : Z;
  enteredBy : string;
  date : string
}.
End NewMatch.

(** The [canSave] memo; [new Set(xs).size] is the size of the set of the
    list's elements. *)
Definition canSave (form : NewMatch.t) : bool :=
  let nA := length (NewMatch.teamAPlayers form) in
  let nB := length (NewMatch.teamBPlayers form) in
  if bool_decide (NewMatch.mode form = Mode1v1) &&
     (bool_decide (nA <> 1%nat) || bool_decide (nB <> 1%nat)) then false
  else if bool_decide (NewMatch.mode form = Mode2v2) &&
          (bool_decide (nA <> 2%nat) || bool_decide (nB <> 2%nat)) then false
  else if bool_decide
            (size (list_to_set (NewMatch.teamAPlayers form ++ NewMatch.teamBPlayers form)
                     : gset string) <> (nA + nB)%nat) then false
  else true.

Inductive NewMatchEvent :=
  | ChooseMode (m : Mode)
  | TogglePlayerA (i : nat)
  | TogglePlayerB (i : nat)
  | EnterTeamAName (text : string)
  | EnterTeamBName (text : string)
  | EnterGoalsA (entered : option Z)
  | EnterGoalsB (entered : option Z)
  | EnterEnteredBy (text : string)
  | EnterDate (text : string)
  | ClickSave.

Section NewMatch.
(** [new Date(date).toISOString()]; [None] where it throws on a text
    that is no date. *)
Variable toISOString : string -> option string.
Variable host : Host.
Variable players : list Player.t.

(** [addMatch()] on the form, the stored matches and the count of ids
    drawn.  The new match goes first.  An exception leaves the state. *)
Definition addMatch (form : NewMatch.t) (matches : list Match.t) (count : nat)
  : NewMatch.t * list Match.t * nat :=
  match toISOString (NewMatch.date form) with
  | None => (form, matches, S count)
  | Some dateISO =>
      let match_ :=
        Match.mk (uidAt host count) dateISO (NewMatch.mode form)
          (if decide (NewMatch.teamAName form = "") then "Team A"
           else NewMatch.teamAName form)
          (if decide (NewMatch.teamBName form = "") then "Team B"
           else NewMatch.teamBName form)
          (NewMatch.teamAPlayers form) (NewMatch.teamBPlayers form)
          (NewMatch.goalsA form) (NewMatch.goalsB form)
          (if decide (NewMatch.enteredBy form = "") then "Unbekannt"
           else NewMatch.enteredBy form)
          None in
      (NewMatch.mk (NewMatch.mode form) [] [] "" "" 0 0 (NewMatch.enteredBy form)
         (NewMatch.date form),
       match_ :: matches, S count)
  end.

(** One event on the entry form.  A change of [mode] runs the effect
    that empties both teams; the save button is disabled unless
    [canSave]. *)
Definition newMatchStep (s : NewMatch.t * list Match.t * nat) (e : NewMatchEvent)
  : NewMatch.t * list Match.t * nat :=
  let '(form, matches, count) := s in
  let max := match NewMatch.mode form with Mode1v1 => 1%nat | Mode2v2 => 2%nat end in
  match e with
  | ChooseMode m =>
      if decide (m = NewMatch.mode form) then s
      else (NewMatch.mk m [] [] (NewMatch.teamAName form) (NewMatch.teamBName form)
              (NewMatch.goalsA form) (NewMatch.goalsB form) (NewMatch.enteredBy form)
              (NewMatch.date form), matches, count)
  | TogglePlayerA i =>
      match players !! i with
      | Some p =>
          (NewMatch.mk (NewMatch.mode form)
             (TeamPicker.toggle max (NewMatch.teamAPlayers form) (Player.id p))
             (NewMatch.teamBPlayers form) (NewMatch.teamAName form)
             (NewMatch.teamBName form) (NewMatch.goalsA form) (NewMatch.goalsB form)
             (NewMatch.enteredBy form) (NewMatch.date form), matches, count)
      | None => s
      end
  | TogglePlayerB i =>
      match players !! i with
      | Some p =>
          (NewMatch.mk (NewMatch.mode form) (NewMatch.teamAPlayers form)
             (TeamPicker.toggle max (NewMatch.teamBPlayers form) (Player.id p))
             (NewMatch.teamAName form) (NewMatch.teamBName form)
             (NewMatch.goalsA form) (NewMatch.goalsB form)
             (NewMatch.enteredBy form) (NewMatch.date form), matches, count)
      | None => s
      end
  | EnterTeamAName text =>
      (NewMatch.mk (NewMatch.mode form) (NewMatch.teamAPlayers form)
         (NewMatch.teamBPlayers form) text (NewMatch.teamBName form)
         (NewMatch.goalsA form) (NewMatch.goalsB form) (NewMatch.enteredBy form)
         (NewMatch.date form), matches, count)
  | EnterTeamBName text =>
      (NewMatch.mk (NewMatch.mode form) (NewMatch.teamAPlayers form)
         (NewMatch.teamBPlayers form) (NewMatch.teamAName form) text
         (NewMatch.goalsA form) (NewMatch.goalsB form) (NewMatch.enteredBy form)
         (NewMatch.date form), matches, count)
  | EnterGoalsA entered =>
      (NewMatch.mk (NewMatch.mode form) (NewMatch.teamAPlayers form)
         (NewMatch.teamBPlayers form) (NewMatch.teamAName form) (NewMatch.teamBName form)
         (NumberInput entered) (NewMatch.goalsB form) (NewMatch.enteredBy form)
         (NewMatch.date form), matches, count)
  | EnterGoalsB entered =>
      (NewMatch.mk (NewMatch.mode form) (NewMatch.teamAPlayers form)
         (NewMatch.teamBPlayers form) (NewMatch.teamAName form) (NewMatch.teamBName form)
         (NewMatch.goalsA form) (NumberInput entered) (NewMatch.enteredBy form)
         (NewMatch.date form), matches, count)
  | EnterEnteredBy text =>
      (NewMatch.mk (NewMatch.mode form) (NewMatch.teamAPlayers form)
         (NewMatch.teamBPlayers form) (NewMatch.teamAName form) (NewMatch.teamBName form)
         (NewMatch.goalsA form) (NewMatch.goalsB form) text (NewMatch.date form),
       matches, count)
  | EnterDate text =>
      (NewMatch.mk (NewMatch.mode form) (NewMatch.teamAPlayers form)
         (NewMatch.teamBPlayers form) (NewMatch.teamAName form) (NewMatch.teamBName form)
         (NewMatch.goalsA form) (NewMatch.goalsB form) (NewMatch.enteredBy form) text,
       matches, count)
  | ClickSave =>
      if canSave form then addMatch form matches count else s
  end.
End NewMatch.

(** ** King sessions of the first revision ([QuickKingCounter], [SessionList],
    [Standings], [Stats], [Settings]) *)

Module Rev1.

Module Session.
Record t := mk {
  id : string;
  title : string;
  startedAtISO : string;
  bestOf : Z;
  kings : list string;
  kingEnteredBy : option string
}.
End Session.

(** [boFilter === "all" ? true : s.bestOf === boFilter]; [None] is
    ["all"]. *)
Definition passes (boFilter : option Z) (s : Session.t) : bool :=
  match boFilter with
  | None => true
  | Some n => bool_decide (Session.bestOf s = n)
  end.

Definition sessionsFiltered (boFilter : option Z) (sessions : list Session.t)
  : list Session.t :=
  List.filter (passes boFilter) sessions.

(** *** [Standings]: titles per roster player *)

Module SessionCount.
Record t := mk { id : string; name : string; sessions : Z; wins : Z }.
End SessionCount.

(** [rec.sessions += 1; rec.wins += 1] on the record found under [pid]. *)
Definition countSession (map : list (string * SessionCount.t)) (pid : string)
  : list (string * SessionCount.t) :=
  match map_get pid map with
  | None => map
  | Some rec =>
      map_set pid (SessionCount.mk (SessionCount.id rec) (SessionCount.name rec)
                     (SessionCount.sessions rec + 1) (SessionCount.wins rec + 1)) map
  end.

Definition sessionCounts (players : list Player.t) (boFilter : option Z)
    (sessions : list Session.t) : list SessionCount.t :=
  snd <$> foldl (fun map s => foldl countSession map (Session.kings s))
                (foldl (fun m p => map_set (Player.id p)
                                     (SessionCount.mk (Player.id p) (Player.name p) 0 0) m)
                       [] players)
                (sessionsFiltered boFilter sessions).

(** *** [Stats]: titles per king id *)

(** [kingWins.set(pid, (kingWins.get(pid) || 0) + 1)]. *)
Definition bump (kingWins : list (string * Z)) (pid : string) : list (string * Z) :=
  map_set pid (default 0 (map_get pid kingWins) + 1) kingWins.

Definition kingWins (boFilter : option Z) (sessions : list Session.t)
  : list (string * Z) :=
  foldl (fun m s => foldl bump m (Session.kings s)) []
        (sessionsFiltered boFilter sessions).

Inductive SortBy := ByWins | ByName.

Section Stats.
Variable localeCompare : string -> string -> Z.

(** The arrow function given to [rows.sort]. *)
Definition compareRanked (sortBy : SortBy) (a b : TitleCount.t) : Z :=
  match sortBy with
  | ByWins => orElse (TitleCount.wins b - TitleCount.wins a)
                     (localeCompare (TitleCount.name a) (TitleCount.name b))
  | ByName => localeCompare (TitleCount.name a) (TitleCount.name b)
  end.

(** The rows given to [RankList]. *)
Definition rows (players : list Player.t) (boFilter : option Z) (sortBy : SortBy)
    (sessions : list Session.t) : list TitleCount.t :=
  arraySort (compareRanked sortBy)
    ((fun p => TitleCount.mk (Player.id p) (Player.name p)
                 (default 0 (map_get (Player.id p) (kingWins boFilter sessions))))
       <$> players).
End Stats.

(** *** [SessionList] *)

(** [s.id === id ? { ...s, kings: [] } : s] over the sessions. *)
Definition clearKings (id : string) (sessions : list Session.t) : list Session.t :=
  (fun s => if decide (Session.id s = id)
            then Session.mk (Session.id s) (Session.title s) (Session.startedAtISO s)
                   (Session.bestOf s) [] (Session.kingEnteredBy s)
            else s) <$> sessions.

(** *** [QuickKingCounter] *)

(** The updater [toggle] gives to [setSelected]: at most two. *)
Definition toggle (id : string) (prev : list string) : list string :=
  if bool_decide (id ∈ prev)
  then List.filter (fun x => negb (bool_decide (x = id))) prev
  else if bool_decide (2 <= length prev)%nat then prev
       else prev ++ [id].

(** The state cells of the counter. *)
Module Counter.
Record t := mk { selected : list string; enteredBy : string; bestOf : BestOfOption }.
End Counter.

Inductive CounterEvent :=
  | ClickKing (i : nat)
  | ChooseBestOf (o : BestOfOption)
  | EnterWho (text : string)
  | ClickAdd
  | ClickClearKings (id : string).

Section QuickKingCounter.
(** [today.toISOString().slice(0, 10)] and [today.toLocaleDateString()]
    of the render. *)
Variable todayKey : string.
Variable todayLocale : string.
Variable host : Host.
Variable players : list Player.t.

(** [sessionsToday.length + 1]. *)
Definition nextIndex (sessions : list Session.t) : nat :=
  length (List.filter
            (fun s => bool_decide (String.substring 0 10 (Session.startedAtISO s) = todayKey))
            sessions) + 1.

(** [addQuickSession()]: nothing without a king; else the new session
    goes first and the selection is emptied. *)
Definition addQuickSession (counter : Counter.t) (sessions : list Session.t) (count : nat)
  : Counter.t * list Session.t * nat :=
  if decide (length (Counter.selected counter) = 0%nat) then (counter, sessions, count)
  else
    let s :=
      Session.mk (uidAt host count)
        (todayLocale +:+ " – Königssession #" +:+ pretty (nextIndex sessions))
        (nowISO host)
        (optionValue (Counter.bestOf counter))
        (Counter.selected counter)
        (Some (if decide (Counter.enteredBy counter = "") then "Unbekannt"
               else Counter.enteredBy counter)) in
    (Counter.mk [] (Counter.enteredBy counter) (Counter.bestOf counter),
     s :: sessions, S count).

(** One event on the kings tab. *)
Definition counterStep (s : Counter.t * list Session.t * nat) (e : CounterEvent)
  : Counter.t * list Session.t * nat :=
  let '(counter, sessions, count) := s in
  match e with
  | ClickKing i =>
      match players !! i with
      | Some p =>
          (Counter.mk (toggle (Player.id p) (Counter.selected counter))
             (Counter.enteredBy counter) (Counter.bestOf counter), sessions, count)
      | None => s
      end
  | ChooseBestOf o =>
      (Counter.mk (Counter.selected counter) (Counter.enteredBy counter) o, sessions, count)
  | EnterWho text =>
      (Counter.mk (Counter.selected counter) text (Counter.bestOf counter), sessions, count)
  | ClickAdd => addQuickSession counter sessions count
  | ClickClearKings id => (counter, clearKings id sessions, count)
  end.
End QuickKingCounter.

(** *** [Settings] *)

(** [p.id === id ? { ...p, name: newName } : p] over the roster. *)
Definition rename (id newName : string) (players : list Player.t) : list Player.t :=
  (fun p => if decide (Player.id p = id) then Player.mk (Player.id p) newName else p)
    <$> players.

End Rev1.
(** ** Predicates used in the statements *)

(** The accounting identities of one output row. *)
Definition accounting (r : Row.t) : Prop :=
  Row.points r = 3 * Row.wins r + Row.draws r /\
  Row.goalDiff r = Row.goalsFor r - Row.goalsAgainst r /\
  Row.wins r + Row.draws r + Row.losses r = Row.played r.

Definition balanced (e : string * Stat.t) : Prop :=
  Stat.wins e.2 + Stat.draws e.2 + Stat.losses e.2 = Stat.played e.2.


Definition keyed (e : string * Stat.t) : Prop := Stat.id e.2 = e.1.

(** What the loop over a team's player ids amounts to on one entry of the
    map: the entry is credited when its key is on the team. *)
Definition onTeam (team : list string) (f : Stat.t -> Stat.t)
    (e : string * Stat.t) : string * Stat.t :=
  if decide (e.1 ∈ team) then (e.1, f e.2) else e.

(** The invariant of the [Match] type: the two player lists are duplicate
    free and share no player. *)
Definition wellFormedMatch (m : Match.t) : Prop :=
  NoDup (Match.teamAPlayers m ++ Match.teamBPlayers m).

(** Row [r'] is row [r] after one more played match with the given credit
    of wins, draws, losses, goals for and goals against. *)
Definition gains (r r' : Row.t) (w d l gf ga : Z) : Prop :=
  Row.id r' = Row.id r /\ Row.name r' = Row.name r /\
  Row.played r' = Row.played r + 1 /\
  Row.wins r' = Row.wins r + w /\
  Row.draws r' = Row.draws r + d /\
  Row.losses r' = Row.losses r + l /\
  Row.goalsFor r' = Row.goalsFor r + gf /\
  Row.goalsAgainst r' = Row.goalsAgainst r + ga.

(** The credit a side receives when it scored [mine] and conceded
    [theirs]. *)
Definition creditedAs (r r' : Row.t) (mine theirs : Z) : Prop :=
  (mine > theirs -> gains r r' 1 0 0 mine theirs) /\
  (theirs > mine -> gains r r' 0 0 1 mine theirs) /\
  (mine = theirs -> gains r r' 0 1 0 mine theirs).

(** A collation by code units, one admissible [localeCompare]. *)
Definition codeUnitCompare (a b : string) : Z :=
  match String.compare a b with
  | Lt => -1
  | Eq => 0
  | Gt => 1
  end.

(** Sample data: three players; Bob and Al each draw once against Cy,
    2:2 and 1:1. *)
Definition samplePlayers : list Player.t :=
  [Player.mk "p1" "Al"; Player.mk "p2" "Bob"; Player.mk "p3" "Cy"].

Definition sampleMatch (mid : string) (a b : string) (ga gb : Z) : Match.t :=
  Match.mk mid "2025-01-01T00:00:00.000Z" Mode1v1 a b [a] [b] ga gb "test" None.

Definition sampleMatches : list Match.t :=
  [sampleMatch "m1" "p2" "p3" 2 2; sampleMatch "m2" "p1" "p3" 1 1].




(** Player [pid] has a current and a longest streak, and the longest is at
    least the current one. *)
Definition streakOrdered (st : Streaks) (pid : string) : Prop :=
  exists c l : Z,
    currentStreaks st !! pid = Some c /\ longestStreaks st !! pid = Some l /\ c <= l.

(** Both dictionaries have an entry for [pid]. *)
Definition present (st : Streaks) (pid : string) : Prop :=
  is_Some (currentStreaks st !! pid) /\ is_Some (longestStreaks st !! pid).

(** The same comparison on the values the code reads. *)
Definition flushed (st : Streaks) (pid : string) : Prop :=
  currentStreaks st !!! pid <= longestStreaks st !!! pid.

(** What one slot adds to a team's tally, in the specification's words:
    one when both scores are filled and the team's own goals are strictly
    greater, nothing otherwise. *)
Definition slotCredit (mine theirs : option Z) : Z :=
  match mine, theirs with
  | Some x, Some y => if decide (x > y) then 1 else 0
  | _, _ => 0
  end.

(** The finalization went through: it was the automatic one, the series
    was decided, or the user confirmed. *)
Definition proceeds (host : Host) (session : ActiveSession.t)
    (schedule : list ActiveSessionMatch.t) (isConfirmed : bool) : Prop :=
  isConfirmed = true \/ decided session schedule = true \/ confirmAnswer host = true.

(** Match [m] records slot [slot]: its two scores and the two teams. *)
Definition slotSaved (slot : ActiveSessionMatch.t) (m : Match.t) : Prop :=
  ActiveSessionMatch.goalsA slot = Some (Match.goalsA m) /\
  ActiveSessionMatch.goalsB slot = Some (Match.goalsB m) /\
  Match.teamAPlayers m = SessionTeam.players (ActiveSessionMatch.teamA slot) /\
  Match.teamBPlayers m = SessionTeam.players (ActiveSessionMatch.teamB slot) /\
  Match.teamAName m = SessionTeam.name (ActiveSessionMatch.teamA slot) /\
  Match.teamBName m = SessionTeam.name (ActiveSessionMatch.teamB slot).

(** A slot with both scores entered. *)
Definition scored (slot : ActiveSessionMatch.t) : Prop :=
  ActiveSessionMatch.goalsA slot <> None /\ ActiveSessionMatch.goalsB slot <> None.

#[global] Instance scored_dec (slot : ActiveSessionMatch.t) : Decision (scored slot).
Proof. unfold scored. apply _. Defined.

(** The slots of a schedule with both scores entered, in schedule
    order. *)
Definition scoredSlots (schedule : list ActiveSessionMatch.t)
  : list ActiveSessionMatch.t :=
  filter scored schedule.

(** The winner determination with the two threshold tests in the other
    order. *)
Definition winnerTeamBFirst (session : ActiveSession.t)
    (schedule : list ActiveSessionMatch.t) : option SessionTeam.t :=
  if bool_decide (teamBWins schedule >= winsNeeded session)
  then ActiveSession.teams session !! 1%nat
  else if bool_decide (teamAWins schedule >= winsNeeded session)
       then ActiveSession.teams session !! 0%nat
       else None.

(** Sample session: best of 3 between Al and Bob; Al took the first slot
    3:1, the second slot has only Al's score, the third is untouched. *)
Definition sampleHost : Host :=
  mkHost (fun n => String.append "uid" (String (Ascii.ascii_of_nat (48 + n)) ""))
         "2025-02-03T04:05:06.000Z" false.

Definition teamAl : SessionTeam.t := SessionTeam.mk "t1" "Al" ["p1"].
Definition teamBob : SessionTeam.t := SessionTeam.mk "t2" "Bob" ["p2"].

Definition sampleSlot (sid : string) (a b : option Z) : ActiveSessionMatch.t :=
  ActiveSessionMatch.mk sid teamAl teamBob a b.

Definition sampleSchedule : list ActiveSessionMatch.t :=
  [sampleSlot "s1" (Some 3) (Some 1); sampleSlot "s2" (Some 2) None;
   sampleSlot "s3" None None].

Definition sampleSession : ActiveSession.t :=
  ActiveSession.mk [teamAl; teamBob]
    [sampleSlot "s1" None None; sampleSlot "s2" None None; sampleSlot "s3" None None]
    3 Mode1v1.

Definition sampleDB : DB.t := DB.mk FALCO samplePlayers [] [] [].

Definition sampleApp : App := mkApp sampleDB (Some (sampleSession, sampleSchedule)) 3.

(** *** A reference codec

    [JSON.stringify] and [JSON.parse] belong to the host, and the export
    and the import take them as parameters.  [stringify2] and [parse] are
    a codec of this file that meets what is assumed of the host's, so
    that the assumption is seen to be satisfiable; nothing is proved of
    JSON through them.

    [stringify2] writes a value the way [JSON.stringify(v, null, 2)]
    does: two spaces of indentation per level, one element or member per
    line, [[]] and [{}] for the empty array and object, [null] for [NaN],
    and in string literals a backslash before the quote and the
    backslash, the short escapes for backspace, tab, line feed, form feed
    and carriage return, and [\u00XX] for the other characters below 32.
    [parse] reads by recursive descent the part of JSON whose numbers are
    integers without fraction or exponent and whose [\u] escapes are
    below 128; on the rest of JSON, where [JSON.parse] returns a value
    that is none of [value], it gives [None]. *)

Definition chars (s : string) : list ascii := String.list_ascii_of_string s.

Definition quoteChar : ascii := "034"%char.
Definition backslash : ascii := "092"%char.
Definition newline : ascii := "010"%char.

(** One hexadecimal digit, in lower case. *)
Definition hexDigit (n : nat) : ascii :=
  Ascii.ascii_of_nat (if (n <? 10)%nat then 48 + n else 87 + n)%nat.

(** One character of a string literal, as it is written. *)
Definition escapeChar (c : ascii) : list ascii :=
  let n := Ascii.nat_of_ascii c in
  if Ascii.eqb c quoteChar then [backslash; quoteChar]
  else if Ascii.eqb c backslash then [backslash; backslash]
  else if (n =? 8)%nat then [backslash; "b"%char]
  else if (n =? 9)%nat then [backslash; "t"%char]
  else if (n =? 10)%nat then [backslash; "n"%char]
  else if (n =? 12)%nat then [backslash; "f"%char]
  else if (n =? 13)%nat then [backslash; "r"%char]
  else if (n <? 32)%nat then
    [backslash; "u"%char; "0"%char; "0"%char; hexDigit (n / 16); hexDigit (n mod 16)]
  else [c].

Fixpoint escapeChars (s : list ascii) : list ascii :=
  match s with
  | [] => []
  | c :: r => escapeChar c ++ escapeChars r
  end.

Definition quoted (s : string) : list ascii :=
  quoteChar :: escapeChars (chars s) ++ [quoteChar].

Fixpoint indent (depth : nat) : list ascii :=
  match depth with
  | O => []
  | S d => " "%char :: " "%char :: indent d
  end.

(** The lines between the brackets: each element on a line of its own,
    indented, with a comma after all but the last. *)
Definition printLines {A} (print : A -> list ascii) (depth : nat)
  : list A -> list ascii :=
  fix go (l : list A) : list ascii :=
    match l with
    | [] => []
    | x :: l' =>
        newline :: indent depth ++ print x ++
        match l' with
        | [] => []
        | _ :: _ => ","%char :: go l'
        end
    end.

Fixpoint printValue (depth : nat) (v : value) : list ascii :=
  match v with
  | VNull | VNaN => chars "null"
  | VBool true => chars "true"
  | VBool false => chars "false"
  | VNum n => chars (pretty n)
  | VStr s => quoted s
  | VArr [] => chars "[]"
  | VArr items =>
      "["%char :: printLines (printValue (S depth)) (S depth) items
      ++ newline :: indent depth ++ ["]"%char]
  | VObj [] => chars "{}"
  | VObj props =>
      "{"%char ::
      printLines (fun kv => quoted (fst kv) ++ ":"%char :: " "%char ::
                            printValue (S depth) (snd kv)) (S depth) props
      ++ newline :: indent depth ++ ["}"%char]
  end.

Definition stringify2 (v : value) : string :=
  String.string_of_list_ascii (printValue 0 v).

Definition isSpace (c : ascii) : bool :=
  Ascii.eqb c " "%char || Ascii.eqb c newline ||
  Ascii.eqb c "009"%char || Ascii.eqb c "013"%char.

Fixpoint skipSpace (s : list ascii) : list ascii :=
  match s with
  | c :: r => if isSpace c then skipSpace r else s
  | [] => []
  end.

Definition hexValue (c : ascii) : option nat :=
  let n := Ascii.nat_of_ascii c in
  if (48 <=? n)%nat && (n <=? 57)%nat then Some (n - 48)%nat
  else if (97 <=? n)%nat && (n <=? 102)%nat then Some (n - 87)%nat
  else if (65 <=? n)%nat && (n <=? 70)%nat then Some (n - 55)%nat
  else None.

(** The character a short escape stands for. *)
Definition unescape (c : ascii) : option ascii :=
  if Ascii.eqb c quoteChar then Some quoteChar
  else if Ascii.eqb c backslash then Some backslash
  else if Ascii.eqb c "/"%char then Some "/"%char
  else if Ascii.eqb c "b"%char then Some "008"%char
  else if Ascii.eqb c "t"%char then Some "009"%char
  else if Ascii.eqb c "n"%char then Some "010"%char
  else if Ascii.eqb c "f"%char then Some "012"%char
  else if Ascii.eqb c "r"%char then Some "013"%char
  else None.

(** The character four hexadecimal digits stand for, below 128. *)
Definition codeUnit (h1 h2 h3 h4 : ascii) : option ascii :=
  match hexValue h1, hexValue h2, hexValue h3, hexValue h4 with
  | Some a, Some b, Some c, Some d =>
      let n := (((a * 16 + b) * 16 + c) * 16 + d)%nat in
      if (n <? 128)%nat then Some (Ascii.ascii_of_nat n) else None
  | _, _, _, _ => None
  end.

(** The characters of a string literal, after its opening quote.  A
    character below 32 must be escaped. *)
Fixpoint parseChars (s : list ascii) : option (list ascii * list ascii) :=
  match s with
  | [] => None
  | c :: r =>
      if Ascii.eqb c quoteChar then Some ([], r)
      else if Ascii.eqb c backslash then
        match r with
        | c2 :: r2 =>
            if Ascii.eqb c2 "u"%char then
              match r2 with
              | h1 :: h2 :: h3 :: h4 :: r3 =>
                  match codeUnit h1 h2 h3 h4, parseChars r3 with
                  | Some a, Some (str, rest) => Some (a :: str, rest)
                  | _, _ => None
                  end
              | _ => None
              end
            else
              match unescape c2, parseChars r2 with
              | Some a, Some (str, rest) => Some (a :: str, rest)
              | _, _ => None
              end
        | [] => None
        end
      else if (Ascii.nat_of_ascii c <? 32)%nat then None
      else
        match parseChars r with
        | Some (str, rest) => Some (c :: str, rest)
        | None => None
        end
  end.

Definition parseString (s : list ascii) : option (string * list ascii) :=
  match parseChars s with
  | Some (str, rest) => Some (String.string_of_list_ascii str, rest)
  | None => None
  end.

Definition digitOf (c : ascii) : option Z :=
  let n := Z.of_nat (Ascii.nat_of_ascii c) in
  if decide (48 <= n <= 57) then Some (n - 48) else None.

Fixpoint parseDigits (s : list ascii) (acc : Z) : Z * list ascii :=
  match s with
  | c :: r =>
      match digitOf c with
      | Some d => parseDigits r (10 * acc + d)
      | None => (acc, s)
      end
  | [] => (acc, [])
  end.

(** A zero alone, or a digit other than zero and as many digits as
    follow. *)
Definition parseNatural (s : list ascii) : option (Z * list ascii) :=
  match s with
  | c :: r =>
      match digitOf c with
      | Some d =>
          if decide (d = 0) then
            match r with
            | c' :: _ =>
                match digitOf c' with
                | Some _ => None
                | None => Some (0, r)
                end
            | [] => Some (0, r)
            end
          else Some (parseDigits s 0)
      | None => None
      end
  | [] => None
  end.

Definition parseNumber (s : list ascii) : option (value * list ascii) :=
  match s with
  | c :: r =>
      if Ascii.eqb c "-"%char then
        match parseNatural r with
        | Some (n, rest) => Some (VNum (- n), rest)
        | None => None
        end
      else
        match parseNatural s with
        | Some (n, rest) => Some (VNum n, rest)
        | None => None
        end
  | [] => None
  end.

(** The literal [word] at the head of [s]. *)
Fixpoint literal (word s : list ascii) : option (list ascii) :=
  match word, s with
  | [], _ => Some s
  | w :: word', c :: s' => if Ascii.eqb w c then literal word' s' else None
  | _ :: _, [] => None
  end.

Definition parseLiteral (word : string) (v : value) (s : list ascii)
  : option (value * list ascii) :=
  match literal (chars word) s with
  | Some rest => Some (v, rest)
  | None => None
  end.

Fixpoint parseValue (fuel : nat) (s : list ascii) : option (value * list ascii) :=
  match fuel with
  | O => None
  | S f =>
      match skipSpace s with
      | [] => None
      | c :: r =>
          if Ascii.eqb c quoteChar then
            match parseString r with
            | Some (str, r') => Some (VStr str, r')
            | None => None
            end
          else if Ascii.eqb c "["%char then
            match skipSpace r with
            | c' :: r' =>
                if Ascii.eqb c' "]"%char then Some (VArr [], r')
                else
                  match parseItems f r with
                  | Some (items, r'') => Some (VArr items, r'')
                  | None => None
                  end
            | [] => None
            end
          else if Ascii.eqb c "{"%char then
            match skipSpace r with
            | c' :: r' =>
                if Ascii.eqb c' "}"%char then Some (VObj [], r')
                else
                  match parseMembers f r with
                  | Some (props, r'') => Some (VObj props, r'')
                  | None => None
                  end
            | [] => None
            end
          else if Ascii.eqb c "n"%char then parseLiteral "null" VNull (c :: r)
          else if Ascii.eqb c "t"%char then parseLiteral "true" (VBool true) (c :: r)
          else if Ascii.eqb c "f"%char then parseLiteral "false" (VBool false) (c :: r)
          else parseNumber (c :: r)
      end
  end
with parseItems (fuel : nat) (s : list ascii) : option (list value * list ascii) :=
  match fuel with
  | O => None
  | S f =>
      match parseValue f s with
      | Some (v, r) =>
          match skipSpace r with
          | c :: r' =>
              if Ascii.eqb c ","%char then
                match parseItems f r' with
                | Some (vs, r'') => Some (v :: vs, r'')
                | None => None
                end
              else if Ascii.eqb c "]"%char then Some ([v], r')
              else None
          | [] => None
          end
      | None => None
      end
  end
with parseMembers (fuel : nat) (s : list ascii)
  : option (list (string * value) * list ascii) :=
  match fuel with
  | O => None
  | S f =>
      match skipSpace s with
      | c :: r =>
          if Ascii.eqb c quoteChar then
            match parseString r with
            | Some (k, r1) =>
                match skipSpace r1 with
                | c1 :: r2 =>
                    if Ascii.eqb c1 ":"%char then
                      match parseValue f r2 with
                      | Some (v, r3) =>
                          match skipSpace r3 with
                          | c3 :: r4 =>
                              if Ascii.eqb c3 ","%char then
                                match parseMembers f r4 with
                                | Some (ps, r5) => Some ((k, v) :: ps, r5)
                                | None => None
                                end
                              else if Ascii.eqb c3 "}"%char then Some ([(k, v)], r4)
                              else None
                          | [] => None
                          end
                      | None => None
                      end
                    else None
                | [] => None
                end
            | None => None
            end
          else None
      | [] => None
      end
  end.

Definition parse (text : string) : option value :=
  match parseValue (S (String.length text)) (chars text) with
  | Some (v, rest) =>
      match skipSpace rest with
      | [] => Some v
      | _ :: _ => None
      end
  | None => None
  end.

(** Fuel that suffices to parse the text of a value: one unit per value
    and one per element of an array or object. *)
Definition needList {A} (need : A -> nat) : list A -> nat :=
  fix go (l : list A) : nat :=
    match l with
    | [] => O
    | x :: l' => S (need x + go l')
    end.

Fixpoint need (v : value) : nat :=
  match v with
  | VArr items => S (needList need items)
  | VObj props => S (needList (fun kv => need (snd kv)) props)
  | _ => 1
  end.

(** The text that follows a number does not go on with a digit. *)
Definition noDigit (rest : list ascii) : Prop :=
  match rest with
  | c :: _ => digitOf c = None
  | [] => True
  end.

(** A character that starts a number: neither white space nor one the
    parser gives another meaning. *)
Definition numberHead (c : ascii) : Prop :=
  isSpace c = false /\ Ascii.eqb c quoteChar = false /\
  Ascii.eqb c "["%char = false /\ Ascii.eqb c "{"%char = false /\
  Ascii.eqb c "n"%char = false /\ Ascii.eqb c "t"%char = false /\
  Ascii.eqb c "f"%char = false /\
  Ascii.eqb c "]"%char = false /\ Ascii.eqb c "}"%char = false.

(** The value with [null] in the place of every [NaN]. *)
Fixpoint nullify (v : value) : value :=
  match v with
  | VNaN => VNull
  | VArr items => VArr (List.map nullify items)
  | VObj props => VObj (List.map (fun kv => (fst kv, nullify (snd kv))) props)
  | _ => v
  end.

(** No number of the value is [NaN]. *)
Definition finite (v : value) : Prop := nullify v = v.

(** What is assumed of the host's codec: [JSON.parse] reads the text
    [JSON.stringify] wrote back as the value written, but for [NaN],
    which is written as [null]. *)
Definition JSON_law (JSON_stringify : value -> string)
    (JSON_parse : string -> option value) : Prop :=
  forall v, JSON_parse (JSON_stringify v) = Some (nullify v).

(** The text of a value at depth [d], in any context, parses back with
    enough fuel. *)
Definition readsBack (v : value) : Prop :=
  forall (d : nat) (rest : list ascii) (fuel : nat),
    (need v <= fuel)%nat -> noDigit rest ->
    parseValue fuel (printValue d v ++ rest) = Some (nullify v, rest).

(** The line of a member of an object. *)
Definition printMember (depth : nat) (kv : string * value) : list ascii :=
  quoted (fst kv) ++ ":"%char :: " "%char :: printValue depth (snd kv).

(** A snapshot with one match of a session, one free match, one king
    session and one violation. *)
Definition storedDB : DB.t :=
  DB.mk FALCO samplePlayers
    [Match.mk "m1" "2025-01-01T10:00:00.000Z" Mode1v1 "Al" "Bob" ["p1"] ["p2"] 3 1
       "Session" (Some "k1");
     Match.mk "m2" "2025-01-02T10:00:00.000Z" Mode2v2 "A & B" "C" ["p1"; "p2"] ["p3"]
       0 0 "Cy" None]
    [KingSession.mk "k1" "2025-01-01T10:00:00.000Z" ["p1"] 3 Mode1v1 (Some "Session")]
    [Violation.mk "v1" "2025-01-03T10:00:00.000Z" "p2" kein_getraenk_erhalten
       "no drink" "Al"].

(** A snapshot of the first revision whose one match has [NaN] for team
    A's goals: [NumberInput] stores [parseInt(e.target.value || "0", 10)],
    which is [NaN] for the text [.5], and [addMatch] saves
    [Number(goalsA)] whatever it is. *)
Definition nanMatch : value :=
  VObj (map_set "goalsA" VNaN (ownProps (matchValue (sampleMatch "m1" "p1" "p2" 0 0)))).

Definition nanSnapshot : value :=
  VObj [("theme", themeValue BVB);
        ("players", VArr (playerValue <$> samplePlayers));
        ("matches", VArr [nanMatch]);
        ("sessions", VArr [])].

(** [session.kings.length !== 0]. *)
Definition crowned (session : KingSession.t) : bool :=
  match KingSession.kings session with
  | [] => false
  | _ :: _ => true
  end.

(** Sample history: Al wins sessions k1 and k2, session k3 has no kings,
    Bob wins session k4.  The sample clock reads the day of the month. *)
Definition sampleKings (sid : string) (kings : list string) : KingSession.t :=
  KingSession.mk sid
    (String.append "2025-03-0" (String.append (String.substring 1 1 sid) "T00:00:00.000Z"))
    kings 3 Mode1v1 (Some "Session").

Definition sampleTime (iso : string) : Z :=
  match String.get 9 iso with
  | Some c => Z.of_nat (Ascii.nat_of_ascii c) - 48
  | None => 0
  end.

Definition removeAt {A} (i : nat) (l : list A) : list A := take i l ++ drop (S i) l.

Definition sampleHistory : DB.t :=
  DB.mk FALCO samplePlayers []
    [sampleKings "k1" ["p1"]; sampleKings "k2" ["p1"]; sampleKings "k3" [];
     sampleKings "k4" ["p2"]] [].

(** ** Predicates and measures for the further properties *)

(** What a number of matches add to a player's accumulator. *)
Record Tally := mkTally {
  t_played : Z; t_wins : Z; t_draws : Z; t_losses : Z;
  t_goalsFor : Z; t_goalsAgainst : Z
}.

Definition tallyZero : Tally := mkTally 0 0 0 0 0 0.

Definition tallyAdd (a b : Tally) : Tally :=
  mkTally (t_played a + t_played b) (t_wins a + t_wins b) (t_draws a + t_draws b)
    (t_losses a + t_losses b) (t_goalsFor a + t_goalsFor b)
    (t_goalsAgainst a + t_goalsAgainst b).

Definition tallyScale (n : Z) (a : Tally) : Tally :=
  mkTally (n * t_played a) (n * t_wins a) (n * t_draws a) (n * t_losses a)
    (n * t_goalsFor a) (n * t_goalsAgainst a).

Definition applyTally (t : Tally) (s : Stat.t) : Stat.t :=
  Stat.mk (Stat.id s) (Stat.name s) (Stat.played s + t_played t)
    (Stat.wins s + t_wins t) (Stat.draws s + t_draws t) (Stat.losses s + t_losses t)
    (Stat.goalsFor s + t_goalsFor t) (Stat.goalsAgainst s + t_goalsAgainst t).

(** One appearance on a side that scored [mine] and conceded [theirs]. *)
Definition sideTally (mine theirs : Z) : Tally :=
  mkTally 1 (if decide (mine > theirs) then 1 else 0)
    (if decide (mine = theirs) then 1 else 0)
    (if decide (theirs > mine) then 1 else 0) mine theirs.

(** How often [pid] is listed in [team]. *)
Definition appearances (pid : string) (team : list string) : Z :=
  Z.of_nat (length (List.filter (fun x => bool_decide (x = pid)) team)).

(** What match [m] adds for player [pid]. *)
Definition matchTally (m : Match.t) (pid : string) : Tally :=
  tallyAdd
    (tallyScale (appearances pid (Match.teamAPlayers m))
       (sideTally (Match.goalsA m) (Match.goalsB m)))
    (tallyScale (appearances pid (Match.teamBPlayers m))
       (sideTally (Match.goalsB m) (Match.goalsA m))).

Definition totalTally (ms : list Match.t) (pid : string) : Tally :=
  foldr (fun m acc => tallyAdd (matchTally m pid) acc) tallyZero ms.

(** The row of player [p] as a sum over the matches. *)
Definition expectedRow (ms : list Match.t) (p : Player.t) : Row.t :=
  toRow (applyTally (totalTally ms (Player.id p)) (freshStat p)).

(** The row of [r] after the credit [t]. *)
Definition rowPlus (r : Row.t) (t : Tally) : Row.t :=
  Row.mk (Row.id r) (Row.name r) (Row.played r + t_played t) (Row.wins r + t_wins t)
    (Row.draws r + t_draws t) (Row.losses r + t_losses t)
    (Row.goalsFor r + t_goalsFor t) (Row.goalsAgainst r + t_goalsAgainst t)
    (Row.points r + 3 * t_wins t + t_draws t)
    (Row.goalDiff r + t_goalsFor t - t_goalsAgainst t).

(** No other match of the list has the id of [m]. *)
Definition idUniqueIn (m : Match.t) (before after : list Match.t) : Prop :=
  Forall (fun m' => Match.id m' <> Match.id m) (before ++ after).

(** A host whose user confirms. *)
Definition yesHost : Host := mkHost (uidAt sampleHost) (nowISO sampleHost) true.

Definition sampleLeague : DB.t := DB.mk FALCO samplePlayers sampleMatches [] [].

Definition withKingSessions (db : DB.t) (sessions : list KingSession.t) : DB.t :=
  DB.mk (DB.theme db) (DB.players db) (DB.matches db) sessions (DB.violations db).

(** The king sessions whose id is not [id]. *)
Definition sessionsOtherThan (id : string) (sessions : list KingSession.t)
  : list KingSession.t :=
  List.filter (fun s => negb (bool_decide (KingSession.id s = id))) sessions.

(** How often [pid] is listed as king over the sessions. *)
Definition titlesOf (sessions : list KingSession.t) (pid : string) : Z :=
  foldr (fun s acc => appearances pid (KingSession.kings s) + acc) 0 sessions.

(** How many violations name [pid]. *)
Definition violationsOf (violations : list Violation.t) (pid : string) : Z :=
  Z.of_nat (length (List.filter (fun v => bool_decide (Violation.playerId v = pid))
                                violations)).

(** Sample history of titles with a revoked one. *)
Definition sampleTitles : DB.t :=
  DB.mk FALCO samplePlayers []
    [sampleKings "k1" ["p1"]; sampleKings "k2" ["p2"]; sampleKings "k4" ["p1"]]
    [Violation.mk "v1" "2025-01-03T10:00:00.000Z" "p2" kein_getraenk_erhalten "" "Al";
     Violation.mk "v2" "2025-01-04T10:00:00.000Z" "ghost" sonstiges "" "Al"].

(** *** The session tab *)

(** The ids the form holds: those of its teams and those selected. *)
Definition formIds (form : Form.t) : list string :=
  takenIds (Form.sessionTeams form) ++ Form.teamPlayers form.

Definition teamSized (t : SessionTeam.t) : Prop :=
  (1 <= length (SessionTeam.players t) <= 2)%nat.

(** No player is held twice, every player held is in the roster, there
    are at most two teams of one or two players, the selection fits the
    mode, and the series length is one of the options. *)
Definition formOk (players : list Player.t) (form : Form.t) : Prop :=
  NoDup (formIds form) /\
  Forall (fun id => id ∈ Player.id <$> players) (formIds form) /\
  (length (Form.sessionTeams form) <= 2)%nat /\
  Forall teamSized (Form.sessionTeams form) /\
  (length (Form.teamPlayers form) <= playersPerTeam (Form.mode form))%nat /\
  Form.bestOf form ∈ [3; 5; 7; 9].

Definition emptySlot (slot : ActiveSessionMatch.t) : Prop :=
  ActiveSessionMatch.goalsA slot = None /\ ActiveSessionMatch.goalsB slot = None.

Definition between (tA tB : SessionTeam.t) (slot : ActiveSessionMatch.t) : Prop :=
  ActiveSessionMatch.teamA slot = tA /\ ActiveSessionMatch.teamB slot = tB.

(** A session of two disjoint teams of one or two players over 3, 5, 7
    or 9 slots, all between the two teams; the stored schedule is empty
    and the one on display has the same slots in the same order. *)
Definition sessionOk (session : ActiveSession.t) (schedule : list ActiveSessionMatch.t)
  : Prop :=
  exists tA tB,
    ActiveSession.teams session = [tA; tB] /\
    NoDup (SessionTeam.players tA ++ SessionTeam.players tB) /\
    teamSized tA /\ teamSized tB /\
    ActiveSession.bestOf session ∈ [3; 5; 7; 9] /\
    Z.of_nat (length (ActiveSession.schedule session)) = ActiveSession.bestOf session /\
    Forall emptySlot (ActiveSession.schedule session) /\
    Forall (between tA tB) (ActiveSession.schedule session) /\
    ActiveSessionMatch.id <$> schedule
      = ActiveSessionMatch.id <$> ActiveSession.schedule session /\
    Forall (between tA tB) schedule.

(** What holds of every state of a run. *)
Definition inv (s : App * Form.t) : Prop :=
  formOk (DB.players (db s.1)) s.2 /\
  match activeSession s.1 with
  | Some (session, schedule) =>
      sessionOk session schedule /\ decided session schedule = false
  | None => True
  end.

(** Two players pick themselves as teams and start a best of three. *)
Definition sampleClicks : list (Host * Event) :=
  (fun e => (sampleHost, OnForm e))
    <$> [ClickPlayer 0; ClickAddTeam; ClickPlayer 0; ClickAddTeam; ClickStart].

(** The same, then a win for the first team. *)
Definition sampleScores : list (Host * Event) :=
  sampleClicks ++
    [(sampleHost, OnDisplay (EnterScore (uidAt sampleHost 2) SideA (Some 2)));
     (sampleHost, OnDisplay (EnterScore (uidAt sampleHost 2) SideB (Some 0)))].

(** *** The credit of a series *)

(** What a slot gives a player of its first and of its second team;
    a slot lacking a score gives nothing. *)
Definition slotTallyA (slot : ActiveSessionMatch.t) : Tally :=
  match ActiveSessionMatch.goalsA slot, ActiveSessionMatch.goalsB slot with
  | Some a, Some b => sideTally a b
  | _, _ => tallyZero
  end.

Definition slotTallyB (slot : ActiveSessionMatch.t) : Tally :=
  match ActiveSessionMatch.goalsA slot, ActiveSessionMatch.goalsB slot with
  | Some a, Some b => sideTally b a
  | _, _ => tallyZero
  end.

Definition seriesTallyA (schedule : list ActiveSessionMatch.t) : Tally :=
  foldr (fun slot acc => tallyAdd (slotTallyA slot) acc) tallyZero schedule.

Definition seriesTallyB (schedule : list ActiveSessionMatch.t) : Tally :=
  foldr (fun slot acc => tallyAdd (slotTallyB slot) acc) tallyZero schedule.

(** What the series adds for player [pid]. *)
Definition seriesCredit (tA tB : SessionTeam.t) (schedule : list ActiveSessionMatch.t)
    (pid : string) : Tally :=
  tallyAdd
    (tallyScale (appearances pid (SessionTeam.players tA)) (seriesTallyA schedule))
    (tallyScale (appearances pid (SessionTeam.players tB)) (seriesTallyB schedule)).

(** A league whose first two players are in a series that stands 1:0
    with one slot half filled. *)
Definition sampleSeries : App :=
  mkApp sampleLeague (Some (sampleSession, sampleSchedule)) 3.

(** *** Display orders *)

(** The entries of the history before sorting: the matches, then the
    king sessions. *)
Definition historyItems (db : DB.t) : list HistoryItem :=
  ((fun m => MatchItem (Match.dateISO m) m) <$> DB.matches db) ++
  ((fun s => SessionItem (KingSession.dateISO s) s) <$> DB.kingSessions db).

(** The entries of instant [t]. *)
Definition atInstant (getTime : string -> Z) (t : Z) (item : HistoryItem) : bool :=
  bool_decide (getTime (itemDate item) = t).

(** [a] may stand before [b] in the statistics: a longer longest streak,
    or the same with no more violations. *)
Definition statsOrdered (a b : PlayerStat.t) : Prop :=
  PlayerStat.longestStreak a > PlayerStat.longestStreak b \/
  (PlayerStat.longestStreak a = PlayerStat.longestStreak b /\
   PlayerStat.violations a <= PlayerStat.violations b).

(** [a] may stand before [b] in the title table: more titles, or the same
    with a name that does not collate after. *)
Definition titlesOrdered (localeCompare : string -> string -> Z) (a b : TitleCount.t)
  : Prop :=
  TitleCount.wins a > TitleCount.wins b \/
  (TitleCount.wins a = TitleCount.wins b /\
   localeCompare (TitleCount.name a) (TitleCount.name b) <= 0).

(** *** Manual match entry *)

(** A match of two disjoint, duplicate-free teams of the size its mode
    asks for. *)
Definition sizedMatch (m : Match.t) : Prop :=
  length (Match.teamAPlayers m) = playersPerTeam (Match.mode m) /\
  length (Match.teamBPlayers m) = playersPerTeam (Match.mode m) /\
  wellFormedMatch m.

(** A selection of a team picker: duplicate free and within the size of
    the mode. *)
Definition pickedOk (mode : Mode) (value : list string) : Prop :=
  NoDup value /\ (length value <= playersPerTeam mode)%nat.

(** The entry form as it opens. *)
Definition emptyEntry (date : string) : NewMatch.t :=
  NewMatch.mk Mode1v1 [] [] "" "" 0 0 "" date.

(** A clock that reads every text as a date. *)
Definition anyDate (date : string) : option string := Some date.

(** *** One more session *)

(** The current and the longest streak the dictionaries hold for [pid]. *)
Definition streakAt (st : Streaks) (pid : string) : Z * Z :=
  (currentStreaks st !!! pid, longestStreaks st !!! pid).

(** What a session with kings does to a player's pair of current and
    longest streak, and what the final flush does. *)
Definition stepPair (king : bool) (cl : Z * Z) : Z * Z :=
  if king then (cl.1 + 1, cl.2) else (0, Z.max cl.2 cl.1).

Definition flushPair (cl : Z * Z) : Z * Z := (cl.1, Z.max cl.2 cl.1).

(** Session [s] is not earlier than any session of the list. *)
Definition latest (getTime : string -> Z) (s : KingSession.t)
    (sessions : list KingSession.t) : Prop :=
  Forall (fun x => getTime (KingSession.dateISO x) <= getTime (KingSession.dateISO s))
         sessions.

(** *** First revision *)

(** How often [pid] is listed over a list of king lists. *)
Definition titlesIn (kingsLists : list (list string)) (pid : string) : Z :=
  foldr (fun ks acc => appearances pid ks + acc) 0 kingsLists.

(** Row [r] under the new name when its id is [id]. *)
Definition renameRow (id newName : string) (r : Row.t) : Row.t :=
  if decide (Row.id r = id)
  then Row.mk (Row.id r) newName (Row.played r) (Row.wins r) (Row.draws r)
         (Row.losses r) (Row.goalsFor r) (Row.goalsAgainst r) (Row.points r)
         (Row.goalDiff r)
  else r.

(** What the [Session] type asks for: at most two kings, no king twice,
    and a series length of 3, 5, 7 or 9. *)
Definition sessionTyped (s : Rev1.Session.t) : Prop :=
  NoDup (Rev1.Session.kings s) /\
  (length (Rev1.Session.kings s) <= 2)%nat /\
  Rev1.Session.bestOf s ∈ [3; 5; 7; 9].

Definition sampleSessions : list Rev1.Session.t :=
  [Rev1.Session.mk "q1" "one" "2025-01-01T10:00:00.000Z" 3 ["p1"] None;
   Rev1.Session.mk "q2" "two" "2025-01-01T11:00:00.000Z" 5 ["p1"; "p2"] None;
   Rev1.Session.mk "q3" "three" "2025-01-02T10:00:00.000Z" 3 ["p3"] None].
(** ** Properties *)

Section map_facts.
Implicit Types (m : StatMap) (k : string) (v s : Stat.t).

Lemma map_get_elem m k s : map_get k m = Some s -> (k, s) ∈ m.
Proof.
  induction m as [|[k' v'] m IH]; simpl; [done|].
  case_decide; [intros [= ->]; subst; left|right; auto].
Qed.

Lemma map_set_Forall (P : string * Stat.t -> Prop) m k v :
  P (k, v) -> Forall P m -> Forall P (map_set k v m).
Proof.
  intros Hv. induction 1 as [|[k' v'] m Hx Hm IH]; simpl.
  - by repeat constructor.
  - case_decide; subst; by constructor.
Qed.

(** The keys after [map.set]: unchanged for a present key, one more at
    the end for a new one. *)
Lemma map_set_keys m k v :
  (map_set k v m).*1 = if decide (k ∈ m.*1) then m.*1 else m.*1 ++ [k].
Proof.
  induction m as [|[k' v'] m IH]; csimpl.
  - destruct (decide (k ∈ [])) as [H|H]; [by apply elem_of_nil in H|done].
  - destruct (decide (k' = k)) as [->|Hne]; csimpl.
    + rewrite decide_True; [done|left].
    + rewrite IH. destruct (decide (k ∈ m.*1)) as [Hin|Hnin].
      * rewrite decide_True; [done|by right].
      * rewrite decide_False; [done|].
        intros [->|?]%elem_of_cons; done.
Qed.

Lemma map_set_NoDup m k v : NoDup m.*1 -> NoDup (map_set k v m).*1.
Proof.
  intros Hnd. rewrite map_set_keys. case_decide; [done|].
  apply NoDup_app. split_and!; [done| |apply NoDup_singleton].
  intros x Hx ->%list_elem_of_singleton. done.
Qed.

Lemma initMap_inv (P : string * Stat.t -> Prop) players :
  (forall p, P (Player.id p, freshStat p)) ->
  NoDup (initMap players).*1 /\ Forall P (initMap players).
Proof.
  intros HP. unfold initMap.
  assert (Hgen : forall m0 : StatMap, NoDup m0.*1 -> Forall P m0 ->
    NoDup (foldl (fun m p => map_set (Player.id p) (freshStat p) m) m0 players).*1 /\
    Forall P (foldl (fun m p => map_set (Player.id p) (freshStat p) m) m0 players)).
  { induction players as [|p ps IH]; intros m0 Hnd HF; simpl; [done|].
    apply IH; [by apply map_set_NoDup|by apply map_set_Forall]. }
  apply Hgen; [apply NoDup_nil_2|constructor].
Qed.
End map_facts.

(** *** Invariants of the aggregation loop *)

Section aggregate_invariants.
Variable P : string * Stat.t -> Prop.

Lemma creditPlayer_Forall (f : Stat.t -> Stat.t) (m : StatMap) (pid : string) :
  (forall k s, P (k, s) -> P (k, f s)) ->
  Forall P m -> Forall P (creditPlayer f m pid).
Proof.
  intros Hf Hm. unfold creditPlayer.
  destruct (map_get pid m) as [s|] eqn:Hget; [|done].
  apply map_set_Forall; [|done]. apply Hf.
  apply map_get_elem in Hget. by eapply Forall_forall in Hm.
Qed.

Lemma team_loop_Forall (f : Stat.t -> Stat.t) (team : list string) (m : StatMap) :
  (forall k s, P (k, s) -> P (k, f s)) ->
  Forall P m -> Forall P (foldl (creditPlayer f) m team).
Proof.
  intros Hf. revert m.
  induction team as [|pid team IH]; intros m Hm; simpl; [done|].
  by apply IH, creditPlayer_Forall.
Qed.

Hypothesis creditA_P : forall mt k s, P (k, s) -> P (k, creditA mt s).
Hypothesis creditB_P : forall mt k s, P (k, s) -> P (k, creditB mt s).

Lemma aggregateMatch_Forall (m : StatMap) (mt : Match.t) :
  Forall P m -> Forall P (aggregateMatch m mt).
Proof.
  intros Hm. unfold aggregateMatch.
  apply team_loop_Forall; [apply creditB_P|].
  apply team_loop_Forall; [apply creditA_P|done].
Qed.

Lemma match_loop_Forall (matches : list Match.t) (m : StatMap) :
  Forall P m -> Forall P (foldl aggregateMatch m matches).
Proof.
  revert m. induction matches as [|mt ms IH]; intros m Hm; simpl; [done|].
  by apply IH, aggregateMatch_Forall.
Qed.
End aggregate_invariants.

Lemma creditA_balanced mt k s : balanced (k, s) -> balanced (k, creditA mt s).
Proof.
  unfold balanced, creditA; simpl. repeat case_bool_decide; simpl; lia.
Qed.

Lemma creditB_balanced mt k s : balanced (k, s) -> balanced (k, creditB mt s).
Proof.
  unfold balanced, creditB; simpl. repeat case_bool_decide; simpl; lia.
Qed.

(** C1. Every record that [computeStandings] produces, for any player list
    and any match list, satisfies points = 3*wins + draws,
    goalDiff = goalsFor - goalsAgainst and wins + draws + losses = played. *)
Theorem C1_accounting_identities (players : list Player.t) (matches : list Match.t) :
  Forall accounting (computeStandings players matches).
Proof.
  unfold computeStandings.
  assert (Hbal : Forall balanced (foldl aggregateMatch (initMap players) matches)).
  { apply match_loop_Forall.
    - apply creditA_balanced.
    - apply creditB_balanced.
    - by apply (initMap_inv balanced). }
  rewrite <- list_fmap_compose. apply Forall_fmap.
  eapply Forall_impl; [exact Hbal|].
  intros [k s] Hs. unfold balanced in Hs. unfold accounting; simpl in *. lia.
Qed.

(** *** The effect of one match *)

Section one_match.
Implicit Types (m : StatMap) (f : Stat.t -> Stat.t) (team : list string).

Lemma creditPlayer_keys f m pid : (creditPlayer f m pid).*1 = m.*1.
Proof.
  unfold creditPlayer. destruct (map_get pid m) as [s|] eqn:Hget; [|done].
  rewrite map_set_keys, decide_True; [done|].
  apply map_get_elem in Hget. apply list_elem_of_fmap. by exists (pid, s).
Qed.

Lemma team_loop_keys f team m : (foldl (creditPlayer f) m team).*1 = m.*1.
Proof.
  revert m. induction team as [|pid team IH]; intros m; simpl; [done|].
  by rewrite IH, creditPlayer_keys.
Qed.

Lemma aggregateMatch_keys m mt : (aggregateMatch m mt).*1 = m.*1.
Proof. unfold aggregateMatch. by rewrite !team_loop_keys. Qed.

Lemma match_loop_keys (matches : list Match.t) m :
  (foldl aggregateMatch m matches).*1 = m.*1.
Proof.
  revert m. induction matches as [|mt ms IH]; intros m; simpl; [done|].
  by rewrite IH, aggregateMatch_keys.
Qed.

Lemma onTeam_absent team f m :
  (forall k, k ∈ m.*1 -> k ∉ team) -> onTeam team f <$> m = m.
Proof.
  induction m as [|[k s] m IH]; intros Hk; csimpl; [done|].
  rewrite IH by (intros; apply Hk; by right).
  unfold onTeam; simpl. rewrite decide_False; [done|]. apply Hk. left.
Qed.

(** With distinct keys, one loop iteration credits exactly the entry of
    [pid], if there is one. *)
Lemma creditPlayer_spec f m pid :
  NoDup m.*1 -> creditPlayer f m pid = onTeam [pid] f <$> m.
Proof.
  unfold creditPlayer.
  induction m as [|[k s] m IH]; csimpl; intros Hnd; [done|].
  apply NoDup_cons in Hnd as [Hk Hnd]. unfold onTeam at 1; simpl.
  destruct (decide (k = pid)) as [->|Hne].
  - rewrite decide_True by left. f_equal.
    symmetry. apply onTeam_absent.
    intros k Hin ->%list_elem_of_singleton. done.
  - rewrite decide_False by (intros ?%list_elem_of_singleton; done).
    rewrite <- (IH Hnd). by destruct (map_get pid m).
Qed.

Lemma team_loop_spec f team m :
  NoDup m.*1 -> NoDup team ->
  foldl (creditPlayer f) m team = onTeam team f <$> m.
Proof.
  revert m. induction team as [|pid team IH]; intros m Hm Hteam; simpl.
  - symmetry. apply onTeam_absent. intros k _. apply not_elem_of_nil.
  - apply NoDup_cons in Hteam as [Hpid Hteam].
    rewrite IH; [|by rewrite creditPlayer_keys|done].
    rewrite creditPlayer_spec by done. rewrite <- list_fmap_compose.
    apply list_fmap_ext. intros i [k s] _. unfold onTeam; simpl.
    destruct (decide (k = pid)) as [->|Hne].
    + rewrite (decide_True (P := pid ∈ pid :: team)) by left.
      rewrite (decide_True (P := pid ∈ [pid])) by left. simpl.
      by rewrite (decide_False (P := pid ∈ team)).
    + rewrite (decide_False (P := k ∈ [pid]))
        by (intros ?%list_elem_of_singleton; done).
      destruct (decide (k ∈ team)) as [Hin|Hnin].
      * rewrite (decide_True (P := k ∈ pid :: team)) by (by right).
        simpl. by rewrite (decide_True (P := k ∈ team)).
      * rewrite (decide_False (P := k ∈ pid :: team))
          by (intros [?|?]%elem_of_cons; done).
        simpl. by rewrite (decide_False (P := k ∈ team)).
Qed.

Lemma onTeam_keys team f m : (onTeam team f <$> m).*1 = m.*1.
Proof.
  rewrite <- list_fmap_compose. apply list_fmap_ext.
  intros i [k s] _. unfold onTeam; simpl. by case_decide.
Qed.

(** A well-formed match credits side A's entries with [creditA] and side
    B's with [creditB], and nothing else. *)
Lemma aggregateMatch_spec m mt :
  NoDup m.*1 -> wellFormedMatch mt ->
  aggregateMatch m mt =
    onTeam (Match.teamBPlayers mt) (creditB mt) <$>
      (onTeam (Match.teamAPlayers mt) (creditA mt) <$> m).
Proof.
  intros Hm [HA [_ HB]]%NoDup_app. unfold aggregateMatch.
  rewrite (team_loop_spec _ (Match.teamAPlayers mt)) by done.
  rewrite team_loop_spec; [done| |done]. by rewrite onTeam_keys.
Qed.
End one_match.

Lemma creditA_keyed mt k s : keyed (k, s) -> keyed (k, creditA mt s).
Proof. unfold keyed, creditA; simpl. by repeat case_bool_decide. Qed.

Lemma creditB_keyed mt k s : keyed (k, s) -> keyed (k, creditB mt s).
Proof. unfold keyed, creditB; simpl. by repeat case_bool_decide. Qed.

Lemma toRow_creditA mt s :
  creditedAs (toRow s) (toRow (creditA mt s)) (Match.goalsA mt) (Match.goalsB mt).
Proof.
  unfold creditedAs, gains, creditA; simpl.
  repeat case_bool_decide; simpl; repeat split; intros; lia || done.
Qed.

Lemma toRow_creditB mt s :
  creditedAs (toRow s) (toRow (creditB mt s)) (Match.goalsB mt) (Match.goalsA mt).
Proof.
  unfold creditedAs, gains, creditB; simpl.
  repeat case_bool_decide; simpl; repeat split; intros; lia || done.
Qed.

(** C5. Aggregating one more match [m] changes the standings row by row:
    a roster player on team A is credited from side A's perspective (one
    win if goalsA > goalsB, one loss if goalsB > goalsA, one draw if they
    are equal, goalsA for and goalsB against), a roster player on team B
    symmetrically, and every other row is unchanged. *)
Theorem C5_single_match_outcome
    (players : list Player.t) (ms : list Match.t) (m : Match.t)
    (Hwf : wellFormedMatch m) (i : nat) (r : Row.t) :
  computeStandings players ms !! i = Some r ->
  exists r', computeStandings players (ms ++ [m]) !! i = Some r' /\
    (Row.id r ∈ Match.teamAPlayers m ->
       creditedAs r r' (Match.goalsA m) (Match.goalsB m)) /\
    (Row.id r ∈ Match.teamBPlayers m ->
       creditedAs r r' (Match.goalsB m) (Match.goalsA m)) /\
    (Row.id r ∉ Match.teamAPlayers m -> Row.id r ∉ Match.teamBPlayers m ->
       r' = r).
Proof.
  unfold computeStandings. rewrite foldl_snoc.
  set (M := foldl aggregateMatch (initMap players) ms).
  assert (HndM : NoDup M.*1).
  { unfold M. rewrite match_loop_keys. by apply (initMap_inv (fun _ => True)). }
  assert (HkM : Forall keyed M).
  { apply match_loop_Forall; [apply creditA_keyed|apply creditB_keyed|].
    by apply (initMap_inv keyed). }
  rewrite aggregateMatch_spec by done.
  rewrite !list_lookup_fmap.
  destruct (M !! i) as [[k s]|] eqn:HMi; simpl; [|done].
  intros [= <-].
  assert (Hk : Stat.id s = k).
  { eapply Forall_lookup_1 in HkM; [|exact HMi]. exact HkM. }
  eexists; split; [reflexivity|].
  pose proof Hwf as [HA [Hdisj HB]]%NoDup_app.
  unfold onTeam; simpl. rewrite Hk.
  destruct (decide (k ∈ Match.teamAPlayers m)) as [HinA|HninA]; simpl.
  - rewrite decide_False by (by apply Hdisj). split_and!.
    + intros _. apply toRow_creditA.
    + intros HinB. by apply Hdisj in HinA.
    + done.
  - destruct (decide (k ∈ Match.teamBPlayers m)) as [HinB|HninB]; simpl.
    + split_and!; [done| |done]. intros _. apply toRow_creditB.
    + split_and!; done.
Qed.

Lemma C5_single_match_outcome_witness :
  exists r',
    computeStandings samplePlayers ([] ++ [sampleMatch "m0" "p1" "p2" 3 1]) !! 0%nat
      = Some r' /\
    Row.wins r' = 1 /\ Row.goalsFor r' = 3 /\ Row.goalsAgainst r' = 1.
Proof.
  destruct (C5_single_match_outcome samplePlayers [] (sampleMatch "m0" "p1" "p2" 3 1)
              ltac:(compute_done) 0%nat
              (toRow (freshStat (Player.mk "p1" "Al"))) eq_refl)
    as (r' & Hr' & HA & _ & _).
  exists r'. split; [exact Hr'|].
  destruct (HA ltac:(left)) as [Hwin _].
  destruct (Hwin ltac:(simpl; lia)) as (_ & _ & _ & Hw & _ & _ & Hgf & Hga).
  simpl in *. lia.
Defined.

(** *** Display order *)

Section sort_facts.
Context {A : Type} (comparefn : A -> A -> Z).
Let R (a b : A) : Prop := comparefn a b <= 0.

Hypothesis comparefn_total : forall a b, comparefn a b > 0 -> comparefn b a <= 0.
Hypothesis comparefn_trans :
  forall a b c, comparefn a b <= 0 -> comparefn b c <= 0 -> comparefn a c <= 0.

Lemma insertSorted_Forall (P : A -> Prop) x l :
  P x -> Forall P l -> Forall P (insertSorted comparefn x l).
Proof.
  intros Hx. induction 1 as [|y l Hy Hl IH]; simpl.
  - by constructor.
  - case_decide; repeat constructor; done.
Qed.

Lemma insertSorted_sorted x l :
  StronglySorted R l -> StronglySorted R (insertSorted comparefn x l).
Proof.
  induction 1 as [|y l Hl IH Hy]; simpl.
  - repeat constructor.
  - case_decide as Hc.
    + constructor; [exact IH|].
      apply insertSorted_Forall; [by apply comparefn_total|done].
    + assert (Hxy : R x y) by (unfold R; lia).
      constructor; [by constructor|]. constructor; [done|].
      eapply Forall_impl; [exact Hy|]. intros z Hz.
      by apply (comparefn_trans x y z).
Qed.

Lemma arraySort_sorted l : StronglySorted R (arraySort comparefn l).
Proof.
  induction l as [|x l IH]; simpl; [constructor|].
  by apply insertSorted_sorted.
Qed.

Lemma insertSorted_Permutation x l : insertSorted comparefn x l ≡ₚ x :: l.
Proof.
  induction l as [|y l IH]; simpl; [done|].
  case_decide; [|done]. rewrite IH. apply Permutation_swap.
Qed.

Lemma arraySort_Permutation l : arraySort comparefn l ≡ₚ l.
Proof.
  induction l as [|x l IH]; simpl; [done|].
  by rewrite insertSorted_Permutation, IH.
Qed.

Lemma arraySort_lookup_le l i j a b :
  (i < j)%nat -> arraySort comparefn l !! i = Some a ->
  arraySort comparefn l !! j = Some b -> comparefn a b <= 0.
Proof.
  pose proof (arraySort_sorted l) as Hs. revert i j.
  induction Hs as [|y s Hs IH Hy]; intros i j Hij Hi Hj; [done|].
  destruct j as [|j]; [lia|]. destruct i as [|i]; simpl in *.
  - injection Hi as ->. eapply Forall_lookup_1 in Hy; [exact Hy|exact Hj].
  - apply (IH i j); [lia|done..].
Qed.
Lemma insertSorted_head x l :
  Forall (fun z => comparefn x z <= 0) l -> insertSorted comparefn x l = x :: l.
Proof.
  destruct 1 as [|z l Hz _]; simpl; [done|]. rewrite decide_False; [done|lia].
Qed.

(** A stable sort commutes with dropping elements. *)
Lemma insertSorted_filter (keep : A -> bool) x l :
  StronglySorted R l ->
  List.filter keep (insertSorted comparefn x l) =
    if keep x then insertSorted comparefn x (List.filter keep l)
    else List.filter keep l.
Proof.
  induction 1 as [|y l Hl IH Hy].
  - simpl. by destruct (keep x).
  - cbn [insertSorted]. destruct (decide (comparefn x y > 0)) as [Hgt|Hle].
    + cbn [List.filter]. rewrite IH.
      destruct (keep y) eqn:Hky, (keep x) eqn:Hkx; try done.
      cbn [insertSorted]. by rewrite decide_True.
    + assert (Hall : Forall (fun z => comparefn x z <= 0) (y :: l)).
      { constructor; [lia|]. eapply Forall_impl; [exact Hy|].
        intros z Hz. apply (comparefn_trans x y z); [lia|exact Hz]. }
      change (List.filter keep (x :: y :: l))
        with (if keep x then x :: List.filter keep (y :: l)
              else List.filter keep (y :: l)).
      destruct (keep x); [|done].
      symmetry. apply insertSorted_head.
      apply Forall_forall. intros z Hz%list_elem_of_In%filter_In.
      destruct Hz as [Hz _]. apply list_elem_of_In in Hz.
      by eapply Forall_forall in Hall.
Qed.

Lemma arraySort_filter (keep : A -> bool) l :
  List.filter keep (arraySort comparefn l) = arraySort comparefn (List.filter keep l).
Proof.
  induction l as [|x l IH]; simpl; [done|].
  rewrite insertSorted_filter by apply arraySort_sorted.
  destruct (keep x); simpl; by rewrite IH.
Qed.
End sort_facts.

Section tie_break.
Variable localeCompare : string -> string -> Z.

(** What a collation guarantees: a consistent comparator. *)
Hypothesis localeCompare_total :
  forall a b, localeCompare a b > 0 -> localeCompare b a <= 0.
Hypothesis localeCompare_trans :
  forall a b c,
    localeCompare a b <= 0 -> localeCompare b c <= 0 -> localeCompare a c <= 0.



End tie_break.

Lemma codeUnitCompare_total a b :
  codeUnitCompare a b > 0 -> codeUnitCompare b a <= 0.
Proof.
  unfold codeUnitCompare. rewrite (String.compare_antisym b a).
  destruct (String.compare a b); simpl; lia.
Qed.

Lemma codeUnitCompare_trans a b c :
  codeUnitCompare a b <= 0 -> codeUnitCompare b c <= 0 -> codeUnitCompare a c <= 0.
Proof.
  unfold codeUnitCompare.
  destruct (String.compare a b) eqn:Hab; [| |lia]; intros _.
  - apply String_as_OT.cmp_eq in Hab as ->. done.
  - destruct (String.compare b c) eqn:Hbc; [| |lia]; intros _.
    + apply String_as_OT.cmp_eq in Hbc as <-. by rewrite Hab.
    + apply String_as_OT.cmp_lt in Hab, Hbc.
      pose proof (String_as_OT.lt_trans _ _ _ Hab Hbc) as Hac.
      apply String_as_OT.cmp_lt in Hac. unfold String_as_OT.cmp in Hac.
      by rewrite Hac.
Qed.



(** *** King streaks *)

Section streak_facts.
Implicit Types (st : Streaks) (p : Player.t) (pid : string).

Lemma initPlayer_present st p pid :
  present st pid \/ pid = Player.id p -> present (initPlayer st p) pid.
Proof.
  unfold present, initPlayer; simpl. rewrite !lookup_insert_is_Some.
  destruct (decide (Player.id p = pid)) as [Heq|Hne]; [by auto|].
  intros [[? ?]|Heq]; [by auto|congruence].
Qed.

Lemma init_loop_present (players : list Player.t) st pid :
  present st pid \/ pid ∈ Player.id <$> players ->
  present (foldl initPlayer st players) pid.
Proof.
  revert st. induction players as [|p ps IH]; intros st; csimpl.
  - intros [?|Hin]; [done|by apply elem_of_nil in Hin].
  - intros [?|[->|?]%elem_of_cons]; apply IH.
    + left. apply initPlayer_present. by left.
    + left. apply initPlayer_present. by right.
    + by right.
Qed.

Lemma flushPlayer_present st p pid :
  present st pid -> present (flushPlayer st p) pid.
Proof.
  unfold present, flushPlayer. case_decide; simpl; [|done].
  rewrite lookup_insert_is_Some.
  intros [? ?]; split; [done|]. destruct (decide (Player.id p = pid)); auto.
Qed.

Lemma stepPlayer_present session st p pid :
  present st pid -> present (stepPlayer session st p) pid.
Proof.
  intros Hp. unfold stepPlayer. case_decide.
  - destruct Hp as [? ?]. unfold present; simpl.
    rewrite lookup_insert_is_Some. split; [|done].
    destruct (decide (Player.id p = pid)); auto.
  - apply (flushPlayer_present _ p) in Hp as [? ?]. unfold present; simpl.
    rewrite lookup_insert_is_Some. split; [|done].
    destruct (decide (Player.id p = pid)); auto.
Qed.

Lemma foldl_present {B} (f : Streaks -> B -> Streaks) (l : list B) st pid :
  (forall st' x, present st' pid -> present (f st' x) pid) ->
  present st pid -> present (foldl f st l) pid.
Proof.
  intros Hf. revert st. induction l as [|x l IH]; intros st Hp; simpl; auto.
Qed.

Lemma stepSession_present players session st pid :
  present st pid -> present (stepSession players st session) pid.
Proof.
  unfold stepSession. case_decide; [done|].
  apply foldl_present. intros. by apply stepPlayer_present.
Qed.

(** The flush of a player settles that player and unsettles nobody. *)
Lemma flushPlayer_flushed st p pid :
  flushed st pid \/ pid = Player.id p -> flushed (flushPlayer st p) pid.
Proof.
  unfold flushed, flushPlayer. case_decide as Hgt; simpl.
  - destruct (decide (Player.id p = pid)) as [->|Hne].
    + intros _. rewrite lookup_total_insert_eq. lia.
    + rewrite lookup_total_insert_ne by done. intros [?| ->]; done.
  - intros [?| ->]; [done|lia].
Qed.

Lemma flush_loop_flushed (players : list Player.t) st pid :
  flushed st pid \/ pid ∈ Player.id <$> players ->
  flushed (foldl flushPlayer st players) pid.
Proof.
  revert st. induction players as [|p ps IH]; intros st; csimpl.
  - intros [?|Hin]; [done|by apply elem_of_nil in Hin].
  - intros [?|[->|?]%elem_of_cons]; apply IH.
    + left. apply flushPlayer_flushed. by left.
    + left. apply flushPlayer_flushed. by right.
    + by right.
Qed.

Lemma present_flushed_ordered st pid :
  present st pid -> flushed st pid -> streakOrdered st pid.
Proof.
  intros [[c Hc] [l Hl]] Hf. exists c, l. split_and!; [done..|].
  unfold flushed in Hf.
  by rewrite (lookup_total_correct _ _ _ Hc), (lookup_total_correct _ _ _ Hl) in Hf.
Qed.
End streak_facts.

(** C6. For every snapshot (any player list, any king-session history) and
    every player of the roster, the longest streak that [useKingInfo]
    computes is at least the player's current streak; in particular every
    entry of [currentKings] has a longest streak at least its [streak]. *)
Theorem C6_longest_at_least_current (getTime : string -> Z) (db : DB.t) :
  Forall (fun p => streakOrdered (kingStreaks getTime db) (Player.id p))
         (DB.players db) /\
  Forall (fun k => exists l : Z,
            KingInfo.longestStreaks (useKingInfo getTime db) !! CurrentKing.id k
              = Some l /\ CurrentKing.streak k <= l)
         (KingInfo.currentKings (useKingInfo getTime db)).
Proof.
  assert (Hall : forall p, p ∈ DB.players db ->
            streakOrdered (kingStreaks getTime db) (Player.id p)).
  { intros p Hp.
    assert (Hid : Player.id p ∈ Player.id <$> DB.players db)
      by (by apply list_elem_of_fmap_2).
    apply present_flushed_ordered; unfold kingStreaks.
    - apply foldl_present; [intros; by apply flushPlayer_present|].
      apply foldl_present; [intros; by apply stepSession_present|].
      apply init_loop_present. by right.
    - apply flush_loop_flushed. by right. }
  split.
  - apply Forall_forall. exact Hall.
  - unfold useKingInfo; simpl. apply Forall_fmap, Forall_forall.
    intros p Hp%list_elem_of_In%filter_In. destruct Hp as [Hp _].
    apply list_elem_of_In, Hall in Hp as (c & l & Hc & Hl & Hle). simpl.
    exists l. split; [done|]. by rewrite (lookup_total_correct _ _ _ Hc).
Qed.

Lemma byDate_total getTime a b : byDate getTime a b > 0 -> byDate getTime b a <= 0.
Proof. unfold byDate. lia. Qed.

Lemma byDate_trans getTime a b c :
  byDate getTime a b <= 0 -> byDate getTime b c <= 0 -> byDate getTime a c <= 0.
Proof. unfold byDate. lia. Qed.

(** The walk sees only the sessions that have kings. *)
Lemma walk_crowned players st (sessions : list KingSession.t) :
  foldl (stepSession players) st sessions =
    foldl (stepSession players) st (List.filter crowned sessions).
Proof.
  revert st. induction sessions as [|s l IH]; intros st; simpl; [done|].
  unfold crowned at 1. destruct (KingSession.kings s) as [|k ks] eqn:Hk; simpl.
  - rewrite <- IH. unfold stepSession. by rewrite Hk.
  - by rewrite IH.
Qed.

(** C7. A king session whose [kings] list is empty is skipped: processing
    it changes no current and no longest streak, wherever it stands in the
    walk, and a snapshot with such a session among its king sessions has
    the king information of the snapshot without it. *)
Theorem C7_empty_kings_session_is_skipped
    (getTime : string -> Z) (db : DB.t) (st : Streaks) (session : KingSession.t)
    (before after : list KingSession.t) :
  KingSession.kings session = [] ->
  DB.kingSessions db = before ++ session :: after ->
  stepSession (DB.players db) st session = st /\
  foldl (stepSession (DB.players db)) st (before ++ session :: after) =
    foldl (stepSession (DB.players db)) st (before ++ after) /\
  useKingInfo getTime db =
    useKingInfo getTime
      (DB.mk (DB.theme db) (DB.players db) (DB.matches db) (before ++ after)
             (DB.violations db)).
Proof.
  intros Hk Hdb.
  assert (Hskip : forall st', stepSession (DB.players db) st' session = st').
  { intros st'. unfold stepSession. by rewrite Hk. }
  split_and!; [apply Hskip|rewrite !foldl_app; simpl; by rewrite Hskip|].
  assert (Hstreaks : kingStreaks getTime db =
    kingStreaks getTime
      (DB.mk (DB.theme db) (DB.players db) (DB.matches db) (before ++ after)
             (DB.violations db))).
  { unfold kingStreaks, sortedSessions; simpl. f_equal.
    rewrite walk_crowned.
    rewrite (walk_crowned _ _ (arraySort (byDate getTime) (before ++ after))).
    rewrite !(arraySort_filter _ (byDate_total getTime) (byDate_trans getTime)).
    rewrite Hdb, !List.filter_app. simpl. unfold crowned at 2. by rewrite Hk. }
  unfold useKingInfo. by rewrite Hstreaks.
Qed.

Lemma C7_empty_kings_session_is_skipped_witness :
  useKingInfo sampleTime sampleHistory =
    useKingInfo sampleTime
      (DB.mk FALCO samplePlayers [] (removeAt 2 (DB.kingSessions sampleHistory)) []).
Proof.
  destruct (C7_empty_kings_session_is_skipped sampleTime sampleHistory
              (mkStreaks ∅ ∅) (sampleKings "k3" [])
              [sampleKings "k1" ["p1"]; sampleKings "k2" ["p1"]]
              [sampleKings "k4" ["p2"]] eq_refl eq_refl) as (_ & _ & Hinfo).
  exact Hinfo.
Defined.

(** *** Best-of-N sessions *)

Lemma winsNeeded_half (session : ActiveSession.t) :
  winsNeeded session = (ActiveSession.bestOf session + 1) `div` 2.
Proof.
  unfold winsNeeded, Qceiling, Qfloor. simpl.
  rewrite Z.mul_1_r. Z.div_mod_to_equations. lia.
Qed.

Lemma teamAWins_cons slot schedule :
  teamAWins (slot :: schedule) =
    teamAWins schedule +
    slotCredit (ActiveSessionMatch.goalsA slot) (ActiveSessionMatch.goalsB slot).
Proof.
  unfold teamAWins, slotCredit; simpl. unfold wonByA at 1.
  destruct (ActiveSessionMatch.goalsA slot) as [a|],
           (ActiveSessionMatch.goalsB slot) as [b|]; try lia.
  case_bool_decide; case_decide; simpl; lia.
Qed.

Lemma teamBWins_cons slot schedule :
  teamBWins (slot :: schedule) =
    teamBWins schedule +
    slotCredit (ActiveSessionMatch.goalsB slot) (ActiveSessionMatch.goalsA slot).
Proof.
  unfold teamBWins, slotCredit; simpl. unfold wonByB at 1.
  destruct (ActiveSessionMatch.goalsA slot) as [a|],
           (ActiveSessionMatch.goalsB slot) as [b|]; try lia.
  case_bool_decide; case_decide; simpl; lia.
Qed.

Lemma slotCredit_tie (g : option Z) : slotCredit g g = 0.
Proof. destruct g; simpl; [case_decide; lia|done]. Qed.

(** Each slot credits at most one team. *)
Lemma tallies_bounded schedule :
  0 <= teamAWins schedule /\ 0 <= teamBWins schedule /\
  teamAWins schedule + teamBWins schedule <= Z.of_nat (length schedule).
Proof.
  induction schedule as [|slot schedule IH].
  - unfold teamAWins, teamBWins; simpl; lia.
  - rewrite teamAWins_cons, teamBWins_cons. simpl length.
    unfold slotCredit.
    destruct (ActiveSessionMatch.goalsA slot) as [a|],
             (ActiveSessionMatch.goalsB slot) as [b|];
      repeat case_decide; lia.
Qed.

Lemma updateScore_length matchId team score schedule :
  length (updateScore matchId team score schedule) = length schedule.
Proof. unfold updateScore. apply length_fmap. Qed.

(** C2. The threshold is [ceil(bestOf / 2)] (the least integer whose
    double is at least [bestOf]); a slot adds to a team's tally exactly
    when both scores are filled and the team's goals are strictly greater,
    a tied slot adding to neither; and a score entry after which either
    tally has reached the threshold finalizes the session in the same
    step, whatever the answer to a confirmation would be and however many
    slots are filled. *)
Theorem C2_threshold_and_auto_finish
    (host : Host) (app : App) (session : ActiveSession.t)
    (schedule : list ActiveSessionMatch.t)
    (matchId : string) (team : Side) (score : option Z) :
  activeSession app = Some (session, schedule) ->
  teamAWins (updateScore matchId team score schedule) >= winsNeeded session \/
  teamBWins (updateScore matchId team score schedule) >= winsNeeded session ->
  (ActiveSession.bestOf session <= 2 * winsNeeded session
     < ActiveSession.bestOf session + 2) /\
  (forall slot rest,
     teamAWins (slot :: rest) = teamAWins rest +
       slotCredit (ActiveSessionMatch.goalsA slot) (ActiveSessionMatch.goalsB slot) /\
     teamBWins (slot :: rest) = teamBWins rest +
       slotCredit (ActiveSessionMatch.goalsB slot) (ActiveSessionMatch.goalsA slot) /\
     (ActiveSessionMatch.goalsA slot = ActiveSessionMatch.goalsB slot ->
        teamAWins (slot :: rest) = teamAWins rest /\
        teamBWins (slot :: rest) = teamBWins rest)) /\
  (let app' := act host app (EnterScore matchId team score) in
   activeSession app' = None /\
   db app' = appendSession host session (updateScore matchId team score schedule)
               (uidCount app) (db app)).
Proof.
  intros Hactive Hreached. split_and!.
  - rewrite winsNeeded_half. Z.div_mod_to_equations. lia.
  - rewrite winsNeeded_half. Z.div_mod_to_equations. lia.
  - intros slot rest. rewrite teamAWins_cons, teamBWins_cons.
    split_and!; [done..|]. intros ->. rewrite slotCredit_tie. lia.
  - unfold act. rewrite Hactive. unfold autoFinish; simpl.
    assert (Hd : decided session (updateScore matchId team score schedule) = true).
    { unfold decided. apply orb_true_iff.
      destruct Hreached; [left|right]; by apply bool_decide_eq_true_2. }
    rewrite Hd. unfold finishSession. by simpl.
Qed.

Lemma C2_threshold_and_auto_finish_witness :
  winsNeeded sampleSession = 2 /\
  activeSession (act sampleHost sampleApp (EnterScore "s2" SideB (Some 0))) = None.
Proof.
  split; [reflexivity|].
  apply (C2_threshold_and_auto_finish sampleHost sampleApp sampleSession
           sampleSchedule "s2" SideB (Some 0) eq_refl).
  left. vm_compute. discriminate.
Defined.

(** While neither tally has reached the threshold a score entry only
    updates the schedule. *)
Lemma act_EnterScore_undecided host app session schedule matchId team score :
  activeSession app = Some (session, schedule) ->
  teamAWins (updateScore matchId team score schedule) < winsNeeded session ->
  teamBWins (updateScore matchId team score schedule) < winsNeeded session ->
  act host app (EnterScore matchId team score) =
    mkApp (db app) (Some (session, updateScore matchId team score schedule))
          (uidCount app).
Proof.
  intros Hactive HA HB. unfold act. rewrite Hactive. unfold autoFinish; simpl.
  unfold decided. rewrite !bool_decide_eq_false_2 by lia. done.
Qed.

Lemma Forall2_imap {A B} (P : A -> B -> Prop) (f : nat -> A -> B) (l : list A) :
  (forall i x, l !! i = Some x -> P x (f i x)) -> Forall2 P l (imap f l).
Proof.
  revert f. induction l as [|x l IH]; intros f Hf; csimpl; constructor.
  - by apply (Hf 0%nat).
  - apply IH. intros i y Hy. by apply (Hf (S i)).
Qed.

Lemma Forall_imap {A B} (P : B -> Prop) (f : nat -> A -> B) (l : list A) :
  (forall i x, l !! i = Some x -> P (f i x)) -> Forall P (imap f l).
Proof.
  revert f. induction l as [|x l IH]; intros f Hf; csimpl; constructor.
  - by apply (Hf 0%nat).
  - apply IH. intros i y Hy. by apply (Hf (S i)).
Qed.

Lemma filled_scores (slot : ActiveSessionMatch.t) :
  filled slot = true ->
  exists a b, ActiveSessionMatch.goalsA slot = Some a /\
              ActiveSessionMatch.goalsB slot = Some b.
Proof.
  unfold filled.
  destruct (ActiveSessionMatch.goalsA slot) as [a|],
           (ActiveSessionMatch.goalsB slot) as [b|]; try done. by exists a, b.
Qed.

Lemma proceeds_test host session schedule isConfirmed :
  proceeds host session schedule isConfirmed ->
  negb isConfirmed && negb (decided session schedule) && negb (confirmAnswer host)
    = false.
Proof.
  unfold proceeds.
  destruct isConfirmed, (decided session schedule), (confirmAnswer host);
    try done. by intros [?|[?|?]].
Qed.

(** The filter of [finishSession] keeps the slots with both scores
    entered. *)
Lemma filter_filled_scored (schedule : list ActiveSessionMatch.t) :
  List.filter filled schedule = scoredSlots schedule.
Proof.
  unfold scoredSlots. induction schedule as [|slot l IH]; [done|].
  rewrite filter_cons. simpl. rewrite IH.
  assert (Hiff : filled slot = true <-> scored slot).
  { unfold filled, scored.
    destruct (ActiveSessionMatch.goalsA slot), (ActiveSessionMatch.goalsB slot);
      simpl; split; try done; intros [? ?]; done. }
  destruct (decide (scored slot)) as [H|H].
  - by rewrite (proj2 Hiff H).
  - destruct (filled slot); [|done]. exfalso. by apply H, Hiff.
Qed.

(** What [finishSession] leaves behind when it goes through. *)
Lemma finishSession_appends host session schedule isConfirmed app :
  proceeds host session schedule isConfirmed ->
  DB.kingSessions (db (finishSession host session schedule isConfirmed app)) =
    DB.kingSessions (db app) ++ [newKingSession host session schedule (uidCount app)] /\
  DB.matches (db (finishSession host session schedule isConfirmed app)) =
    DB.matches (db app) ++ newMatches host session schedule (uidCount app).
Proof.
  intros Hgo. unfold finishSession. by rewrite proceeds_test.
Qed.

(** C3. A finalization that goes through replaces the snapshot once: the
    match list grows by one match per slot of the schedule whose two
    scores are both entered (in schedule order, with the slot's scores
    and teams): every such slot is saved and every new match saves such
    a slot, so a slot with a score missing is dropped; the king-session
    list grows by exactly one record, nothing else in the snapshot
    changes; every new match carries the new king session's id, drawn
    from [uid()] at finalization, as [sessionId], and its timestamp, the
    instant of finalization.  A finalization that is declined changes
    nothing. *)
Theorem C3_finalization_records
    (host : Host) (session : ActiveSession.t)
    (schedule : list ActiveSessionMatch.t) (isConfirmed : bool) (app : App) :
  let app' := finishSession host session schedule isConfirmed app in
  (proceeds host session schedule isConfirmed ->
   exists (created : list Match.t) (ks : KingSession.t),
     DB.matches (db app') = DB.matches (db app) ++ created /\
     DB.kingSessions (db app') = DB.kingSessions (db app) ++ [ks] /\
     DB.players (db app') = DB.players (db app) /\
     DB.violations (db app') = DB.violations (db app) /\
     DB.theme (db app') = DB.theme (db app) /\
     activeSession app' = None /\
     length created = length (scoredSlots schedule) /\
     Forall2 slotSaved (scoredSlots schedule) created /\
     (forall slot, slot ∈ schedule -> scored slot ->
        exists m, m ∈ created /\ slotSaved slot m) /\
     (forall m, m ∈ created ->
        exists slot, slot ∈ schedule /\ scored slot /\ slotSaved slot m) /\
     KingSession.id ks = uidAt host (uidCount app) /\
     KingSession.dateISO ks = nowISO host /\
     Forall (fun m => Match.sessionId m = Some (KingSession.id ks) /\
                      Match.dateISO m = KingSession.dateISO ks) created) /\
  (~ proceeds host session schedule isConfirmed -> app' = app).
Proof.
  simpl. unfold proceeds, finishSession. split.
  - intros Hgo.
    assert (Hcond : negb isConfirmed && negb (decided session schedule)
                      && negb (confirmAnswer host) = false).
    { destruct isConfirmed, (decided session schedule), (confirmAnswer host);
        try done. by destruct Hgo as [?|[?|?]]. }
    rewrite Hcond. simpl.
    exists (newMatches host session schedule (uidCount app)),
           (newKingSession host session schedule (uidCount app)).
    assert (Hsaved : Forall2 slotSaved (scoredSlots schedule)
                       (newMatches host session schedule (uidCount app))).
    { rewrite <- filter_filled_scored. apply Forall2_imap. intros i slot Hslot.
      apply list_elem_of_lookup_2, list_elem_of_In, filter_In in Hslot as [_ Hf].
      apply filled_scores in Hf as (a & b & Ha & Hb).
      unfold slotSaved, toMatch; simpl. by rewrite Ha, Hb. }
    split_and!; try done.
    + symmetry. by eapply Forall2_length.
    + intros slot Hin Hscored.
      assert (Hslot : slot ∈ scoredSlots schedule)
        by (by apply list_elem_of_filter).
      apply list_elem_of_lookup in Hslot as [i Hi].
      destruct (Forall2_lookup_l _ _ _ _ _ Hsaved Hi) as (m & Hm & Hsm).
      exists m. split; [by eapply list_elem_of_lookup_2|done].
    + intros m Hin. apply list_elem_of_lookup in Hin as [i Hi].
      destruct (Forall2_lookup_r _ _ _ _ _ Hsaved Hi) as (slot & Hslot & Hsm).
      apply list_elem_of_lookup_2, list_elem_of_filter in Hslot as [Hscored Hin].
      by exists slot.
    + by apply Forall_imap.
  - intros Hstop.
    destruct isConfirmed, (decided session schedule), (confirmAnswer host);
      simpl; try done; exfalso; apply Hstop; auto.
Qed.

(** C4. With the two teams of a session in place, the winner of a
    finalization is team A when its tally has reached the threshold,
    otherwise team B when its tally has, otherwise nobody; the king
    session appended to the snapshot lists the winner's players as
    [kings], or nobody. *)
Theorem C4_winner_and_kings
    (host : Host) (session : ActiveSession.t)
    (schedule : list ActiveSessionMatch.t) (isConfirmed : bool) (app : App)
    (teamA teamB : SessionTeam.t) :
  ActiveSession.teams session = [teamA; teamB] ->
  proceeds host session schedule isConfirmed ->
  winnerTeam session schedule =
    (if decide (teamAWins schedule >= winsNeeded session) then Some teamA
     else if decide (teamBWins schedule >= winsNeeded session) then Some teamB
     else None) /\
  exists ks : KingSession.t,
    last (DB.kingSessions (db (finishSession host session schedule isConfirmed app)))
      = Some ks /\
    KingSession.kings ks =
      (if decide (teamAWins schedule >= winsNeeded session)
       then SessionTeam.players teamA
       else if decide (teamBWins schedule >= winsNeeded session)
            then SessionTeam.players teamB
            else []).
Proof.
  intros Hteams Hgo.
  assert (Hw : winnerTeam session schedule =
    (if decide (teamAWins schedule >= winsNeeded session) then Some teamA
     else if decide (teamBWins schedule >= winsNeeded session) then Some teamB
     else None)).
  { unfold winnerTeam. rewrite Hteams.
    repeat case_bool_decide; repeat case_decide; done. }
  split; [exact Hw|].
  destruct (finishSession_appends host session schedule isConfirmed app Hgo)
    as [Hks _].
  exists (newKingSession host session schedule (uidCount app)).
  split; [by rewrite Hks, last_snoc|].
  simpl. unfold kings. rewrite Hw. by repeat case_decide.
Qed.

Lemma C4_winner_and_kings_witness :
  exists ks : KingSession.t,
    last (DB.kingSessions
            (db (finishSession sampleHost sampleSession
                   (updateScore "s2" SideB (Some 0) sampleSchedule) true sampleApp)))
      = Some ks /\
    KingSession.kings ks = ["p1"].
Proof.
  destruct (C4_winner_and_kings sampleHost sampleSession
              (updateScore "s2" SideB (Some 0) sampleSchedule) true sampleApp
              teamAl teamBob eq_refl (or_introl eq_refl)) as [_ Hks].
  exact Hks.
Defined.

(** C10. In a session with an odd [bestOf] and exactly [bestOf] slots the
    two tallies cannot both reach the threshold, so the winner does not
    depend on which team's tally is tested first. *)
Theorem C10_single_winner
    (session : ActiveSession.t) (schedule : list ActiveSessionMatch.t) :
  Z.odd (ActiveSession.bestOf session) = true ->
  Z.of_nat (length schedule) = ActiveSession.bestOf session ->
  teamAWins schedule + teamBWins schedule <= ActiveSession.bestOf session /\
  ActiveSession.bestOf session < 2 * winsNeeded session /\
  ~ (teamAWins schedule >= winsNeeded session /\
     teamBWins schedule >= winsNeeded session) /\
  winnerTeamBFirst session schedule = winnerTeam session schedule.
Proof.
  intros Hodd Hlen.
  pose proof (tallies_bounded schedule) as (HA & HB & Hsum).
  assert (Hlt : ActiveSession.bestOf session < 2 * winsNeeded session).
  { rewrite winsNeeded_half. rewrite Z.odd_spec in Hodd. destruct Hodd as [k Hk].
    rewrite Hk. Z.div_mod_to_equations. lia. }
  assert (Hexcl : ~ (teamAWins schedule >= winsNeeded session /\
                     teamBWins schedule >= winsNeeded session)) by lia.
  split_and!; [lia|done|done|].
  unfold winnerTeamBFirst, winnerTeam.
  repeat case_bool_decide; try done. exfalso. by apply Hexcl.
Qed.

Lemma C10_single_winner_witness :
  ~ (teamAWins sampleSchedule >= winsNeeded sampleSession /\
     teamBWins sampleSchedule >= winsNeeded sampleSession) /\
  winnerTeamBFirst sampleSession sampleSchedule =
    winnerTeam sampleSession sampleSchedule.
Proof.
  destruct (C10_single_winner sampleSession sampleSchedule eq_refl eq_refl)
    as (_ & _ & Hexcl & Hsame).
  exact (conj Hexcl Hsame).
Defined.

(** Sessions as the application makes them meet the hypothesis of C10:
    [handleStart] builds [bestOf] slots and score entries keep their
    number. *)
Lemma handleStart_schedule_length host teamA teamB bestOf mode app :
  0 <= bestOf ->
  exists schedule,
    activeSession (handleStart host [teamA; teamB] bestOf mode app) =
      Some (ActiveSession.mk [teamA; teamB] schedule bestOf mode, schedule) /\
    Z.of_nat (length schedule) = bestOf.
Proof.
  intros Hpos. unfold handleStart; simpl. eexists. split; [reflexivity|].
  rewrite length_fmap, length_seq. lia.
Qed.

(** *** Export and import *)

Section keyed_facts.
Context {V : Type}.
Implicit Types (m : list (string * V)) (k : string) (v : V).

Lemma map_get_set_ne m k k' v :
  k <> k' -> map_get k' (map_set k v m) = map_get k' m.
Proof.
  intros Hne. induction m as [|[k0 v0] m IH]; simpl.
  - by rewrite decide_False.
  - destruct (decide (k0 = k)) as [->|Hk0]; simpl.
    + by rewrite !decide_False.
    + by rewrite IH.
Qed.

Lemma map_get_set_eq m k v : map_get k (map_set k v m) = Some v.
Proof.
  induction m as [|[k0 v0] m IH]; simpl.
  - by rewrite decide_True.
  - destruct (decide (k0 = k)) as [->|Hk0]; simpl.
    + by rewrite decide_True.
    + by rewrite decide_False.
Qed.

End keyed_facts.


(** *** The reference codec reads back what it prints *)

Section json_codec.
Implicit Types (c : ascii) (s rest : list ascii) (v : value) (d : nat).

Lemma value_nested_ind (P : value -> Prop) :
  P VNull -> (forall b, P (VBool b)) -> (forall n, P (VNum n)) -> P VNaN ->
  (forall str, P (VStr str)) ->
  (forall items, Forall P items -> P (VArr items)) ->
  (forall props, Forall (fun kv => P (snd kv)) props -> P (VObj props)) ->
  forall v, P v.
Proof.
  intros Hnull Hbool Hnum Hnan Hstr Harr Hobj.
  fix IH 1.
  intros [ |b|n| |str|items|props];
    [apply Hnull|apply Hbool|apply Hnum|apply Hnan|apply Hstr| |].
  - apply Harr. induction items as [|x items IHitems]; constructor.
    + apply IH.
    + exact IHitems.
  - apply Hobj. induction props as [|[k x] props IHprops]; constructor.
    + apply IH.
    + exact IHprops.
Qed.

Lemma skipSpace_indent d s : skipSpace (indent d ++ s) = skipSpace s.
Proof. induction d as [|d IH]; simpl; done. Qed.

Lemma skipSpace_line d s : skipSpace (newline :: indent d ++ s) = skipSpace s.
Proof. simpl. apply skipSpace_indent. Qed.

Lemma skipSpace_head c s : isSpace c = false -> skipSpace (c :: s) = c :: s.
Proof. intros Hc. simpl. by rewrite Hc. Qed.

(** The parsers look at their input past the leading white space only. *)
Lemma parseValue_skipSpace fuel s s' :
  skipSpace s = skipSpace s' -> parseValue fuel s = parseValue fuel s'.
Proof. intros Heq. destruct fuel; simpl; [done|]. by rewrite Heq. Qed.

Lemma parseMembers_skipSpace fuel s s' :
  skipSpace s = skipSpace s' -> parseMembers fuel s = parseMembers fuel s'.
Proof. intros Heq. destruct fuel; simpl; [done|]. by rewrite Heq. Qed.

Lemma parseItems_skipSpace fuel s s' :
  skipSpace s = skipSpace s' -> parseItems fuel s = parseItems fuel s'.
Proof.
  intros Heq. destruct fuel; simpl; [done|].
  by rewrite (parseValue_skipSpace fuel s s').
Qed.

(** A written character is read as itself, whichever way it was
    written. *)
Lemma parseChars_escapeChar c s :
  parseChars (escapeChar c ++ s) =
    match parseChars s with
    | Some (str, rest) => Some (c :: str, rest)
    | None => None
    end.
Proof. destruct c as [[] [] [] [] [] [] [] []]; reflexivity. Qed.

Lemma parseChars_escapeChars (str : list ascii) rest :
  parseChars (escapeChars str ++ quoteChar :: rest) = Some (str, rest).
Proof.
  induction str as [|c str IH]; [reflexivity|].
  cbn [escapeChars]. by rewrite <- app_assoc, parseChars_escapeChar, IH.
Qed.

Lemma parseString_quoted (str : string) rest :
  exists tl, quoted str ++ rest = quoteChar :: tl /\
             parseString tl = Some (str, rest).
Proof.
  exists (escapeChars (chars str) ++ quoteChar :: rest). split.
  - unfold quoted. simpl. by rewrite <- app_assoc.
  - unfold parseString. rewrite parseChars_escapeChars.
    unfold chars. by rewrite String.string_of_list_ascii_of_string.
Qed.

Lemma digitOf_pretty_N_char (x : N) :
  (x < 10)%N -> digitOf (pretty_N_char x) = Some (Z.of_N x).
Proof.
  intros Hx.
  assert (x = 0 \/ x = 1 \/ x = 2 \/ x = 3 \/ x = 4 \/ x = 5 \/ x = 6 \/
          x = 7 \/ x = 8 \/ x = 9)%N as Hcases by lia.
  repeat (destruct Hcases as [->|Hcases]; [reflexivity|]). by subst.
Qed.

Lemma digit_numberHead c z :
  digitOf c = Some z -> numberHead c /\ Ascii.eqb c "-"%char = false.
Proof.
  intros Hz. destruct c as [[] [] [] [] [] [] [] []];
    vm_compute in Hz; try discriminate Hz; vm_compute; repeat split.
Qed.

Lemma parseDigits_noDigit rest acc : noDigit rest -> parseDigits rest acc = (acc, rest).
Proof. destruct rest as [|c rest]; simpl; [done|]. by intros ->. Qed.

Lemma parseDigits_pretty_N_go (x : N) (str : string) rest :
  parseDigits (chars (pretty_N_go x str) ++ rest) 0 =
    parseDigits (chars str ++ rest) (Z.of_N x).
Proof.
  revert str. induction (N.lt_wf_0 x) as [x _ IH]; intros str.
  destruct (decide (x = 0)%N) as [->|Hx]; [by rewrite pretty_N_go_0|].
  rewrite pretty_N_go_step by lia.
  rewrite IH by (apply N.div_lt; lia).
  unfold chars; simpl. rewrite digitOf_pretty_N_char by (apply N.mod_lt; lia).
  f_equal. change 10 with (Z.of_N 10).
  rewrite <- N2Z.inj_mul, <- N2Z.inj_add. f_equal.
  symmetry. apply N.div_mod. lia.
Qed.

Lemma pretty_N_go_head (x : N) (str : string) :
  (0 < x)%N ->
  exists c tl z, chars (pretty_N_go x str) = c :: tl /\
                digitOf c = Some z /\ z <> 0.
Proof.
  revert str. induction (N.lt_wf_0 x) as [x _ IH]; intros str Hx.
  rewrite pretty_N_go_step by done.
  destruct (decide (x `div` 10 = 0)%N) as [Hq|Hq].
  - rewrite Hq, pretty_N_go_0. eexists _, _, _. split; [reflexivity|].
    rewrite digitOf_pretty_N_char by (apply N.mod_lt; lia).
    split; [reflexivity|].
    pose proof (N.div_mod x 10 ltac:(lia)) as Hdm. lia.
  - apply IH; [apply N.div_lt; lia|by apply N.neq_0_lt_0].
Qed.

Lemma parseNatural_pretty (p : positive) rest :
  noDigit rest ->
  exists c tl, chars (pretty p) ++ rest = c :: tl /\ is_Some (digitOf c) /\
               parseNatural (c :: tl) = Some (Z.pos p, rest).
Proof.
  intros Hrest. unfold pretty, pretty_positive, pretty, pretty_N.
  rewrite decide_False by done.
  destruct (pretty_N_go_head (N.pos p) "" ltac:(lia)) as (c & tl & z & Hc & Hz & Hnz).
  exists c, (tl ++ rest). split_and!.
  - by rewrite Hc.
  - by exists z.
  - unfold parseNatural. rewrite Hz, decide_False by done.
    change (c :: tl ++ rest) with ((c :: tl) ++ rest). rewrite <- Hc.
    rewrite parseDigits_pretty_N_go. simpl. by rewrite parseDigits_noDigit.
Qed.

Lemma parseNumber_pretty (n : Z) rest :
  noDigit rest ->
  exists c tl, chars (pretty n) ++ rest = c :: tl /\ numberHead c /\
               parseNumber (c :: tl) = Some (VNum n, rest).
Proof.
  intros Hrest. destruct n as [|p|p].
  - exists "0"%char, rest. split_and!; [done|by vm_compute|].
    destruct rest as [|c r]; [reflexivity|].
    simpl in Hrest. unfold parseNumber, parseNatural. simpl. by rewrite Hrest.
  - destruct (parseNatural_pretty p rest Hrest) as (c & tl & Hc & [z Hz] & Hp).
    destruct (digit_numberHead c z Hz) as [Hhead Hdash].
    exists c, tl. split_and!; [done..|].
    unfold parseNumber. by rewrite Hdash, Hp.
  - destruct (parseNatural_pretty p rest Hrest) as (c & tl & Hc & _ & Hp).
    exists "-"%char, (c :: tl). split_and!.
    + unfold pretty, pretty_Z. unfold chars in *; simpl. by rewrite <- Hc.
    + by vm_compute.
    + unfold parseNumber. simpl Ascii.eqb. by rewrite Hp.
Qed.

Lemma parseValue_S fuel s :
  parseValue (S fuel) s =
    match skipSpace s with
    | [] => None
    | c :: r =>
        if Ascii.eqb c quoteChar then
          match parseString r with
          | Some (str, r') => Some (VStr str, r')
          | None => None
          end
        else if Ascii.eqb c "["%char then
          match skipSpace r with
          | c' :: r' =>
              if Ascii.eqb c' "]"%char then Some (VArr [], r')
              else
                match parseItems fuel r with
                | Some (items, r'') => Some (VArr items, r'')
                | None => None
                end
          | [] => None
          end
        else if Ascii.eqb c "{"%char then
          match skipSpace r with
          | c' :: r' =>
              if Ascii.eqb c' "}"%char then Some (VObj [], r')
              else
                match parseMembers fuel r with
                | Some (props, r'') => Some (VObj props, r'')
                | None => None
                end
          | [] => None
          end
        else if Ascii.eqb c "n"%char then parseLiteral "null" VNull (c :: r)
        else if Ascii.eqb c "t"%char then parseLiteral "true" (VBool true) (c :: r)
        else if Ascii.eqb c "f"%char then parseLiteral "false" (VBool false) (c :: r)
        else parseNumber (c :: r)
    end.
Proof. reflexivity. Qed.

Lemma parseItems_S fuel s :
  parseItems (S fuel) s =
    match parseValue fuel s with
    | Some (v, r) =>
        match skipSpace r with
        | c :: r' =>
            if Ascii.eqb c ","%char then
              match parseItems fuel r' with
              | Some (vs, r'') => Some (v :: vs, r'')
              | None => None
              end
            else if Ascii.eqb c "]"%char then Some ([v], r')
            else None
        | [] => None
        end
    | None => None
    end.
Proof. reflexivity. Qed.

Lemma parseMembers_S fuel s :
  parseMembers (S fuel) s =
    match skipSpace s with
    | c :: r =>
        if Ascii.eqb c quoteChar then
          match parseString r with
          | Some (k, r1) =>
              match skipSpace r1 with
              | c1 :: r2 =>
                  if Ascii.eqb c1 ":"%char then
                    match parseValue fuel r2 with
                    | Some (v, r3) =>
                        match skipSpace r3 with
                        | c3 :: r4 =>
                            if Ascii.eqb c3 ","%char then
                              match parseMembers fuel r4 with
                              | Some (ps, r5) => Some ((k, v) :: ps, r5)
                              | None => None
                              end
                            else if Ascii.eqb c3 "}"%char then Some ([(k, v)], r4)
                            else None
                        | [] => None
                        end
                    | None => None
                    end
                  else None
              | [] => None
              end
          | None => None
          end
        else None
    | [] => None
    end.
Proof. reflexivity. Qed.

Lemma printLines_cons {A} (print : A -> list ascii) d (x : A) (l : list A) :
  printLines print d (x :: l) =
    newline :: indent d ++ print x ++
    match l with
    | [] => []
    | _ :: _ => ","%char :: printLines print d l
    end.
Proof. reflexivity. Qed.

Lemma skipSpace_closing d (bracket : ascii) rest :
  isSpace bracket = false ->
  skipSpace (newline :: indent d ++ bracket :: rest) = bracket :: rest.
Proof. intros Hb. rewrite skipSpace_line. by apply skipSpace_head. Qed.

(** The elements of a printed array, up to and with the closing
    bracket. *)
Lemma parseItems_printLines (items : list value) :
  Forall readsBack items ->
  forall d d' rest fuel,
    items <> [] -> (needList need items <= fuel)%nat ->
    parseItems fuel
      (printLines (printValue d) d items ++ newline :: indent d' ++ "]"%char :: rest)
    = Some (List.map nullify items, rest).
Proof.
  induction 1 as [|x l Hx Hl IH]; intros d d' rest fuel Hne Hfuel; [done|].
  destruct fuel as [|f]; [simpl in Hfuel; lia|].
  assert (Hfx : (need x <= f)%nat) by (simpl in Hfuel; lia).
  assert (Hfl : (needList need l <= f)%nat) by (simpl in Hfuel; lia).
  rewrite parseItems_S, printLines_cons.
  rewrite <- app_comm_cons, <- !app_assoc.
  rewrite (parseValue_skipSpace f _ _ (skipSpace_line d _)).
  destruct l as [|y l'].
  - rewrite (Hx d _ f Hfx) by done. simpl app.
    rewrite skipSpace_closing by done. done.
  - rewrite (Hx d _ f Hfx) by done.
    rewrite <- app_comm_cons, skipSpace_head by done.
    change (Ascii.eqb ","%char ","%char) with true. cbv iota.
    by rewrite (IH d d' rest f).
Qed.

(** The members of a printed object, up to and with the closing brace. *)
Lemma parseMembers_printLines (props : list (string * value)) :
  Forall (fun kv => readsBack (snd kv)) props ->
  forall d d' rest fuel,
    props <> [] -> (needList (fun kv => need (snd kv)) props <= fuel)%nat ->
    parseMembers fuel
      (printLines (printMember d) d props ++ newline :: indent d' ++ "}"%char :: rest)
    = Some (List.map (fun kv => (fst kv, nullify (snd kv))) props, rest).
Proof.
  induction 1 as [|[k x] l Hx Hl IH]; intros d d' rest fuel Hne Hfuel; [done|].
  destruct fuel as [|f]; [simpl in Hfuel; lia|].
  assert (Hfx : (need x <= f)%nat) by (simpl in Hfuel; lia).
  assert (Hfl : (needList (fun kv => need (snd kv)) l <= f)%nat)
    by (simpl in Hfuel; lia).
  rewrite parseMembers_S, printLines_cons.
  rewrite <- app_comm_cons, <- !app_assoc, skipSpace_line.
  unfold printMember at 1. simpl fst. simpl snd. rewrite <- !app_assoc.
  destruct (parseString_quoted k
              (":"%char :: " "%char :: printValue d x ++
               match l with
               | [] => []
               | _ :: _ => ","%char :: printLines (printMember d) d l
               end ++ newline :: indent d' ++ "}"%char :: rest))
    as (tl & Htl & Hparse).
  simpl app in Htl |- *. rewrite Htl.
  rewrite skipSpace_head by done.
  change (Ascii.eqb quoteChar quoteChar) with true. cbv iota.
  rewrite Hparse. rewrite skipSpace_head by done.
  change (Ascii.eqb ":"%char ":"%char) with true. cbv iota.
  rewrite (parseValue_skipSpace f (" "%char :: _) (printValue d x ++ _) eq_refl).
  destruct l as [|y l'].
  - rewrite (Hx d _ f Hfx) by done. simpl app.
    rewrite skipSpace_closing by done. done.
  - rewrite (Hx d _ f Hfx) by done.
    rewrite <- app_comm_cons, skipSpace_head by done.
    change (Ascii.eqb ","%char ","%char) with true. cbv iota.
    by rewrite (IH d d' rest f).
Qed.

(** No printed value starts with white space or a closing bracket. *)
Lemma printValue_head d v :
  exists c tl, printValue d v = c :: tl /\ isSpace c = false /\
               Ascii.eqb c "]"%char = false /\ Ascii.eqb c "}"%char = false.
Proof.
  destruct v as [ |[|]|n| |str|[|x items]|[|kv props]];
    try (eexists _, _; split; [reflexivity|by vm_compute]).
  destruct (parseNumber_pretty n [] I) as (c & tl & Hc & Hhead & _).
  rewrite app_nil_r in Hc. exists c, tl.
  destruct Hhead as (? & _ & _ & _ & _ & _ & _ & ? & ?). done.
Qed.

Lemma printValue_VArr d x items rest :
  printValue d (VArr (x :: items)) ++ rest =
    "["%char :: (printLines (printValue (S d)) (S d) (x :: items)
                 ++ newline :: indent d ++ "]"%char :: rest).
Proof.
  change (printValue d (VArr (x :: items))) with
    ("["%char :: (printLines (printValue (S d)) (S d) (x :: items)
                  ++ newline :: indent d ++ ["]"%char])).
  rewrite <- app_comm_cons, <- app_assoc, <- app_comm_cons, <- app_assoc.
  reflexivity.
Qed.

Lemma printValue_VObj d kv props rest :
  printValue d (VObj (kv :: props)) ++ rest =
    "{"%char :: (printLines (printMember (S d)) (S d) (kv :: props)
                 ++ newline :: indent d ++ "}"%char :: rest).
Proof.
  change (printValue d (VObj (kv :: props))) with
    ("{"%char :: (printLines (printMember (S d)) (S d) (kv :: props)
                  ++ newline :: indent d ++ ["}"%char])).
  rewrite <- app_comm_cons, <- app_assoc, <- app_comm_cons, <- app_assoc.
  reflexivity.
Qed.

(** The first line of a printed array or object does not start with the
    closing bracket. *)
Lemma skipSpace_items d x items more :
  exists c tl,
    skipSpace (printLines (printValue d) d (x :: items) ++ more) = c :: tl /\
    Ascii.eqb c "]"%char = false.
Proof.
  rewrite printLines_cons, <- app_comm_cons, <- !app_assoc, skipSpace_line.
  destruct (printValue_head d x) as (c & tl & Hc & Hs & Hb & _).
  rewrite Hc, <- app_comm_cons, skipSpace_head by done. by eexists _, _.
Qed.

Lemma skipSpace_members d kv props more :
  exists c tl,
    skipSpace (printLines (printMember d) d (kv :: props) ++ more) = c :: tl /\
    Ascii.eqb c "}"%char = false.
Proof.
  rewrite printLines_cons, <- app_comm_cons, <- !app_assoc, skipSpace_line.
  unfold printMember at 1, quoted.
  rewrite <- !app_comm_cons, skipSpace_head by done. by eexists _, _.
Qed.

Theorem parseValue_printValue v : readsBack v.
Proof.
  induction v as [ |b|n| |str|items IH|props IH] using value_nested_ind;
    intros d rest fuel Hfuel Hrest;
    (destruct fuel as [|f]; [simpl in Hfuel; lia|]); rewrite parseValue_S.
  - reflexivity.
  - by destruct b.
  - destruct (parseNumber_pretty n rest Hrest) as (c & tl & Hc & Hhead & Hparse).
    simpl printValue. rewrite Hc.
    destruct Hhead as (Hs & Hq & Ha & Ho & Hn & Ht & Hf & _ & _).
    rewrite skipSpace_head by done. by rewrite Hq, Ha, Ho, Hn, Ht, Hf.
  - reflexivity.
  - destruct (parseString_quoted str rest) as (tl & Htl & Hparse).
    simpl printValue. rewrite Htl, skipSpace_head by done.
    change (Ascii.eqb quoteChar quoteChar) with true. cbv iota. by rewrite Hparse.
  - destruct items as [|x items]; [reflexivity|].
    assert (Hitems : (needList need (x :: items) <= f)%nat).
    { change (need (VArr (x :: items))) with (S (needList need (x :: items))) in Hfuel.
      lia. }
    rewrite printValue_VArr, skipSpace_head by done.
    change (Ascii.eqb "["%char quoteChar) with false.
    change (Ascii.eqb "["%char "["%char) with true. cbv iota.
    destruct (skipSpace_items (S d) x items
                (newline :: indent d ++ "]"%char :: rest)) as (c & tl & -> & ->).
    by rewrite (parseItems_printLines (x :: items) IH (S d) d rest f).
  - destruct props as [|kv props]; [reflexivity|].
    assert (Hprops : (needList (fun kv => need (snd kv)) (kv :: props) <= f)%nat).
    { change (need (VObj (kv :: props)))
        with (S (needList (fun kv => need (snd kv)) (kv :: props))) in Hfuel.
      lia. }
    rewrite printValue_VObj, skipSpace_head by done.
    change (Ascii.eqb "{"%char quoteChar) with false.
    change (Ascii.eqb "{"%char "["%char) with false.
    change (Ascii.eqb "{"%char "{"%char) with true. cbv iota.
    destruct (skipSpace_members (S d) kv props
                (newline :: indent d ++ "}"%char :: rest)) as (c & tl & -> & ->).
    by rewrite (parseMembers_printLines (kv :: props) IH (S d) d rest f).
Qed.

Lemma length_indent d : length (indent d) = (2 * d)%nat.
Proof. induction d as [|d IH]; simpl; lia. Qed.

Lemma needList_le_printLines {A} (needA : A -> nat) (print : A -> list ascii)
    d (l : list A) :
  Forall (fun x => (needA x <= S (length (print x)))%nat) l ->
  (needList needA l <= length (printLines print (S d) l))%nat.
Proof.
  induction 1 as [|x l Hx Hl IH]; [simpl; lia|].
  rewrite printLines_cons. cbn [length]. rewrite !length_app, length_indent.
  change (needList needA (x :: l)) with (S (needA x + needList needA l)).
  destruct l as [|y l']; [simpl; lia|]. cbn [length]. lia.
Qed.

(** The fuel a value needs is bounded by the length of its text. *)
Lemma need_le_length v : forall d, (need v <= S (length (printValue d v)))%nat.
Proof.
  induction v as [ |b|n| |str|items IH|props IH] using value_nested_ind;
    intros d; try (simpl; lia).
  - destruct items as [|x items]; [simpl; lia|].
    change (need (VArr (x :: items))) with (S (needList need (x :: items))).
    rewrite <- (app_nil_r (printValue d (VArr (x :: items)))), printValue_VArr.
    cbn [length]. rewrite length_app.
    pose proof (needList_le_printLines need (printValue (S d)) d (x :: items)) as Hle.
    assert (Hall : Forall (fun y => (need y <= S (length (printValue (S d) y)))%nat)
                          (x :: items)).
    { eapply Forall_impl; [exact IH|]. intros y Hy. apply Hy. }
    specialize (Hle Hall). lia.
  - destruct props as [|kv props]; [simpl; lia|].
    change (need (VObj (kv :: props)))
      with (S (needList (fun kv => need (snd kv)) (kv :: props))).
    rewrite <- (app_nil_r (printValue d (VObj (kv :: props)))), printValue_VObj.
    cbn [length]. rewrite length_app.
    pose proof (needList_le_printLines (fun kv => need (snd kv)) (printMember (S d))
                  d (kv :: props)) as Hle.
    assert (Hall : Forall (fun y => (need (snd y) <= S (length (printMember (S d) y)))%nat)
                          (kv :: props)).
    { eapply Forall_impl; [exact IH|]. intros y Hy. unfold printMember.
      rewrite length_app. cbn [length]. specialize (Hy (S d)). lia. }
    specialize (Hle Hall). lia.
Qed.

Lemma length_string_of_list_ascii (l : list ascii) :
  String.length (String.string_of_list_ascii l) = length l.
Proof. induction l as [|c l IH]; simpl; [done|by rewrite IH]. Qed.

(** The codec reads back every value it prints, [NaN] as [null]: it
    meets what is assumed of the host's. *)
Theorem parse_stringify2 : JSON_law stringify2 parse.
Proof.
  intros v. unfold parse, stringify2, chars.
  rewrite String.list_ascii_of_string_of_list_ascii, length_string_of_list_ascii.
  rewrite <- (app_nil_r (printValue 0%nat v)) at 2.
  rewrite (parseValue_printValue v 0%nat [] _ (need_le_length v 0%nat) I). done.
Qed.

Lemma parse_stringify2_finite v : finite v -> parse (stringify2 v) = Some v.
Proof. intros Hv. by rewrite parse_stringify2, Hv. Qed.
End json_codec.

Lemma nullify_strs (ids : list string) : List.map nullify (VStr <$> ids) = VStr <$> ids.
Proof. induction ids as [|x l IH]; csimpl; [done|]. by rewrite IH. Qed.

Lemma nullify_fmap {A} (f : A -> value) (l : list A) :
  (forall x, finite (f x)) -> List.map nullify (f <$> l) = f <$> l.
Proof.
  intros Hf. induction l as [|x l IH]; csimpl; [done|]. by rewrite Hf, IH.
Qed.

Lemma finite_optionalProp k o :
  List.map (fun kv => (fst kv, nullify (snd kv))) (optionalProp k o) = optionalProp k o.
Proof. by destruct o. Qed.

Lemma finite_playerValue p : finite (playerValue p).
Proof. reflexivity. Qed.

Lemma finite_matchValue m : finite (matchValue m).
Proof.
  unfold finite, matchValue, idsValue, modeValue. cbn [nullify].
  rewrite List.map_app, finite_optionalProp. cbn [List.map fst snd nullify].
  by rewrite !nullify_strs.
Qed.

Lemma finite_kingSessionValue s : finite (kingSessionValue s).
Proof.
  unfold finite, kingSessionValue, idsValue, modeValue. cbn [nullify].
  rewrite List.map_app, finite_optionalProp. cbn [List.map fst snd nullify].
  by rewrite !nullify_strs.
Qed.

Lemma finite_violationValue v : finite (violationValue v).
Proof. reflexivity. Qed.

(** A snapshot whose scores are integers holds no [NaN]. *)
Lemma finite_dbValue (db : DB.t) : finite (dbValue db).
Proof.
  unfold finite, dbValue, themeValue. cbn [nullify List.map fst snd].
  rewrite (nullify_fmap playerValue), (nullify_fmap matchValue),
          (nullify_fmap kingSessionValue), (nullify_fmap violationValue);
    [done|exact finite_violationValue|exact finite_kingSessionValue
    |exact finite_matchValue|exact finite_playerValue].
Qed.

Section roundtrip.
Variable JSON_stringify : value -> string.
Variable JSON_parse : string -> option value.
Hypothesis JSON_roundtrip : JSON_law JSON_stringify JSON_parse.



End roundtrip.

(** A file that does not parse leaves the snapshot as it is. *)
Lemma onPick_malformed (JSON_parse : string -> option value) keepTheme text current :
  JSON_parse text = None -> onPick JSON_parse keepTheme text current = current.
Proof. intros Hbad. unfold onPick. by rewrite Hbad. Qed.




(** The text of a sample export, and its import. *)
Example export_import_scenario :
  onPick parse (Some (themeValue BVB)) (download stringify2 (dbValue storedDB))
    (dbValue sampleDB)
  = dbValue (DB.mk BVB (DB.players storedDB) (DB.matches storedDB)
               (DB.kingSessions storedDB) (DB.violations storedDB)).
Proof. vm_compute. reflexivity. Qed.

(** The [NaN] of [nanSnapshot] is exported as [null] and stays [null]. *)
Example nan_score_imported_as_null :
  match map_get "matches"
          (ownProps (onPick parse (Some (themeValue BVB))
                       (download stringify2 nanSnapshot) VNull)) with
  | Some (VArr [m]) => map_get "goalsA" (ownProps m)
  | _ => None
  end = Some VNull.
Proof. vm_compute. reflexivity. Qed.

(** What the reference codec writes and reads, and what it leaves
    unread: numbers with a fraction or an exponent are none of the
    model's values. *)
Example codec_scenario :
  stringify2 (VArr [VNum (-12); VNaN; VStr "a\b"]) =
    String.string_of_list_ascii
      (chars "[" ++ newline :: chars "  -12," ++ newline :: chars "  null," ++
       newline :: chars "  " ++ quoteChar :: chars "a\\b" ++ quoteChar ::
       newline :: chars "]") /\
  parse "[1, 02]" = None /\
  parse "A" = None /\
  parse "1.5" = None /\
  parse "1e3" = None.
Proof. vm_compute. done. Qed.

(** *** The specification's sample scenarios, by evaluation *)

(** Outcome symmetry: after a 3:1 the team-A player has one win and the
    team-B player one loss; after a 2:2 both have one draw. *)
Example outcome_symmetry :
  (fun r => (Row.name r, Row.wins r, Row.draws r, Row.losses r, Row.points r))
    <$> computeStandings samplePlayers [sampleMatch "m0" "p1" "p2" 3 1]
    = [("Al", 1, 0, 0, 3); ("Bob", 0, 0, 1, 0); ("Cy", 0, 0, 0, 0)] /\
  (fun r => (Row.name r, Row.wins r, Row.draws r, Row.losses r, Row.points r))
    <$> computeStandings samplePlayers [sampleMatch "m0" "p1" "p2" 2 2]
    = [("Al", 0, 1, 0, 1); ("Bob", 0, 1, 0, 1); ("Cy", 0, 0, 0, 0)].
Proof. split; reflexivity. Qed.

(** A player listed twice on a team is credited twice: the invariant of
    [Match] is what makes the credit exactly one. *)
Example repeated_player_credited_twice :
  (fun r => (Row.name r, Row.played r, Row.wins r))
    <$> computeStandings samplePlayers
          [Match.mk "m0" "" Mode2v2 "A" "B" ["p1"; "p1"] ["p2"] 3 1 "test" None]
    = [("Al", 2, 2); ("Bob", 1, 0); ("Cy", 0, 0)].
Proof. reflexivity. Qed.

(** Streak reset: Al wins two sessions, then Bob wins one (the session
    without kings in between counts for nothing). *)
Example streak_reset :
  let st := kingStreaks sampleTime sampleHistory in
  (currentStreaks st !! "p1", longestStreaks st !! "p1") = (Some 0, Some 2) /\
  (currentStreaks st !! "p2", longestStreaks st !! "p2") = (Some 1, Some 1) /\
  KingInfo.currentKings (useKingInfo sampleTime sampleHistory)
    = [CurrentKing.mk "p2" "Bob" 1].
Proof. vm_compute. done. Qed.

(** The walk is chronological whatever the stored order. *)
Example sessions_sorted_by_date :
  KingSession.id <$>
    sortedSessions sampleTime
      (DB.mk FALCO samplePlayers []
         [sampleKings "k4" ["p2"]; sampleKings "k1" ["p1"]; sampleKings "k2" ["p1"]] [])
  = ["k1"; "k2"; "k4"].
Proof. vm_compute. done. Qed.

(** Finalization: entering 2:0 in the second slot gives Al the second
    win; the series closes with two matches saved (the empty third slot
    is dropped) and one king session, all under the same id and time. *)
Example finalization_scenario :
  let app' := act sampleHost sampleApp (EnterScore "s2" SideB (Some 0)) in
  activeSession app' = None /\
  (fun m => (Match.id m, Match.goalsA m, Match.goalsB m, Match.sessionId m,
             Match.dateISO m)) <$> DB.matches (db app')
    = [("uid4", 3, 1, Some "uid3", "2025-02-03T04:05:06.000Z");
       ("uid5", 2, 0, Some "uid3", "2025-02-03T04:05:06.000Z")] /\
  (fun s => (KingSession.id s, KingSession.kings s, KingSession.dateISO s))
    <$> DB.kingSessions (db app')
    = [("uid3", ["p1"], "2025-02-03T04:05:06.000Z")].
Proof. vm_compute. done. Qed.

(** A manual stop that the user declines changes nothing; one that is
    confirmed saves the filled slot and crowns nobody. *)
Example manual_stop_scenario :
  act sampleHost sampleApp PressFinish = sampleApp /\
  let app' := act (mkHost (uidAt sampleHost) (nowISO sampleHost) true)
                  sampleApp PressFinish in
  activeSession app' = None /\
  length (DB.matches (db app')) = 1%nat /\
  KingSession.kings <$> DB.kingSessions (db app') = [[]].
Proof. vm_compute. done. Qed.

(** With an even [bestOf] both tallies can reach the threshold. *)
Example even_bestOf_two_leaders :
  let session := ActiveSession.mk [teamAl; teamBob] [] 2 Mode1v1 in
  let schedule := [sampleSlot "s1" (Some 1) (Some 0); sampleSlot "s2" (Some 0) (Some 1)] in
  teamAWins schedule >= winsNeeded session /\ teamBWins schedule >= winsNeeded session.
Proof. vm_compute. split; discriminate. Qed.

(** A file that is not JSON leaves the snapshot as it is. *)
Example malformed_import_keeps_snapshot :
  onPick parse (Some (themeValue BVB)) "{ not json" (dbValue sampleDB) = dbValue sampleDB.
Proof. vm_compute. done. Qed.

(** ** Further properties of the code *)

(** *** Standings as sums over the matches *)

Lemma tally_eq (a b : Tally) :
  t_played a = t_played b -> t_wins a = t_wins b -> t_draws a = t_draws b ->
  t_losses a = t_losses b -> t_goalsFor a = t_goalsFor b ->
  t_goalsAgainst a = t_goalsAgainst b -> a = b.
Proof. destruct a, b; simpl; congruence. Qed.

Lemma tallyAdd_comm a b : tallyAdd a b = tallyAdd b a.
Proof. apply tally_eq; simpl; lia. Qed.

Lemma tallyAdd_assoc a b c : tallyAdd a (tallyAdd b c) = tallyAdd (tallyAdd a b) c.
Proof. apply tally_eq; simpl; lia. Qed.

Lemma tallyAdd_zero_l a : tallyAdd tallyZero a = a.
Proof. apply tally_eq; simpl; lia. Qed.

Lemma applyTally_zero s : applyTally tallyZero s = s.
Proof. destruct s; unfold applyTally; simpl. f_equal; lia. Qed.

Lemma applyTally_add a b s :
  applyTally b (applyTally a s) = applyTally (tallyAdd a b) s.
Proof. unfold applyTally; simpl. f_equal; lia. Qed.

Lemma creditA_tally m s :
  creditA m s = applyTally (sideTally (Match.goalsA m) (Match.goalsB m)) s.
Proof.
  unfold creditA, applyTally, sideTally, addGame, addWin, addLoss, addDraw; simpl.
  repeat case_bool_decide; repeat case_decide; simpl; f_equal; lia.
Qed.

Lemma creditB_tally m s :
  creditB m s = applyTally (sideTally (Match.goalsB m) (Match.goalsA m)) s.
Proof.
  unfold creditB, applyTally, sideTally, addGame, addWin, addLoss, addDraw; simpl.
  repeat case_bool_decide; repeat case_decide; simpl; f_equal; lia.
Qed.

(** A loop over a team, whatever its ids: every entry is credited once
    per listing of its key. *)
Lemma team_loop_tally (t : Tally) (f : Stat.t -> Stat.t) (team : list string)
    (m : StatMap) :
  (forall s, f s = applyTally t s) -> NoDup m.*1 ->
  foldl (creditPlayer f) m team =
    (fun e => (e.1, applyTally (tallyScale (appearances e.1 team) t) e.2)) <$> m.
Proof.
  intros Hf. revert m. induction team as [|pid team IH]; intros m Hm; simpl.
  - symmetry. rewrite <- (list_fmap_id m) at 2. apply list_fmap_ext.
    intros i [k s] _. simpl. f_equal.
    rewrite <- (applyTally_zero s) at 2. reflexivity.
  - rewrite IH by (by rewrite creditPlayer_keys).
    rewrite creditPlayer_spec by done. rewrite <- list_fmap_compose.
    apply list_fmap_ext. intros i [k s] _. unfold onTeam, appearances; simpl.
    destruct (decide (k = pid)) as [->|Hne].
    + rewrite (decide_True (P := pid ∈ [pid])) by left. simpl.
      rewrite bool_decide_eq_true_2 by done. f_equal.
      rewrite Hf, applyTally_add. f_equal. apply tally_eq; simpl length; simpl; lia.
    + rewrite (decide_False (P := k ∈ [pid]))
        by (intros ?%list_elem_of_singleton; done).
      rewrite bool_decide_eq_false_2 by done. done.
Qed.

Lemma aggregateMatch_tally (M : StatMap) (m : Match.t) :
  NoDup M.*1 ->
  aggregateMatch M m = (fun e => (e.1, applyTally (matchTally m e.1) e.2)) <$> M.
Proof.
  intros HM. unfold aggregateMatch.
  rewrite (team_loop_tally _ _ (Match.teamAPlayers m) M (creditA_tally m) HM).
  rewrite (team_loop_tally _ _ (Match.teamBPlayers m) _ (creditB_tally m)).
  - rewrite <- list_fmap_compose. apply list_fmap_ext. intros i [k s] _. simpl.
    by rewrite applyTally_add.
  - rewrite <- list_fmap_compose.
    by rewrite (list_fmap_ext (fst ∘ _) fst M) by (by intros ? []).
Qed.

Lemma match_loop_tally (ms : list Match.t) (M : StatMap) :
  NoDup M.*1 ->
  foldl aggregateMatch M ms =
    (fun e => (e.1, applyTally (totalTally ms e.1) e.2)) <$> M.
Proof.
  revert M. induction ms as [|m ms IH]; intros M HM; simpl.
  - rewrite <- (list_fmap_id M) at 1. apply list_fmap_ext.
    intros i [k s] _. simpl. by rewrite applyTally_zero.
  - rewrite IH by (by rewrite aggregateMatch_keys).
    rewrite aggregateMatch_tally by done. rewrite <- list_fmap_compose.
    apply list_fmap_ext. intros i [k s] _. simpl. by rewrite applyTally_add.
Qed.

Lemma map_set_absent {V} (m : list (string * V)) k v :
  k ∉ m.*1 -> map_set k v m = m ++ [(k, v)].
Proof.
  induction m as [|[k' v'] m IH]; csimpl; [done|].
  intros [Hne Hnin]%not_elem_of_cons.
  rewrite decide_False by done. by rewrite IH.
Qed.

Lemma initMap_NoDup_ids (players : list Player.t) :
  NoDup (Player.id <$> players) ->
  initMap players = (fun p => (Player.id p, freshStat p)) <$> players.
Proof.
  unfold initMap. intros Hnd.
  assert (Hgen : forall m0 : StatMap,
            (forall k, k ∈ m0.*1 -> k ∉ Player.id <$> players) ->
            foldl (fun m p => map_set (Player.id p) (freshStat p) m) m0 players =
              m0 ++ ((fun p => (Player.id p, freshStat p)) <$> players)).
  { induction players as [|p ps IH]; intros m0 Hdisj; csimpl.
    - by rewrite app_nil_r.
    - apply NoDup_cons in Hnd as [Hp Hps].
      rewrite map_set_absent.
      + rewrite IH; [by rewrite <- app_assoc|done|].
        intros k. rewrite fmap_app, elem_of_app. csimpl.
        intros [Hk| ->%list_elem_of_singleton] Hin; [|done].
        apply (Hdisj k Hk). by right.
      + intros Hin. apply (Hdisj _ Hin). left. }
  rewrite Hgen; [done|]. intros k Hk. by apply elem_of_nil in Hk.
Qed.

Lemma totalTally_Permutation ms ms' pid :
  ms ≡ₚ ms' -> totalTally ms pid = totalTally ms' pid.
Proof.
  induction 1 as [|m l l' _ IH|m1 m2 l|l1 l2 l3 _ IH1 _ IH2]; simpl.
  - done.
  - by rewrite IH.
  - rewrite !tallyAdd_assoc. f_equal. apply tallyAdd_comm.
  - by rewrite IH1.
Qed.

Lemma totalTally_app ms ms' pid :
  totalTally (ms ++ ms') pid = tallyAdd (totalTally ms pid) (totalTally ms' pid).
Proof.
  induction ms as [|m ms IH]; simpl.
  - by rewrite tallyAdd_zero_l.
  - by rewrite IH, tallyAdd_assoc.
Qed.

(** The standings, entry by entry of the initial map. *)
Lemma computeStandings_tally players ms :
  computeStandings players ms =
    (fun e => toRow (applyTally (totalTally ms e.1) e.2)) <$> initMap players.
Proof.
  unfold computeStandings.
  rewrite match_loop_tally by (by apply (initMap_inv (fun _ => True))).
  rewrite <- !list_fmap_compose. by apply list_fmap_ext.
Qed.

(** X1. With distinct roster ids the standings list the players in roster
    order, each with the sums over all matches: one game per listing in a
    team, a win, draw or loss by the score of the own side, the goals of
    the own side for and of the other side against. *)
Theorem X1_standings_are_sums (players : list Player.t) (ms : list Match.t) :
  NoDup (Player.id <$> players) ->
  computeStandings players ms = expectedRow ms <$> players.
Proof.
  intros Hnd. rewrite computeStandings_tally, initMap_NoDup_ids by done.
  rewrite <- list_fmap_compose. by apply list_fmap_ext.
Qed.

Lemma X1_standings_are_sums_witness :
  computeStandings samplePlayers sampleMatches = expectedRow sampleMatches <$> samplePlayers.
Proof.
  apply (X1_standings_are_sums samplePlayers sampleMatches). compute_done.
Defined.

(** X2. The standings do not depend on the order in which the matches
    are stored. *)
Theorem X2_standings_order_independent (players : list Player.t)
    (ms ms' : list Match.t) :
  ms ≡ₚ ms' -> computeStandings players ms = computeStandings players ms'.
Proof.
  intros Hperm. rewrite !computeStandings_tally.
  apply list_fmap_ext. intros i e _. by rewrite (totalTally_Permutation ms ms').
Qed.

Lemma X2_standings_order_independent_witness :
  computeStandings samplePlayers sampleMatches =
    computeStandings samplePlayers (rev sampleMatches).
Proof.
  apply (X2_standings_order_independent samplePlayers sampleMatches (rev sampleMatches)).
  apply Permutation_swap.
Defined.

(** *** Removing a player, deleting a match *)

Lemma filter_map_set {V} (id k : string) (v : V) (m : list (string * V)) :
  List.filter (fun e => negb (bool_decide (e.1 = id))) (map_set k v m) =
    if decide (k = id) then List.filter (fun e => negb (bool_decide (e.1 = id))) m
    else map_set k v (List.filter (fun e => negb (bool_decide (e.1 = id))) m).
Proof.
  induction m as [|[k' v'] m IH]; simpl.
  - destruct (decide (k = id)) as [->|Hne].
    + by rewrite bool_decide_eq_true_2.
    + by rewrite bool_decide_eq_false_2.
  - destruct (decide (k' = k)) as [->|Hk']; simpl.
    + destruct (decide (k = id)) as [->|Hne].
      * by rewrite bool_decide_eq_true_2.
      * rewrite bool_decide_eq_false_2 by done. simpl. by rewrite decide_True.
    + rewrite IH. destruct (decide (k = id)) as [->|Hne]; [done|].
      destruct (bool_decide (k' = id)); simpl; [done|]. by rewrite decide_False.
Qed.

Lemma initMap_filter (id : string) (players : list Player.t) :
  initMap (List.filter (fun p => negb (bool_decide (Player.id p = id))) players) =
    List.filter (fun e => negb (bool_decide (e.1 = id))) (initMap players).
Proof.
  unfold initMap.
  assert (Hgen : forall m0 : StatMap,
    foldl (fun m p => map_set (Player.id p) (freshStat p) m)
      (List.filter (fun e => negb (bool_decide (e.1 = id))) m0)
      (List.filter (fun p => negb (bool_decide (Player.id p = id))) players) =
    List.filter (fun e => negb (bool_decide (e.1 = id)))
      (foldl (fun m p => map_set (Player.id p) (freshStat p) m) m0 players)).
  { induction players as [|p ps IH]; intros m0; simpl; [done|].
    rewrite <- IH, filter_map_set.
    destruct (decide (Player.id p = id)) as [Hp|Hp].
    - by rewrite bool_decide_eq_true_2.
    - by rewrite bool_decide_eq_false_2. }
  apply (Hgen []).
Qed.

Lemma filter_fmap_Forall {A B} (f : A -> B) (keepB : B -> bool) (keepA : A -> bool)
    (l : list A) :
  Forall (fun x => keepB (f x) = keepA x) l ->
  List.filter keepB (f <$> l) = f <$> List.filter keepA l.
Proof.
  induction 1 as [|x l Hx Hl IH]; csimpl; [done|].
  rewrite Hx, IH. by destruct (keepA x).
Qed.

(** X3. Removing a player from the roster removes that player's row from
    the standings and changes no other row: the matches stay, and the
    removed id is skipped in them. *)
Theorem X3_deletePlayer_drops_one_row (host : Host) (id : string) (db : DB.t) :
  confirmAnswer host = true ->
  computeStandings (DB.players (deletePlayer host id db))
                   (DB.matches (deletePlayer host id db)) =
    List.filter (fun r => negb (bool_decide (Row.id r = id)))
                (computeStandings (DB.players db) (DB.matches db)).
Proof.
  intros Hyes. unfold deletePlayer. rewrite Hyes. simpl.
  rewrite !computeStandings_tally, initMap_filter.
  symmetry. apply filter_fmap_Forall.
  eapply Forall_impl; [apply (initMap_inv keyed); done|].
  intros [k s] Hk. unfold keyed in Hk. simpl in *. by rewrite Hk.
Qed.

Lemma X3_deletePlayer_drops_one_row_witness :
  Row.name <$> computeStandings (DB.players (deletePlayer yesHost "p3" sampleLeague))
                                (DB.matches (deletePlayer yesHost "p3" sampleLeague))
  = ["Al"; "Bob"].
Proof.
  rewrite (X3_deletePlayer_drops_one_row yesHost "p3" sampleLeague eq_refl).
  reflexivity.
Defined.

Lemma filter_other_ids (id : string) (ms : list Match.t) :
  Forall (fun m' => Match.id m' <> id) ms ->
  List.filter (fun m => negb (bool_decide (Match.id m = id))) ms = ms.
Proof.
  induction 1 as [|m' ms Hm' _ IH]; simpl; [done|].
  by rewrite bool_decide_eq_false_2, IH.
Qed.

Lemma toRow_applyTally_add (T t : Tally) (s : Stat.t) :
  toRow (applyTally (tallyAdd T t) s) = rowPlus (toRow (applyTally T s)) t.
Proof. unfold toRow, rowPlus, applyTally; simpl. f_equal; lia. Qed.

(** X4. Deleting a match takes back exactly what the match had added: every
    row of the standings before the deletion is the row after it plus the
    credit of the deleted match for that player.  (The match is the only
    one with its id.) *)
Theorem X4_deleteMatch_takes_back_its_credit
    (host : Host) (db : DB.t) (before after : list Match.t) (m : Match.t)
    (i : nat) (r : Row.t) :
  confirmAnswer host = true ->
  DB.matches db = before ++ m :: after ->
  idUniqueIn m before after ->
  computeStandings (DB.players db) (DB.matches (deleteMatch host (Match.id m) db)) !! i
    = Some r ->
  DB.matches (deleteMatch host (Match.id m) db) = before ++ after /\
  computeStandings (DB.players db) (DB.matches db) !! i
    = Some (rowPlus r (matchTally m (Row.id r))).
Proof.
  intros Hyes Hms Huniq.
  assert (Hdel : DB.matches (deleteMatch host (Match.id m) db) = before ++ after).
  { unfold deleteMatch. rewrite Hyes, Hms. simpl.
    rewrite List.filter_app. simpl. rewrite bool_decide_eq_true_2 by done. simpl.
    apply Forall_app in Huniq as [Hb Ha].
    by rewrite !filter_other_ids. }
  rewrite Hdel, Hms, !computeStandings_tally, !list_lookup_fmap.
  destruct (initMap (DB.players db) !! i) as [[k s]|] eqn:Hi; simpl; [|done].
  intros [= <-]. split; [done|]. f_equal.
  assert (Hk : Stat.id s = k).
  { pose proof (proj2 (initMap_inv keyed (DB.players db) ltac:(done))) as Hkeyed.
    by apply (Forall_lookup_1 _ _ _ _ Hkeyed Hi). }
  rewrite <- toRow_applyTally_add. simpl. rewrite Hk. f_equal. f_equal.
  rewrite !totalTally_app. simpl.
  rewrite <- !tallyAdd_assoc. f_equal. apply tallyAdd_comm.
Qed.

Lemma X4_deleteMatch_takes_back_its_credit_witness :
  (fun r => (Row.name r, Row.played r, Row.goalsFor r)) <$>
    computeStandings (DB.players sampleLeague) (DB.matches sampleLeague) !! 1%nat
  = Some ("Bob", 1, 2).
Proof.
  destruct (X4_deleteMatch_takes_back_its_credit yesHost sampleLeague []
              [sampleMatch "m2" "p1" "p3" 1 1] (sampleMatch "m1" "p2" "p3" 2 2) 1%nat
              (toRow (freshStat (Player.mk "p2" "Bob")))
              eq_refl eq_refl ltac:(compute_done) eq_refl) as [_ Hrow].
  rewrite Hrow. reflexivity.
Defined.

(** *** Revoking a title *)

Lemma filter_crowned_clearKings id (sessions : list KingSession.t) :
  List.filter crowned (clearKings id <$> sessions) =
    List.filter crowned (sessionsOtherThan id sessions).
Proof.
  unfold sessionsOtherThan.
  induction sessions as [|s l IH]; csimpl; [done|].
  destruct (decide (KingSession.id s = id)) as [Hs|Hs].
  - rewrite bool_decide_eq_true_2 by done. simpl.
    unfold clearKings at 1. rewrite decide_True by done. exact IH.
  - rewrite bool_decide_eq_false_2 by done.
    assert (Hsame : clearKings id s = s) by (unfold clearKings; by rewrite decide_False).
    rewrite Hsame. simpl. by rewrite IH.
Qed.

Lemma kingStreaks_crowned getTime (db : DB.t) (sessions : list KingSession.t) :
  List.filter crowned sessions = List.filter crowned (DB.kingSessions db) ->
  kingStreaks getTime (withKingSessions db sessions) = kingStreaks getTime db.
Proof.
  intros Heq. unfold kingStreaks, sortedSessions; simpl. f_equal.
  rewrite walk_crowned.
  rewrite (walk_crowned _ _ (arraySort (byDate getTime) (DB.kingSessions db))).
  rewrite !(arraySort_filter _ (byDate_total getTime) (byDate_trans getTime)).
  by rewrite Heq.
Qed.

(** X5. Revoking the title of a session keeps the session in the list and
    gives the king information (current kings, longest streaks) of the
    snapshot without the sessions of that id. *)
Theorem X5_removeKingTitle_as_if_absent
    (getTime : string -> Z) (host : Host) (id : string) (db : DB.t) :
  confirmAnswer host = true ->
  length (DB.kingSessions (removeKingTitle host id db))
    = length (DB.kingSessions db) /\
  KingSession.id <$> DB.kingSessions (removeKingTitle host id db)
    = KingSession.id <$> DB.kingSessions db /\
  useKingInfo getTime (removeKingTitle host id db) =
    useKingInfo getTime
      (withKingSessions db (sessionsOtherThan id (DB.kingSessions db))).
Proof.
  intros Hyes. unfold removeKingTitle. rewrite Hyes. simpl. split_and!.
  - by rewrite length_fmap.
  - rewrite <- list_fmap_compose. apply list_fmap_ext.
    intros i s _. simpl. unfold clearKings. by case_decide.
  - assert (Hst : kingStreaks getTime
                    (withKingSessions db (clearKings id <$> DB.kingSessions db)) =
                  kingStreaks getTime
                    (withKingSessions db (sessionsOtherThan id (DB.kingSessions db)))).
    { rewrite <- (kingStreaks_crowned getTime
                    (withKingSessions db (sessionsOtherThan id (DB.kingSessions db)))
                    (clearKings id <$> DB.kingSessions db)).
      - done.
      - simpl. apply filter_crowned_clearKings. }
    unfold useKingInfo. simpl in *. unfold withKingSessions in Hst.
    by rewrite Hst.
Qed.

Lemma X5_removeKingTitle_as_if_absent_witness :
  KingInfo.currentKings (useKingInfo sampleTime (removeKingTitle yesHost "k2" sampleTitles))
  = [CurrentKing.mk "p1" "Al" 2].
Proof.
  destruct (X5_removeKingTitle_as_if_absent sampleTime yesHost "k2" sampleTitles eq_refl)
    as (_ & _ & Hinfo).
  rewrite Hinfo. vm_compute. reflexivity.
Defined.

(** *** Titles per player *)

Section keyed_update.
Context {V : Type} (f : V -> V).
Implicit Types (m : list (string * V)) (k pid : string).

(** Read, change, write back under one key. *)
Let update m pid : list (string * V) :=
  match map_get pid m with
  | None => m
  | Some v => map_set pid (f v) m
  end.

Lemma keyed_update_spec m pid :
  NoDup m.*1 ->
  update m pid = (fun e => if decide (e.1 = pid) then (e.1, f e.2) else e) <$> m.
Proof.
  unfold update.
  induction m as [|[k v] m IH]; csimpl; intros Hnd; [done|].
  apply NoDup_cons in Hnd as [Hk Hnd].
  destruct (decide (k = pid)) as [->|Hne].
  - f_equal. clear IH. induction m as [|[k' v'] m IH]; csimpl; [done|].
    apply not_elem_of_cons in Hk as [Hne Hk]. apply NoDup_cons in Hnd as [_ Hnd].
    rewrite decide_False by done. f_equal. by apply IH.
  - rewrite <- (IH Hnd). by destruct (map_get pid m).
Qed.

Lemma keyed_update_NoDup m pid : NoDup m.*1 -> NoDup (update m pid).*1.
Proof.
  intros Hnd. rewrite keyed_update_spec by done.
  rewrite <- list_fmap_compose.
  rewrite (list_fmap_ext _ fst m); [done|]. intros i [k v] _. simpl. by case_decide.
Qed.

(** A loop of such updates changes every entry once per listing of its
    key. *)
Lemma keyed_update_loop (pids : list string) m :
  NoDup m.*1 ->
  foldl update m pids =
    (fun e => (e.1, Nat.iter (length (List.filter (fun x => bool_decide (x = e.1)) pids))
                             f e.2)) <$> m.
Proof.
  revert m. induction pids as [|pid pids IH]; intros m Hnd; simpl.
  - rewrite <- (list_fmap_id m) at 1. apply list_fmap_ext. by intros i [k v] _.
  - rewrite IH by (by apply keyed_update_NoDup).
    rewrite keyed_update_spec by done. rewrite <- list_fmap_compose.
    apply list_fmap_ext. intros i [k v] _. unfold compose. cbn [fst snd List.filter].
    destruct (decide (k = pid)) as [->|Hne]; cbn [fst snd].
    + rewrite bool_decide_eq_true_2 by done. cbn [length]. by rewrite Nat.iter_succ_r.
    + by rewrite bool_decide_eq_false_2 by done.
Qed.
End keyed_update.

Lemma foldl_map_set_NoDup {A V} (key : A -> string) (val : A -> V) (l : list A) :
  NoDup (key <$> l) ->
  foldl (fun m x => map_set (key x) (val x) m) [] l = (fun x => (key x, val x)) <$> l.
Proof.
  intros Hnd.
  assert (Hgen : forall m0 : list (string * V),
            (forall k, k ∈ m0.*1 -> k ∉ key <$> l) ->
            foldl (fun m x => map_set (key x) (val x) m) m0 l =
              m0 ++ ((fun x => (key x, val x)) <$> l)).
  { induction l as [|x l IH]; intros m0 Hdisj; csimpl.
    - by rewrite app_nil_r.
    - apply NoDup_cons in Hnd as [Hx Hl].
      rewrite map_set_absent.
      + rewrite IH; [by rewrite <- app_assoc|done|].
        intros k. rewrite fmap_app, elem_of_app. csimpl.
        intros [Hk| ->%list_elem_of_singleton] Hin; [|done].
        apply (Hdisj k Hk). by right.
      + intros Hin. apply (Hdisj _ Hin). left. }
  rewrite Hgen; [done|]. intros k Hk. by apply elem_of_nil in Hk.
Qed.

Lemma iter_wins (n : nat) (r : TitleCount.t) :
  Nat.iter n (fun rec => TitleCount.mk (TitleCount.id rec) (TitleCount.name rec)
                           (TitleCount.wins rec + 1)) r =
    TitleCount.mk (TitleCount.id r) (TitleCount.name r) (TitleCount.wins r + Z.of_nat n).
Proof.
  induction n as [|n IH].
  - destruct r; simpl. f_equal. lia.
  - rewrite Nat.iter_succ, IH. simpl. f_equal. lia.
Qed.

Lemma titles_loop (sessions : list KingSession.t) (map : list (string * TitleCount.t)) :
  NoDup map.*1 ->
  foldl (fun map s => foldl countTitle map (KingSession.kings s)) map sessions =
    (fun e => (e.1, TitleCount.mk (TitleCount.id e.2) (TitleCount.name e.2)
                      (TitleCount.wins e.2 + titlesOf sessions e.1))) <$> map.
Proof.
  revert map. induction sessions as [|s l IH]; intros map Hnd; simpl.
  - rewrite <- (list_fmap_id map) at 1. apply list_fmap_ext.
    intros i [k [rid rname rwins]] _. simpl. do 2 f_equal. lia.
  - pose proof (keyed_update_loop
                  (fun rec => TitleCount.mk (TitleCount.id rec) (TitleCount.name rec)
                                (TitleCount.wins rec + 1))
                  (KingSession.kings s) map Hnd) as Hloop.
    change (foldl countTitle map (KingSession.kings s)) with
      (foldl (fun m pid =>
                match map_get pid m with
                | None => m
                | Some v => map_set pid (TitleCount.mk (TitleCount.id v)
                                           (TitleCount.name v) (TitleCount.wins v + 1)) m
                end) map (KingSession.kings s)).
    rewrite Hloop. rewrite IH.
    + rewrite <- list_fmap_compose. apply list_fmap_ext.
      intros i [k r] _. simpl. rewrite iter_wins. simpl. unfold appearances.
      do 2 f_equal. lia.
    + rewrite <- list_fmap_compose.
      by rewrite (list_fmap_ext (fst ∘ _) fst map) by (by intros ? []).
Qed.

(** X6. With distinct roster ids the title table lists the players in
    roster order, each with the number of times the king sessions list
    the player's id among their kings; sessions without kings and ids
    outside the roster count for nothing. *)
Theorem X6_sessionCounts_count_titles (db : DB.t) :
  NoDup (Player.id <$> DB.players db) ->
  sessionCounts db =
    (fun p => TitleCount.mk (Player.id p) (Player.name p)
                (titlesOf (DB.kingSessions db) (Player.id p)))
      <$> DB.players db.
Proof.
  intros Hnd. unfold sessionCounts, initTitles.
  rewrite (foldl_map_set_NoDup Player.id
             (fun p => TitleCount.mk (Player.id p) (Player.name p) 0)) by done.
  rewrite titles_loop.
  - rewrite <- !list_fmap_compose. apply list_fmap_ext. by intros i p _.
  - rewrite <- list_fmap_compose. exact Hnd.
Qed.

Lemma X6_sessionCounts_count_titles_witness :
  (fun r => (TitleCount.name r, TitleCount.wins r)) <$> sessionCounts sampleTitles
  = [("Al", 2); ("Bob", 1); ("Cy", 0)].
Proof.
  rewrite (X6_sessionCounts_count_titles sampleTitles ltac:(compute_done)).
  reflexivity.
Defined.

(** *** Violations per player *)

Lemma violation_init_lookup (players : list Player.t) (pid : string) :
  foldl (fun counts p => <[Player.id p := 0]> counts) (∅ : gmap string Z) players !! pid
  = if decide (pid ∈ Player.id <$> players) then Some 0 else None.
Proof.
  assert (Hgen : forall c0 : gmap string Z,
            foldl (fun counts p => <[Player.id p := 0]> counts) c0 players !! pid
            = if decide (pid ∈ Player.id <$> players) then Some 0 else c0 !! pid).
  { induction players as [|p l IH]; intros c0.
    - destruct (decide _) as [Hin|_]; [by apply elem_of_nil in Hin|done].
    - simpl foldl. rewrite IH. destruct (decide (pid ∈ Player.id <$> l)) as [Hin|Hout].
      + rewrite decide_True; [done|]. by right.
      + destruct (decide (pid = Player.id p)) as [->|Hne].
        * rewrite lookup_insert_eq. rewrite decide_True; [done|]. left.
        * rewrite lookup_insert_ne by done. rewrite decide_False; [done|].
          intros [?|?]%elem_of_cons; done. }
  rewrite Hgen. case_decide; [done|]. apply lookup_empty.
Qed.

Lemma countViolation_lookup (counts : gmap string Z) (v : Violation.t) (pid : string) :
  countViolation counts v !! pid =
    (fun n => n + (if decide (Violation.playerId v = pid) then 1 else 0))
      <$> counts !! pid.
Proof.
  unfold countViolation.
  destruct (counts !! Violation.playerId v) as [n|] eqn:Hn.
  - destruct (decide (Violation.playerId v = pid)) as [<-|Hne].
    + rewrite lookup_insert_eq, Hn. done.
    + rewrite lookup_insert_ne by done.
      destruct (counts !! pid); simpl; [f_equal; lia|done].
  - destruct (decide (Violation.playerId v = pid)) as [<-|Hne].
    + by rewrite Hn.
    + destruct (counts !! pid); simpl; [f_equal; lia|done].
Qed.

Lemma violationsOf_cons (v : Violation.t) (vs : list Violation.t) (pid : string) :
  violationsOf (v :: vs) pid =
    (if decide (Violation.playerId v = pid) then 1 else 0) + violationsOf vs pid.
Proof.
  unfold violationsOf. simpl.
  destruct (decide (Violation.playerId v = pid)) as [Heq|Hne].
  - rewrite bool_decide_eq_true_2 by done. simpl length. lia.
  - rewrite bool_decide_eq_false_2 by done. lia.
Qed.

Lemma countViolation_loop (vs : list Violation.t) (counts : gmap string Z) (pid : string) :
  foldl countViolation counts vs !! pid =
    (fun n => n + violationsOf vs pid) <$> counts !! pid.
Proof.
  revert counts. induction vs as [|v vs IH]; intros counts.
  - simpl. unfold violationsOf. simpl. destruct (counts !! pid); simpl; [f_equal; lia|done].
  - simpl foldl. rewrite IH, countViolation_lookup, violationsOf_cons.
    destruct (counts !! pid); simpl; [f_equal; lia|done].
Qed.

(** X7. The violation dictionary of the statistics has exactly the
    roster's ids as keys, and under each the number of violations that
    name the id; a violation of an id outside the roster is counted
    nowhere. *)
Theorem X7_violationCounts_per_roster_id (db : DB.t) (pid : string) :
  violationCounts db !! pid =
    if decide (pid ∈ Player.id <$> DB.players db)
    then Some (violationsOf (DB.violations db) pid)
    else None.
Proof.
  unfold violationCounts. rewrite countViolation_loop, violation_init_lookup.
  by case_decide.
Qed.

(** X8. [addViolation] without a chosen player changes nothing. With one
    it touches neither roster, matches nor king sessions, puts the new
    violation first under the next fresh id, and raises the count of the
    chosen player by one if the player is in the roster, and no other
    count. *)
Theorem X8_addViolation_counts_once (host : Host) (playerId : string)
    (type : ViolationType) (comment enteredBy : string) (app : App) :
  addViolation host "" type comment enteredBy app = app /\
  (playerId <> "" ->
   let app' := addViolation host playerId type comment enteredBy app in
   DB.players (db app') = DB.players (db app) /\
   DB.matches (db app') = DB.matches (db app) /\
   DB.kingSessions (db app') = DB.kingSessions (db app) /\
   activeSession app' = activeSession app /\
   (exists v, DB.violations (db app') = v :: DB.violations (db app) /\
              Violation.id v = uidAt host (uidCount app) /\
              Violation.playerId v = playerId /\
              Violation.enteredBy v <> "") /\
   forall pid,
     violationCounts (db app') !! pid =
       (fun n => n + (if decide (playerId = pid) then 1 else 0))
         <$> violationCounts (db app) !! pid).
Proof.
  split; [done|]. intros Hne app'. subst app'. unfold addViolation.
  rewrite decide_False by done. cbn [db activeSession DB.players DB.matches
    DB.kingSessions DB.violations].
  split_and!; try done.
  - eexists. split_and!; try done. simpl. by case_decide.
  - intros pid. unfold violationCounts. cbn [DB.players DB.violations].
    rewrite !countViolation_loop, violationsOf_cons. simpl.
    destruct (foldl _ _ _ !! pid); simpl; [f_equal; lia|done].
Qed.

(** *** Roster *)

Section roster.
Variable trim : string -> string.

Lemma filter_other_players (id : string) (players : list Player.t) :
  List.filter (fun p => negb (bool_decide (Player.id p = id))) players =
    filter (fun p => Player.id p <> id) players.
Proof.
  induction players as [|p l IH]; [done|].
  rewrite filter_cons. simpl. rewrite IH.
  destruct (decide (Player.id p = id)) as [Heq|Hne].
  - rewrite bool_decide_eq_true_2 by done. simpl. by rewrite decide_False by auto.
  - rewrite bool_decide_eq_false_2 by done. simpl. by rewrite decide_True.
Qed.

Lemma addPlayer_ignores (host : Host) (newName : string) (app : App) :
  trim newName = "" \/
  (exists p, p ∈ DB.players (db app) /\ Player.name p = trim newName) ->
  addPlayer trim host newName app = app.
Proof.
  intros Hcase. unfold addPlayer.
  destruct (negb (bool_decide (trim newName = "")) && _) eqn:Htest; [|done].
  apply andb_prop in Htest as [Hblank Htaken].
  apply negb_true_iff, bool_decide_eq_false in Hblank.
  apply negb_true_iff in Htaken.
  destruct Hcase as [Hb|(p & Hp & Hname)]; [done|].
  assert (existsb (fun p => bool_decide (Player.name p = trim newName))
            (DB.players (db app)) = true) as Hex; [|congruence].
  apply existsb_exists. exists p. split; [by apply list_elem_of_In|].
  by apply bool_decide_eq_true.
Qed.

Lemma addPlayer_appends (host : Host) (newName : string) (app : App) :
  trim newName <> "" ->
  ~ (exists p, p ∈ DB.players (db app) /\ Player.name p = trim newName) ->
  addPlayer trim host newName app =
    mkApp (DB.mk (DB.theme (db app))
             (DB.players (db app) ++
                [Player.mk (uidAt host (uidCount app)) (trim newName)])
             (DB.matches (db app)) (DB.kingSessions (db app))
             (DB.violations (db app)))
          (activeSession app) (S (uidCount app)).
Proof.
  intros Hblank Hfree. unfold addPlayer.
  rewrite bool_decide_eq_false_2 by done.
  destruct (existsb _ _) eqn:Hex; [|done].
  exfalso. apply Hfree. apply existsb_exists in Hex as (p & Hp & Hname).
  exists p. split; [by apply list_elem_of_In|]. by apply bool_decide_eq_true in Hname.
Qed.

(** X9. The roster operations of the settings.  [addPlayer] ignores a
    name that is blank after trimming and a trimmed name already in the
    roster; any other name it appends, trimmed, as exactly one player
    under the next fresh id, leaving the rest of the state as it is.
    [deletePlayer], when the user confirms, keeps exactly the players
    whose id is not the given one, in their order, and the rest of the
    snapshot; declined, it changes nothing.  Both keep the names of the
    roster distinct and non-empty. *)
Theorem X9_roster_names_stay_distinct (host : Host) (newName id : string) (app : App) :
  let namesOk (players : list Player.t) :=
    NoDup (Player.name <$> players) /\ Forall (fun p => Player.name p <> "") players in
  let taken := exists p, p ∈ DB.players (db app) /\ Player.name p = trim newName in
  let added := addPlayer trim host newName app in
  let deleted := deletePlayer host id (db app) in
  namesOk (DB.players (db app)) ->
  (trim newName = "" \/ taken -> added = app) /\
  (trim newName <> "" -> ~ taken ->
   added = mkApp (DB.mk (DB.theme (db app))
                    (DB.players (db app) ++
                       [Player.mk (uidAt host (uidCount app)) (trim newName)])
                    (DB.matches (db app)) (DB.kingSessions (db app))
                    (DB.violations (db app)))
                 (activeSession app) (S (uidCount app))) /\
  (added = app \/
   DB.players (db added) =
     DB.players (db app) ++ [Player.mk (uidAt host (uidCount app)) (trim newName)]) /\
  namesOk (DB.players (db added)) /\
  (confirmAnswer host = true ->
   deleted = DB.mk (DB.theme (db app))
               (filter (fun p => Player.id p <> id) (DB.players (db app)))
               (DB.matches (db app)) (DB.kingSessions (db app))
               (DB.violations (db app))) /\
  (confirmAnswer host = false -> deleted = db app) /\
  (DB.players deleted `sublist_of` DB.players (db app)) /\
  namesOk (DB.players deleted).
Proof.
  intros namesOk taken added deleted [Hnd Hne]. subst taken added deleted.
  split_and!.
  - apply addPlayer_ignores.
  - apply addPlayer_appends.
  - unfold addPlayer. destruct (_ && _); [right|left]; done.
  - unfold addPlayer.
    destruct (negb (bool_decide (trim newName = "")) && _) eqn:Htest; [|done].
    apply andb_prop in Htest as [Hblank Htaken].
    apply negb_true_iff, bool_decide_eq_false in Hblank.
    apply negb_true_iff in Htaken.
    cbn [db DB.players]. split.
    + rewrite fmap_app. apply NoDup_app. split_and!; [done| |apply NoDup_singleton].
      intros x Hx ->%list_elem_of_singleton.
      apply list_elem_of_fmap in Hx as (p & Hp & Hin).
      assert (existsb (fun p => bool_decide (Player.name p = trim newName))
                (DB.players (db app)) = true) as Hex; [|congruence].
      apply existsb_exists. exists p. split; [by apply list_elem_of_In|].
      by apply bool_decide_eq_true.
    + apply Forall_app. split; [done|]. by apply Forall_singleton.
  - intros Hyes. unfold deletePlayer. by rewrite Hyes, filter_other_players.
  - intros Hno. unfold deletePlayer. by rewrite Hno.
  - unfold deletePlayer. destruct (confirmAnswer host); [|done].
    cbn [DB.players]. rewrite filter_other_players. apply sublist_filter.
  - unfold deletePlayer. destruct (confirmAnswer host); [|done].
    cbn [DB.players]. split.
    + clear Hne. induction (DB.players (db app)) as [|p l IH]; [done|].
      csimpl in Hnd. apply NoDup_cons in Hnd as [Hp Hl]. simpl.
      destruct (negb _); [|by apply IH]. csimpl. apply NoDup_cons. split; [|by apply IH].
      intros Hin. apply Hp. apply list_elem_of_fmap in Hin as (q & -> & Hq).
      apply list_elem_of_fmap. exists q. split; [done|].
      apply list_elem_of_In, List.filter_In in Hq as [Hq _]. by apply list_elem_of_In.
    + apply Forall_forall. intros p Hp.
      apply list_elem_of_In, List.filter_In in Hp as [Hp _].
      rewrite Forall_forall in Hne. apply Hne. by apply list_elem_of_In.
Qed.
End roster.

Lemma X9_roster_names_stay_distinct_witness :
  addPlayer (fun s => s) sampleHost "Bob" sampleApp = sampleApp /\
  DB.players (db (addPlayer (fun s => s) sampleHost "Dee" sampleApp))
    = samplePlayers ++ [Player.mk (uidAt sampleHost (uidCount sampleApp)) "Dee"] /\
  Player.name <$> DB.players (deletePlayer yesHost "p2" (db sampleApp)) = ["Al"; "Cy"].
Proof.
  assert (Hok : NoDup (Player.name <$> DB.players (db sampleApp)) /\
                Forall (fun p => Player.name p <> "") (DB.players (db sampleApp))).
  { split; [compute_done|]. repeat constructor; compute_done. }
  split_and!.
  - destruct (X9_roster_names_stay_distinct (fun s => s) sampleHost "Bob" "p1"
                sampleApp Hok) as (Hignored & _).
    apply Hignored. right. exists (Player.mk "p2" "Bob"). split; [|reflexivity].
    apply list_elem_of_In. right. left. reflexivity.
  - destruct (X9_roster_names_stay_distinct (fun s => s) sampleHost "Dee" "p1"
                sampleApp Hok) as (_ & Happended & _).
    rewrite Happended; [reflexivity|discriminate|].
    intros (p & Hp & Hname).
    apply list_elem_of_In in Hp. simpl in Hp.
    destruct Hp as [<-|[<-|[<-|[]]]]; discriminate Hname.
  - destruct (X9_roster_names_stay_distinct (fun s => s) yesHost "Dee" "p2"
                sampleApp Hok) as (_ & _ & _ & _ & Hdeleted & _).
    rewrite Hdeleted by reflexivity. vm_compute. reflexivity.
Defined.

(** X10. [nameOf] never yields the empty text: an id outside the roster
    and a player with an empty name both show as a question mark; with
    distinct ids a player with a name shows under it. *)
Theorem X10_nameOf_never_empty (players : list Player.t) (id : string) :
  nameOf players id <> "" /\
  (id ∉ Player.id <$> players -> nameOf players id = "?") /\
  (forall p, NoDup (Player.id <$> players) -> p ∈ players -> Player.id p = id ->
             nameOf players id = if decide (Player.name p = "") then "?" else Player.name p).
Proof.
  unfold nameOf. split_and!.
  - destruct (List.find _ players) as [p|]; [|done]. by case_decide.
  - intros Hout. destruct (List.find _ players) as [p|] eqn:Hfind; [|done].
    apply List.find_some in Hfind as [Hin Hid]. apply bool_decide_eq_true in Hid.
    exfalso. apply Hout. apply list_elem_of_fmap. exists p. split; [done|].
    by apply list_elem_of_In.
  - intros p Hnd Hin Hid.
    assert (List.find (fun p => bool_decide (Player.id p = id)) players = Some p) as ->; [|done].
    induction players as [|q l IH]; [by apply elem_of_nil in Hin|].
    csimpl in Hnd. apply NoDup_cons in Hnd as [Hq Hl]. simpl.
    apply elem_of_cons in Hin as [<-|Hin].
    + by rewrite bool_decide_eq_true_2.
    + rewrite bool_decide_eq_false_2; [by apply IH|].
      intros Heq. apply Hq. apply list_elem_of_fmap. exists p. split; [congruence|done].
Qed.

(** ** The session tab *)

Lemma List_filter_sublist {A} (f : A -> bool) (l : list A) :
  List.filter f l `sublist_of` l.
Proof.
  induction l as [|x l IH]; simpl; [done|].
  destruct (f x); [by apply sublist_skip|by apply sublist_cons].
Qed.

Lemma takenIds_cons (t : SessionTeam.t) (l : list SessionTeam.t) :
  takenIds (t :: l) = SessionTeam.players t ++ takenIds l.
Proof. done. Qed.

Lemma takenIds_snoc (l : list SessionTeam.t) (t : SessionTeam.t) :
  takenIds (l ++ [t]) = takenIds l ++ SessionTeam.players t.
Proof. unfold takenIds. rewrite bind_app, bind_cons. simpl. by rewrite app_nil_r. Qed.

Lemma takenIds_sublist (l1 l2 : list SessionTeam.t) :
  l1 `sublist_of` l2 -> takenIds l1 `sublist_of` takenIds l2.
Proof.
  unfold takenIds. induction 1 as [|t l1 l2 _ IH|t l1 l2 _ IH]; [done| |].
  - rewrite !bind_cons. by apply sublist_app.
  - rewrite bind_cons. by apply sublist_inserts_l.
Qed.

Lemma sublist_Forall' {A} (P : A -> Prop) (l1 l2 : list A) :
  l1 `sublist_of` l2 -> Forall P l2 -> Forall P l1.
Proof.
  intros Hsub Hall. apply Forall_forall. intros x Hx.
  rewrite Forall_forall in Hall. apply Hall.
  by apply (sublist_subseteq _ _ Hsub).
Qed.

Lemma toggleTeamPlayer_sub (perTeam : nat) (id : string) (current : list string) :
  (toggleTeamPlayer perTeam id current `sublist_of` current) \/
  ((id ∉ current) /\ (length current < perTeam)%nat /\
   toggleTeamPlayer perTeam id current = current ++ [id]).
Proof.
  unfold toggleTeamPlayer. case_bool_decide as Hin.
  - left. apply List_filter_sublist.
  - case_bool_decide as Hfull; [by left|]. right. split_and!; [done|lia|done].
Qed.

Lemma availablePlayers_lookup (players : list Player.t) (teams : list SessionTeam.t)
    (i : nat) (p : Player.t) :
  availablePlayers players teams !! i = Some p ->
  (Player.id p ∉ takenIds teams) /\ (Player.id p ∈ Player.id <$> players).
Proof.
  intros Hi. apply list_elem_of_lookup_2, list_elem_of_In, List.filter_In in Hi as [Hin Hfree].
  apply negb_true_iff, bool_decide_eq_false in Hfree. split; [done|].
  apply list_elem_of_fmap. exists p. split; [done|]. by apply list_elem_of_In.
Qed.

Lemma formOk_initial (players : list Player.t) : formOk players initialForm.
Proof.
  unfold formOk, formIds, initialForm, takenIds. simpl.
  split_and!; try (by constructor); try lia; set_solver.
Qed.

Lemma optionValue_options (o : BestOfOption) : optionValue o ∈ [3; 5; 7; 9].
Proof. destruct o; simpl; set_solver. Qed.

Lemma playersPerTeam_sized (mode : Mode) : (1 <= playersPerTeam mode <= 2)%nat.
Proof. destruct mode; simpl; lia. Qed.

(** *** Sessions *)

Lemma undecided_tallies (session : ActiveSession.t) (schedule : list ActiveSessionMatch.t) :
  decided session schedule = false <->
  teamAWins schedule < winsNeeded session /\ teamBWins schedule < winsNeeded session.
Proof.
  unfold decided. rewrite orb_false_iff, !bool_decide_eq_false. lia.
Qed.

Lemma undecided_kings (session : ActiveSession.t) (schedule : list ActiveSessionMatch.t) :
  decided session schedule = false -> kings session schedule = [].
Proof.
  unfold decided, kings, winnerTeam. intros [HA HB]%orb_false_iff. by rewrite HA, HB.
Qed.

Lemma emptySlots_no_wins (schedule : list ActiveSessionMatch.t) :
  Forall emptySlot schedule -> teamAWins schedule = 0 /\ teamBWins schedule = 0.
Proof.
  unfold teamAWins, teamBWins. induction 1 as [|slot l [HA HB] _ IH]; [done|].
  simpl. unfold wonByA, wonByB. rewrite HA. simpl. done.
Qed.

Lemma winsNeeded_options (session : ActiveSession.t) :
  ActiveSession.bestOf session ∈ [3; 5; 7; 9] -> 2 <= winsNeeded session.
Proof.
  unfold winsNeeded. intros Hin.
  repeat (apply elem_of_cons in Hin as [->|Hin]; [vm_compute; discriminate|]).
  by apply elem_of_nil in Hin.
Qed.

Lemma emptySchedule_undecided (session : ActiveSession.t)
    (schedule : list ActiveSessionMatch.t) :
  sessionOk session schedule ->
  decided session (ActiveSession.schedule session) = false.
Proof.
  intros (tA & tB & _ & _ & _ & _ & Hbest & _ & Hempty & _).
  apply undecided_tallies. apply emptySlots_no_wins in Hempty as [-> ->].
  apply winsNeeded_options in Hbest. lia.
Qed.

Lemma sessionOk_reset (session : ActiveSession.t) (schedule : list ActiveSessionMatch.t) :
  sessionOk session schedule -> sessionOk session (ActiveSession.schedule session).
Proof.
  intros (tA & tB & H1 & H2 & H3 & H4 & H5 & H6 & H7 & H8 & H9 & H10).
  exists tA, tB. split_and!; done.
Qed.

Lemma sessionOk_updateScore (session : ActiveSession.t)
    (schedule : list ActiveSessionMatch.t) (matchId : string) (team : Side)
    (score : option Z) :
  sessionOk session schedule ->
  sessionOk session (updateScore matchId team score schedule).
Proof.
  intros (tA & tB & H1 & H2 & H3 & H4 & H5 & H6 & H7 & H8 & H9 & H10).
  exists tA, tB. split_and!; try done.
  - rewrite <- H9. unfold updateScore. rewrite <- list_fmap_compose.
    apply list_fmap_ext. intros i slot _. simpl. case_decide; [|done]. by destruct team.
  - unfold updateScore. apply Forall_fmap. eapply Forall_impl; [exact H10|].
    intros slot [HA HB]. simpl. case_decide; [|done]. by destruct team.
Qed.

Lemma sessionOk_handleStart (host : Host) (form : Form.t) (players : list Player.t)
    (app : App) :
  formOk players form -> length (Form.sessionTeams form) = 2%nat ->
  exists session,
    activeSession (handleStart host (Form.sessionTeams form) (Form.bestOf form)
                     (Form.mode form) app)
      = Some (session, ActiveSession.schedule session) /\
    sessionOk session (ActiveSession.schedule session) /\
    db (handleStart host (Form.sessionTeams form) (Form.bestOf form)
          (Form.mode form) app) = db app.
Proof.
  intros (Hnd & _ & _ & Hsized & _ & Hbest) Hlen.
  destruct (Form.sessionTeams form) as [|tA [|tB [|]]] eqn:Hteams; try done.
  unfold handleStart. cbv zeta.
  set (schedule := _ <$> seq 0 _).
  assert (length schedule = Z.to_nat (Form.bestOf form)) as Hslots.
  { subst schedule. by rewrite length_fmap, length_seq. }
  assert (Forall emptySlot schedule) as Hempty.
  { subst schedule. apply Forall_fmap, Forall_forall. by intros i _. }
  assert (Forall (between tA tB) schedule) as Hbetween.
  { subst schedule. apply Forall_fmap, Forall_forall. by intros i _. }
  clearbody schedule.
  eexists (ActiveSession.mk _ _ _ _). split; [reflexivity|]. split; [|done].
  exists tA, tB.
  unfold formIds in Hnd. rewrite Hteams, !takenIds_cons in Hnd.
  change (takenIds []) with (@nil string) in Hnd. rewrite app_nil_r in Hnd.
  apply NoDup_app in Hnd as [Hnd _].
  apply Forall_cons in Hsized as [HA HB'].
  apply Forall_cons in HB' as [HB _].
  split_and!; try done. simpl. rewrite Hslots.
  repeat (apply elem_of_cons in Hbest as [->|Hbest]; [done|]).
  by apply elem_of_nil in Hbest.
Qed.

Lemma autoFinish_active (host : Host) (app : App) (session : ActiveSession.t)
    (schedule : list ActiveSessionMatch.t) :
  activeSession (autoFinish host app) = Some (session, schedule) ->
  autoFinish host app = app /\ activeSession app = Some (session, schedule) /\
  decided session schedule = false.
Proof.
  unfold autoFinish. destruct (activeSession app) as [[s sch]|] eqn:Hactive; [|congruence].
  destruct (decided s sch) eqn:Hdec.
  - unfold finishSession. simpl. done.
  - rewrite Hactive. intros [= <- <-]. done.
Qed.

Lemma autoFinish_players (host : Host) (app : App) :
  DB.players (db (autoFinish host app)) = DB.players (db app).
Proof.
  unfold autoFinish. destruct (activeSession app) as [[s sch]|]; [|done].
  destruct (decided s sch); [|done]. unfold finishSession. simpl. done.
Qed.

Lemma finishSession_players (host : Host) (session : ActiveSession.t)
    (schedule : list ActiveSessionMatch.t) (isConfirmed : bool) (app : App) :
  DB.players (db (finishSession host session schedule isConfirmed app))
  = DB.players (db app).
Proof. unfold finishSession. by destruct (_ && _). Qed.

Lemma act_players (host : Host) (app : App) (a : Action) :
  DB.players (db (act host app a)) = DB.players (db app).
Proof.
  unfold act. destruct (activeSession app) as [[s sch]|]; [|done].
  destruct a.
  - by rewrite autoFinish_players.
  - apply finishSession_players.
  - by destruct (confirmAnswer host).
Qed.

(** The session half of the invariant after the display's effect ran. *)
Lemma autoFinish_inv (host : Host) (app : App) :
  match activeSession app with
  | Some (session, schedule) => sessionOk session schedule
  | None => True
  end ->
  match activeSession (autoFinish host app) with
  | Some (session, schedule) =>
      sessionOk session schedule /\ decided session schedule = false
  | None => True
  end.
Proof.
  intros Hok. destruct (activeSession (autoFinish host app)) as [[s sch]|] eqn:Hafter; [|done].
  apply autoFinish_active in Hafter as (_ & Hactive & Hdec).
  rewrite Hactive in Hok. done.
Qed.

Section session_tab.
Variable trim : string -> string.

Lemma formStep_inv (host : Host) (app : App) (form : Form.t) (e : FormEvent) :
  activeSession app = None -> formOk (DB.players (db app)) form ->
  inv (formStep trim host app form e).
Proof.
  intros Hnone Hok. pose proof Hok as (Hnd & Hin & Hteams & Hsized & Hsel & Hbest).
  unfold inv. destruct e; simpl.
  - (* PickMode *)
    rewrite Hnone. split; [|done]. unfold formOk, formIds in *. simpl.
    split_and!; try done.
    + rewrite app_nil_r. by apply NoDup_app in Hnd as [? _].
    + rewrite app_nil_r. by apply Forall_app in Hin as [? _].
    + lia.
  - (* PickBestOf *)
    rewrite Hnone. split; [|done]. unfold formOk, formIds in *. simpl.
    split_and!; try done. apply optionValue_options.
  - (* TypeTeamName *)
    rewrite Hnone. split; [|done]. done.
  - (* ClickPlayer *)
    destruct (availablePlayers _ _ !! i) as [p|] eqn:Hp; simpl; rewrite Hnone;
      (split; [|done]); [|done].
    apply availablePlayers_lookup in Hp as [Hfree Hroster].
    unfold formOk, formIds in *. simpl.
    destruct (toggleTeamPlayer_sub (playersPerTeam (Form.mode form)) (Player.id p)
                (Form.teamPlayers form)) as [Hsub|(Hnew & Hroom & ->)].
    + split_and!; try done.
      * eapply sublist_NoDup; [exact Hnd|]. by apply sublist_app.
      * eapply sublist_Forall'; [|exact Hin]. by apply sublist_app.
      * apply sublist_length in Hsub. lia.
    + split_and!; try done.
      * rewrite app_assoc. apply NoDup_app. split_and!; [done| |apply NoDup_singleton].
        intros x Hx ->%list_elem_of_singleton.
        apply elem_of_app in Hx as [Hx|Hx]; done.
      * rewrite app_assoc. apply Forall_app. split; [done|]. by apply Forall_singleton.
      * rewrite length_app. simpl. lia.
  - (* ClickAddTeam *)
    destruct (bool_decide (length (Form.teamPlayers form) <> _) || _) eqn:Hdisabled;
      simpl; [by rewrite Hnone|].
    apply orb_false_iff in Hdisabled as [Hfull Hroom].
    apply bool_decide_eq_false in Hfull. apply bool_decide_eq_false in Hroom.
    unfold addTeam. rewrite bool_decide_eq_false_2 by done. simpl.
    rewrite Hnone. split; [|done].
    unfold formOk, formIds in *. simpl.
    rewrite takenIds_snoc, app_nil_r.
    split_and!; try done.
    + rewrite length_app. simpl. lia.
    + apply Forall_app. split; [done|]. apply Forall_singleton.
      unfold teamSized. simpl. pose proof (playersPerTeam_sized (Form.mode form)). lia.
    + lia.
  - (* ClickRemoveTeam *)
    destruct (Form.sessionTeams form !! i) as [team|]; simpl; rewrite Hnone;
      (split; [|done]); [|done].
    unfold formOk, formIds in *. simpl.
    pose proof (List_filter_sublist
                  (fun t => negb (bool_decide (SessionTeam.id t = SessionTeam.id team)))
                  (Form.sessionTeams form)) as Hsub.
    split_and!; try done.
    + eapply sublist_NoDup; [exact Hnd|]. apply sublist_app; [|done].
      by apply takenIds_sublist.
    + eapply sublist_Forall'; [|exact Hin]. apply sublist_app; [|done].
      by apply takenIds_sublist.
    + apply sublist_length in Hsub. lia.
    + by eapply sublist_Forall'.
  - (* ClickStart *)
    case_bool_decide as Hlen; simpl; [by rewrite Hnone|].
    assert (length (Form.sessionTeams form) = 2%nat) as Hlen' by lia.
    destruct (sessionOk_handleStart host form _ app Hok Hlen') as (session & Hactive & Hsession & Hdb).
    unfold startSession. split.
    + rewrite autoFinish_players, Hdb. apply formOk_initial.
    + apply autoFinish_inv. by rewrite Hactive.
Qed.

Lemma otherStep_activeSession (host : Host) (app : App) (e : OtherEvent) :
  activeSession (otherStep trim host app e) = activeSession app.
Proof.
  destruct e; simpl; try done.
  - unfold addViolation. by case_decide.
  - unfold addPlayer. by destruct (_ && _).
Qed.

Lemma mountDisplay_inv (host : Host) (app : App) :
  match activeSession app with
  | Some (session, schedule) => sessionOk session schedule
  | None => True
  end ->
  inv (mountDisplay host app, initialForm).
Proof.
  intros Hok. split; [apply formOk_initial|]. simpl. unfold mountDisplay.
  destruct (activeSession app) as [[s sch]|] eqn:Hactive; [|by rewrite Hactive].
  apply autoFinish_inv. simpl. by eapply sessionOk_reset.
Qed.

Lemma act_inv (host : Host) (app : App) (a : Action) :
  match activeSession app with
  | Some (session, schedule) =>
      sessionOk session schedule /\ decided session schedule = false
  | None => True
  end ->
  match activeSession (act host app a) with
  | Some (session, schedule) =>
      sessionOk session schedule /\ decided session schedule = false
  | None => True
  end.
Proof.
  intros Hok. unfold act.
  destruct (activeSession app) as [[s sch]|] eqn:Hactive; [|by rewrite Hactive].
  destruct Hok as [Hsession Hdec]. destruct a.
  - apply autoFinish_inv. simpl. by apply sessionOk_updateScore.
  - unfold finishSession. destruct (_ && _); [by rewrite Hactive|done].
  - destruct (confirmAnswer host); [done|by rewrite Hactive].
Qed.

Lemma step_inv (s : App * Form.t) (he : Host * Event) : inv s -> inv (step trim s he).
Proof.
  destruct s as [app form], he as [host e]. intros [Hform Hsession]. simpl in *.
  destruct e as [fe|a|oe]; simpl.
  - destruct (activeSession app) as [[s sch]|] eqn:Hactive.
    + split; [done|]. simpl. by rewrite Hactive.
    + by apply formStep_inv.
  - split; simpl.
    + by rewrite act_players.
    + by apply act_inv.
  - apply mountDisplay_inv. rewrite otherStep_activeSession.
    destruct (activeSession app) as [[s sch]|]; [|done]. by destruct Hsession.
Qed.

Lemma run_inv (db0 : DB.t) (events : list (Host * Event)) : inv (run trim db0 events).
Proof.
  unfold run.
  assert (Hgen : forall s, inv s -> inv (foldl (step trim) s events)).
  { induction events as [|he l IH]; intros s Hs; [done|].
    simpl. apply IH. by apply step_inv. }
  apply Hgen. split; [apply formOk_initial|done].
Qed.
End session_tab.

(** *** Matches saved by sessions *)

Lemma newMatches_wellFormed (host : Host) (session : ActiveSession.t)
    (schedule : list ActiveSessionMatch.t) (count : nat) :
  sessionOk session schedule ->
  Forall wellFormedMatch (newMatches host session schedule count).
Proof.
  intros (tA & tB & _ & Hnd & _ & _ & _ & _ & _ & _ & _ & Hbetween).
  unfold newMatches. apply Forall_imap. intros i slot Hslot.
  apply list_elem_of_lookup_2, list_elem_of_In, List.filter_In in Hslot as [Hin _].
  apply list_elem_of_In in Hin. rewrite Forall_forall in Hbetween.
  destruct (Hbetween slot Hin) as [HA HB].
  unfold wellFormedMatch, toMatch. simpl. by rewrite HA, HB.
Qed.

Lemma finishSession_wellFormed (host : Host) (session : ActiveSession.t)
    (schedule : list ActiveSessionMatch.t) (isConfirmed : bool) (app : App) :
  sessionOk session schedule ->
  Forall wellFormedMatch (DB.matches (db app)) ->
  Forall wellFormedMatch
    (DB.matches (db (finishSession host session schedule isConfirmed app))).
Proof.
  intros Hok Hwf. unfold finishSession. destruct (_ && _); [done|]. simpl.
  apply Forall_app. split; [done|]. by apply newMatches_wellFormed.
Qed.

Lemma autoFinish_wellFormed (host : Host) (app : App) :
  match activeSession app with
  | Some (session, schedule) => sessionOk session schedule
  | None => True
  end ->
  Forall wellFormedMatch (DB.matches (db app)) ->
  Forall wellFormedMatch (DB.matches (db (autoFinish host app))).
Proof.
  intros Hok Hwf. unfold autoFinish.
  destruct (activeSession app) as [[s sch]|]; [|done].
  destruct (decided s sch); [|done]. by apply finishSession_wellFormed.
Qed.

Section session_tab_matches.
Variable trim : string -> string.

Lemma otherStep_matches (host : Host) (app : App) (e : OtherEvent) :
  DB.matches (db (otherStep trim host app e)) `sublist_of` DB.matches (db app).
Proof.
  destruct e; simpl; try done.
  - unfold addViolation. by case_decide.
  - unfold deleteMatch. destruct (confirmAnswer host); [|done]. simpl.
    apply List_filter_sublist.
  - unfold removeKingTitle. by destruct (confirmAnswer host).
  - unfold addPlayer. by destruct (_ && _).
  - unfold deletePlayer. by destruct (confirmAnswer host).
Qed.

Lemma step_wellFormed (s : App * Form.t) (he : Host * Event) :
  inv s ->
  Forall wellFormedMatch (DB.matches (db s.1)) ->
  Forall wellFormedMatch (DB.matches (db (step trim s he).1)).
Proof.
  destruct s as [app form], he as [host e]. intros [Hform Hsession] Hwf. simpl in *.
  destruct e as [fe|a|oe]; simpl.
  - destruct (activeSession app) as [[s sch]|] eqn:Hactive; [done|].
    destruct fe; simpl; try done.
    + by destruct (availablePlayers _ _ !! i).
    + destruct (_ || _); [done|]. unfold addTeam. by case_bool_decide.
    + by destruct (Form.sessionTeams form !! i).
    + case_bool_decide as Hlen; [done|]. simpl.
      assert (length (Form.sessionTeams form) = 2%nat) as Hlen' by lia.
      destruct (sessionOk_handleStart host form _ app Hform Hlen')
        as (session & Hstarted & Hok & Hdb).
      unfold startSession. apply autoFinish_wellFormed.
      * by rewrite Hstarted.
      * by rewrite Hdb.
  - unfold act. destruct (activeSession app) as [[s sch]|] eqn:Hactive; [|done].
    destruct Hsession as [Hok _]. destruct a.
    + apply autoFinish_wellFormed; [|done]. simpl. by apply sessionOk_updateScore.
    + by apply finishSession_wellFormed.
    + by destruct (confirmAnswer host).
  - unfold mountDisplay. rewrite otherStep_activeSession.
    assert (Forall wellFormedMatch (DB.matches (db (otherStep trim host app oe)))) as Hwf'.
    { eapply sublist_Forall'; [apply otherStep_matches|done]. }
    destruct (activeSession app) as [[s sch]|] eqn:Hactive.
    + apply autoFinish_wellFormed; [|done]. simpl. destruct Hsession as [Hok _].
      by eapply sessionOk_reset.
    + done.
Qed.

(** X11. On the session form no player is ever held twice: through any
    sequence of events the ids of the teams built so far and of the
    current selection are pairwise distinct ids of the roster, there are
    at most two teams of one or two players each, the selection never
    exceeds the team size of the mode, and the series length is 3, 5, 7
    or 9. *)
Theorem X11_form_never_holds_a_player_twice (db0 : DB.t) (events : list (Host * Event)) :
  formOk (DB.players (db (run trim db0 events).1)) (run trim db0 events).2.
Proof. by destruct (run_inv trim db0 events) as [Hform _]. Qed.

(** X12. Whatever the user did before, a session that is active was
    started from two disjoint teams of one or two players over 3, 5, 7 or
    9 slots; its stored schedule has that many empty slots between the
    two teams, the schedule on display has the same slots, and neither
    tally has reached the threshold. *)
Theorem X12_active_session_shape (db0 : DB.t) (events : list (Host * Event))
    (session : ActiveSession.t) (schedule : list ActiveSessionMatch.t) :
  activeSession (run trim db0 events).1 = Some (session, schedule) ->
  sessionOk session schedule /\
  teamAWins schedule < winsNeeded session /\
  teamBWins schedule < winsNeeded session.
Proof.
  intros Hactive. destruct (run_inv trim db0 events) as [_ Hsession].
  rewrite Hactive in Hsession. destruct Hsession as [Hok Hdec].
  split; [done|]. by apply undecided_tallies.
Qed.

(** X13. The finish button never crowns anyone: a decided series is
    finalized by the display's effect before the user can act, so a
    confirmed manual finish always appends a king session without kings. *)
Theorem X13_manual_finish_never_crowns (db0 : DB.t) (events : list (Host * Event))
    (session : ActiveSession.t) (schedule : list ActiveSessionMatch.t) (host : Host) :
  activeSession (run trim db0 events).1 = Some (session, schedule) ->
  confirmAnswer host = true ->
  let app := (run trim db0 events).1 in
  let app' := (step trim (run trim db0 events) (host, OnDisplay PressFinish)).1 in
  activeSession app' = None /\
  DB.kingSessions (db app') =
    DB.kingSessions (db app) ++
      [KingSession.mk (uidAt host (uidCount app)) (nowISO host) []
         (ActiveSession.bestOf session) (ActiveSession.mode session) (Some "Session")].
Proof.
  intros Hactive Hyes app app'. subst app app'.
  destruct (run_inv trim db0 events) as [_ Hsession].
  destruct (run trim db0 events) as [app form]. simpl in *.
  rewrite Hactive in Hsession. destruct Hsession as [_ Hdec].
  unfold act. rewrite Hactive. unfold finishSession. rewrite Hyes, andb_false_r. simpl.
  split; [done|]. unfold newKingSession. by rewrite undecided_kings.
Qed.

(** X14. Leaving the session tab discards the scores entered: whatever
    was done on another tab, on return the active session is still there
    and its display starts again from the stored schedule, whose slots
    are all empty. *)
Theorem X14_tab_switch_discards_scores (db0 : DB.t) (events : list (Host * Event))
    (session : ActiveSession.t) (schedule : list ActiveSessionMatch.t)
    (host : Host) (e : OtherEvent) :
  activeSession (run trim db0 events).1 = Some (session, schedule) ->
  activeSession (step trim (run trim db0 events) (host, Elsewhere e)).1
    = Some (session, ActiveSession.schedule session) /\
  Forall emptySlot (ActiveSession.schedule session).
Proof.
  intros Hactive. destruct (run_inv trim db0 events) as [_ Hsession].
  destruct (run trim db0 events) as [app form]. simpl in *.
  rewrite Hactive in Hsession. destruct Hsession as [Hok _].
  pose proof (emptySchedule_undecided _ _ Hok) as Hdec.
  unfold mountDisplay. rewrite otherStep_activeSession, Hactive.
  unfold autoFinish. simpl. rewrite Hdec. simpl. split; [done|].
  by destruct Hok as (tA & tB & _ & _ & _ & _ & _ & _ & Hempty & _).
Qed.

(** X15. Sessions only save matches whose two player lists are duplicate
    free and disjoint: if the stored matches are so when the application
    opens, they are so after any sequence of events. *)
Theorem X15_saved_matches_stay_well_formed (db0 : DB.t) (events : list (Host * Event)) :
  Forall wellFormedMatch (DB.matches db0) ->
  Forall wellFormedMatch (DB.matches (db (run trim db0 events).1)).
Proof.
  intros Hwf. unfold run.
  assert (Hgen : forall s, inv s -> Forall wellFormedMatch (DB.matches (db s.1)) ->
            Forall wellFormedMatch (DB.matches (db (foldl (step trim) s events).1))).
  { induction events as [|he l IH]; intros s Hs Hs'; [done|].
    simpl. apply IH; [by apply step_inv|by apply step_wellFormed]. }
  apply Hgen; [|done]. split; [apply formOk_initial|done].
Qed.
End session_tab_matches.

Lemma X12_active_session_shape_witness :
  exists session schedule,
    activeSession (run (fun s => s) sampleDB sampleScores).1 = Some (session, schedule) /\
    sessionOk session schedule.
Proof.
  eexists _, _. split; [reflexivity|].
  apply (X12_active_session_shape (fun s => s) sampleDB sampleScores). reflexivity.
Defined.

Lemma X13_manual_finish_never_crowns_witness :
  KingSession.kings <$>
    DB.kingSessions
      (db (step (fun s => s) (run (fun s => s) sampleDB sampleScores)
             (yesHost, OnDisplay PressFinish)).1)
  = [[]].
Proof.
  pose proof (X13_manual_finish_never_crowns (fun s => s) sampleDB sampleScores _ _ yesHost
                eq_refl eq_refl) as [_ Hsessions].
  rewrite Hsessions. reflexivity.
Defined.

Lemma X14_tab_switch_discards_scores_witness :
  exists session schedule,
    activeSession (run (fun s => s) sampleDB sampleScores).1 = Some (session, schedule) /\
    schedule <> ActiveSession.schedule session /\
    activeSession (step (fun s => s) (run (fun s => s) sampleDB sampleScores)
                     (sampleHost, Elsewhere LookOnly)).1
      = Some (session, ActiveSession.schedule session).
Proof.
  eexists _, _. split; [reflexivity|]. split; [discriminate|].
  eapply proj1.
  eapply (X14_tab_switch_discards_scores (fun s => s) sampleDB sampleScores _ _
            sampleHost LookOnly).
  reflexivity.
Defined.

Lemma X15_saved_matches_stay_well_formed_witness :
  Forall wellFormedMatch
    (DB.matches (db (run (fun s => s) sampleLeague
                       (sampleScores ++
                          [(sampleHost, OnDisplay (EnterScore (uidAt sampleHost 3) SideA (Some 1)));
                           (sampleHost, OnDisplay (EnterScore (uidAt sampleHost 3) SideB (Some 0)))])).1)).
Proof.
  apply (X15_saved_matches_stay_well_formed (fun s => s) sampleLeague).
  unfold sampleLeague, sampleMatches, wellFormedMatch. repeat apply Forall_cons_2; simpl.
  - compute_done.
  - compute_done.
  - apply Forall_nil_2.
Defined.

(** *** Standings after a finalization *)

Lemma computeStandings_app_row (players : list Player.t) (ms ms' : list Match.t)
    (i : nat) (r : Row.t) :
  computeStandings players ms !! i = Some r ->
  computeStandings players (ms ++ ms') !! i
    = Some (rowPlus r (totalTally ms' (Row.id r))).
Proof.
  rewrite !computeStandings_tally, !list_lookup_fmap.
  destruct (initMap players !! i) as [[k s]|] eqn:Hi; simpl; [|done].
  intros [= <-]. f_equal.
  assert (Hk : Stat.id s = k).
  { pose proof (proj2 (initMap_inv keyed players ltac:(done))) as Hkeyed.
    by apply (Forall_lookup_1 _ _ _ _ Hkeyed Hi). }
  rewrite <- toRow_applyTally_add. simpl. rewrite Hk. by rewrite totalTally_app.
Qed.

Lemma tallyScale_add (n : Z) (a b : Tally) :
  tallyScale n (tallyAdd a b) = tallyAdd (tallyScale n a) (tallyScale n b).
Proof. unfold tallyScale, tallyAdd. simpl. f_equal; lia. Qed.

Lemma tallyScale_zero (n : Z) : tallyScale n tallyZero = tallyZero.
Proof. unfold tallyScale, tallyZero. simpl. f_equal; lia. Qed.

Lemma totalTally_imap {A} (f : nat -> A -> Match.t) (g : A -> Tally) (l : list A)
    (pid : string) :
  (forall i x, matchTally (f i x) pid = g x) ->
  totalTally (imap f l) pid = foldr (fun x acc => tallyAdd (g x) acc) tallyZero l.
Proof.
  revert f. induction l as [|x l IH]; intros f Hf; [done|].
  csimpl. rewrite Hf. f_equal. apply IH. intros i y. apply Hf.
Qed.

Lemma newMatches_tally (host : Host) (session : ActiveSession.t)
    (schedule : list ActiveSessionMatch.t) (count : nat) (tA tB : SessionTeam.t)
    (pid : string) :
  Forall (between tA tB) schedule ->
  totalTally (newMatches host session schedule count) pid
    = seriesCredit tA tB schedule pid.
Proof.
  intros Hbetween. unfold newMatches.
  rewrite (totalTally_imap _
             (fun slot => matchTally (toMatch host session count (uidAt host count) 0 slot) pid))
    by done.
  unfold seriesCredit.
  induction Hbetween as [|slot l [HA HB] _ IH]; simpl.
  - by rewrite !tallyScale_zero.
  - rewrite !tallyScale_add.
    destruct (filled slot) eqn:Hfilled; simpl; rewrite IH.
    + apply filled_scores in Hfilled as (a & b & Ha & Hb).
      unfold matchTally, toMatch, slotTallyA, slotTallyB. simpl.
      rewrite Ha, Hb, HA, HB. simpl. apply tally_eq; simpl; lia.
    + unfold slotTallyA, slotTallyB. unfold filled in Hfilled.
      destruct (ActiveSessionMatch.goalsA slot), (ActiveSessionMatch.goalsB slot);
        try done; rewrite !tallyScale_zero; apply tally_eq; simpl; lia.
Qed.

Lemma seriesTally_wins (schedule : list ActiveSessionMatch.t) :
  t_wins (seriesTallyA schedule) = teamAWins schedule /\
  t_losses (seriesTallyA schedule) = teamBWins schedule /\
  t_wins (seriesTallyB schedule) = teamBWins schedule /\
  t_losses (seriesTallyB schedule) = teamAWins schedule /\
  t_played (seriesTallyA schedule) = Z.of_nat (length (List.filter filled schedule)) /\
  t_played (seriesTallyB schedule) = Z.of_nat (length (List.filter filled schedule)).
Proof.
  induction schedule as [|slot l (IH1 & IH2 & IH3 & IH4 & IH5 & IH6)]; [done|].
  rewrite teamAWins_cons, teamBWins_cons. simpl.
  rewrite IH1, IH2, IH3, IH4, IH5, IH6.
  unfold slotTallyA, slotTallyB, slotCredit, filled.
  destruct (ActiveSessionMatch.goalsA slot) as [a|],
           (ActiveSessionMatch.goalsB slot) as [b|]; simpl;
    repeat case_decide; lia.
Qed.

(** X16. A finalization that goes through credits the series to the
    table: every row of the standings grows by the filled slots' results,
    once per listing of the player in the first team from that team's
    side and once per listing in the second team from the other side.
    The wins so credited to the first team are its tally, its losses the
    second team's tally, and its played games the number of filled
    slots; players of neither team keep their row. *)
Theorem X16_finalization_credits_the_series
    (host : Host) (session : ActiveSession.t) (schedule : list ActiveSessionMatch.t)
    (isConfirmed : bool) (app : App) (tA tB : SessionTeam.t) (i : nat) (r : Row.t) :
  proceeds host session schedule isConfirmed ->
  Forall (between tA tB) schedule ->
  computeStandings (DB.players (db app)) (DB.matches (db app)) !! i = Some r ->
  let app' := finishSession host session schedule isConfirmed app in
  computeStandings (DB.players (db app')) (DB.matches (db app')) !! i
    = Some (rowPlus r (seriesCredit tA tB schedule (Row.id r))) /\
  (Row.id r ∉ SessionTeam.players tA ++ SessionTeam.players tB ->
   rowPlus r (seriesCredit tA tB schedule (Row.id r)) = r) /\
  t_wins (seriesTallyA schedule) = teamAWins schedule /\
  t_losses (seriesTallyA schedule) = teamBWins schedule /\
  t_wins (seriesTallyB schedule) = teamBWins schedule /\
  t_losses (seriesTallyB schedule) = teamAWins schedule /\
  t_played (seriesTallyA schedule) = Z.of_nat (length (List.filter filled schedule)) /\
  t_played (seriesTallyB schedule) = Z.of_nat (length (List.filter filled schedule)).
Proof.
  intros Hgo Hbetween Hrow app'. subst app'.
  destruct (finishSession_appends host session schedule isConfirmed app Hgo) as [_ Hms].
  rewrite finishSession_players, Hms.
  split; [|split; [|apply seriesTally_wins]].
  - rewrite (computeStandings_app_row _ _ _ _ _ Hrow).
    by rewrite (newMatches_tally _ _ _ _ tA tB).
  - intros Hout. apply not_elem_of_app in Hout as [HA HB].
    assert (Hnone : forall team, Row.id r ∉ team -> appearances (Row.id r) team = 0).
    { intros team Hteam. unfold appearances.
      induction team as [|x team IH]; [done|]. simpl.
      apply not_elem_of_cons in Hteam as [Hx Hteam].
      rewrite bool_decide_eq_false_2 by done. by apply IH. }
    unfold seriesCredit. rewrite (Hnone _ HA), (Hnone _ HB).
    destruct r. unfold rowPlus, tallyAdd, tallyScale. simpl. f_equal; lia.
Qed.

Lemma X16_finalization_credits_the_series_witness :
  (fun r => (Row.name r, Row.played r, Row.wins r, Row.points r)) <$>
    computeStandings
      (DB.players (db (finishSession yesHost sampleSession sampleSchedule false sampleSeries)))
      (DB.matches (db (finishSession yesHost sampleSession sampleSchedule false sampleSeries)))
      !! 0%nat
  = Some ("Al", 2, 1, 4).
Proof.
  destruct (X16_finalization_credits_the_series yesHost sampleSession sampleSchedule false
              sampleSeries teamAl teamBob 0%nat
              (expectedRow sampleMatches (Player.mk "p1" "Al")))
    as [Hrow _].
  - right. right. reflexivity.
  - repeat constructor.
  - reflexivity.
  - rewrite Hrow. reflexivity.
Defined.

(** *** Display orders *)

Lemma arraySort_all_equal {A} (comparefn : A -> A -> Z) (l : list A) :
  (forall a b, a ∈ l -> b ∈ l -> comparefn a b <= 0) -> arraySort comparefn l = l.
Proof.
  induction l as [|x l IH]; intros Heq; [done|]. simpl.
  rewrite IH by (intros a b Ha Hb; apply Heq; by right).
  apply insertSorted_head. apply Forall_forall. intros z Hz.
  apply Heq; [left|by right].
Qed.

Lemma byDateDesc_total getTime a b :
  byDateDesc getTime a b > 0 -> byDateDesc getTime b a <= 0.
Proof. unfold byDateDesc. lia. Qed.

Lemma byDateDesc_trans getTime a b c :
  byDateDesc getTime a b <= 0 -> byDateDesc getTime b c <= 0 ->
  byDateDesc getTime a c <= 0.
Proof. unfold byDateDesc. lia. Qed.

(** X17. The history lists every match and every king session exactly
    once, newest first; entries of the same instant keep their stored
    order with the matches before the king sessions, so the matches a
    session saved stand directly before its king session. *)
Theorem X17_combinedHistory_newest_first (getTime : string -> Z) (db : DB.t) :
  combinedHistory getTime db ≡ₚ historyItems db /\
  (forall i j a b,
     (i < j)%nat -> combinedHistory getTime db !! i = Some a ->
     combinedHistory getTime db !! j = Some b ->
     getTime (itemDate b) <= getTime (itemDate a)) /\
  (forall t, List.filter (atInstant getTime t) (combinedHistory getTime db)
             = List.filter (atInstant getTime t) (historyItems db)).
Proof.
  unfold combinedHistory. fold (historyItems db). split_and!.
  - apply arraySort_Permutation.
  - intros i j a b Hij Ha Hb.
    pose proof (arraySort_lookup_le (byDateDesc getTime) (byDateDesc_total getTime)
                  (byDateDesc_trans getTime) _ i j a b Hij Ha Hb) as Hle.
    unfold byDateDesc in Hle. lia.
  - intros t.
    rewrite (arraySort_filter (byDateDesc getTime) (byDateDesc_total getTime)
               (byDateDesc_trans getTime)).
    apply arraySort_all_equal. intros a b Ha Hb.
    apply list_elem_of_In, List.filter_In in Ha as [_ Ha].
    apply list_elem_of_In, List.filter_In in Hb as [_ Hb].
    unfold atInstant in *. apply bool_decide_eq_true in Ha, Hb.
    unfold byDateDesc. lia.
Qed.

Lemma comparePlayerStats_total a b :
  comparePlayerStats a b > 0 -> comparePlayerStats b a <= 0.
Proof. unfold comparePlayerStats, orElse. repeat case_decide; lia. Qed.

Lemma comparePlayerStats_trans a b c :
  comparePlayerStats a b <= 0 -> comparePlayerStats b c <= 0 ->
  comparePlayerStats a c <= 0.
Proof. unfold comparePlayerStats, orElse. repeat case_decide; lia. Qed.

(** X18. The statistics list every roster player exactly once, with the
    longest streak read from the king information (zero when absent) and
    the number of violations that name the player's id, ordered by
    longest streak from high to low and, among equal streaks, by
    violations from low to high. *)
Theorem X18_playerStats_order (db : DB.t) (kingInfo : KingInfo.t) :
  playerStats db kingInfo ≡ₚ
    (fun p => PlayerStat.mk (Player.id p) (Player.name p)
                (orZero (KingInfo.longestStreaks kingInfo !! Player.id p))
                (violationsOf (DB.violations db) (Player.id p)))
      <$> DB.players db /\
  (forall i j a b,
     (i < j)%nat -> playerStats db kingInfo !! i = Some a ->
     playerStats db kingInfo !! j = Some b -> statsOrdered a b).
Proof.
  unfold playerStats. split.
  - rewrite arraySort_Permutation.
    erewrite list_fmap_ext; [done|]. intros i p Hp. simpl. f_equal.
    unfold violationCounts. rewrite countViolation_loop, violation_init_lookup.
    rewrite decide_True; [done|].
    apply list_elem_of_fmap. exists p. split; [done|]. by eapply list_elem_of_lookup_2.
  - intros i j a b Hij Ha Hb.
    pose proof (arraySort_lookup_le comparePlayerStats comparePlayerStats_total
                  comparePlayerStats_trans _ i j a b Hij Ha Hb) as Hle.
    unfold comparePlayerStats, orElse, statsOrdered in *. case_decide; lia.
Qed.

Section title_table.
Variable localeCompare : string -> string -> Z.
Hypothesis localeCompare_total :
  forall a b, localeCompare a b > 0 -> localeCompare b a <= 0.
Hypothesis localeCompare_trans :
  forall a b c, localeCompare a b <= 0 -> localeCompare b c <= 0 ->
                localeCompare a c <= 0.

Lemma compareTitles_total a b :
  compareTitles localeCompare a b > 0 -> compareTitles localeCompare b a <= 0.
Proof.
  unfold compareTitles, orElse.
  pose proof (localeCompare_total (TitleCount.name a) (TitleCount.name b)).
  repeat case_decide; lia.
Qed.

Lemma compareTitles_trans a b c :
  compareTitles localeCompare a b <= 0 -> compareTitles localeCompare b c <= 0 ->
  compareTitles localeCompare a c <= 0.
Proof.
  unfold compareTitles, orElse.
  pose proof (localeCompare_trans (TitleCount.name a) (TitleCount.name b)
                (TitleCount.name c)).
  repeat case_decide; lia.
Qed.

(** X19. Under a collation that is a total preorder and with distinct
    roster ids, the title table lists every roster player exactly once
    with the player's number of titles, ordered by titles from high to
    low and, among equal titles, by name. *)
Theorem X19_titleTable_order (db : DB.t) :
  NoDup (Player.id <$> DB.players db) ->
  titleTable localeCompare db ≡ₚ
    (fun p => TitleCount.mk (Player.id p) (Player.name p)
                (titlesOf (DB.kingSessions db) (Player.id p)))
      <$> DB.players db /\
  (forall i j a b,
     (i < j)%nat -> titleTable localeCompare db !! i = Some a ->
     titleTable localeCompare db !! j = Some b -> titlesOrdered localeCompare a b).
Proof.
  intros Hnd. unfold titleTable. split.
  - rewrite arraySort_Permutation. unfold sessionCounts, initTitles.
    rewrite (foldl_map_set_NoDup Player.id
               (fun p => TitleCount.mk (Player.id p) (Player.name p) 0)) by done.
    rewrite titles_loop.
    + rewrite <- !list_fmap_compose. erewrite list_fmap_ext; [done|]. by intros i p _.
    + rewrite <- list_fmap_compose. exact Hnd.
  - intros i j a b Hij Ha Hb.
    pose proof (arraySort_lookup_le (compareTitles localeCompare) compareTitles_total
                  compareTitles_trans _ i j a b Hij Ha Hb) as Hle.
    unfold compareTitles, orElse, titlesOrdered in *. case_decide; lia.
Qed.
End title_table.

Lemma X19_titleTable_order_witness :
  (fun r => (TitleCount.name r, TitleCount.wins r)) <$> titleTable codeUnitCompare sampleTitles
  ≡ₚ [("Al", 2); ("Bob", 1); ("Cy", 0)].
Proof.
  destruct (X19_titleTable_order codeUnitCompare codeUnitCompare_total
              codeUnitCompare_trans sampleTitles ltac:(compute_done)) as [Hperm _].
  rewrite Hperm. reflexivity.
Defined.

(** *** Header *)

Lemma byStreakDesc_total a b : byStreakDesc a b > 0 -> byStreakDesc b a <= 0.
Proof. unfold byStreakDesc. lia. Qed.

Lemma byStreakDesc_trans a b c :
  byStreakDesc a b <= 0 -> byStreakDesc b c <= 0 -> byStreakDesc a c <= 0.
Proof. unfold byStreakDesc. lia. Qed.

Lemma titleFor_headline (streak : Z) (names : string) :
  titleFor streak +:+ ": " +:+ names <> "Der Thron ist leer".
Proof.
  unfold titleFor, KING_TITLES.
  destruct streak as [|p|p]; try (simpl; discriminate).
  do 4 (try destruct p as [p|p|]); simpl; discriminate.
Qed.

(** X20. The header shows the empty-throne text exactly when there is no
    current king.  Otherwise it names every current king once, in the
    order of their streaks from high to low, under the title of the
    highest streak. *)
Theorem X20_kingTitle_of_the_highest_streak (kingInfo : KingInfo.t) :
  (kingTitle kingInfo = "Der Thron ist leer" <-> KingInfo.currentKings kingInfo = []) /\
  (KingInfo.currentKings kingInfo <> [] ->
   exists topKing rest,
     topKing :: rest ≡ₚ KingInfo.currentKings kingInfo /\
     Forall (fun k => CurrentKing.streak k <= CurrentKing.streak topKing)
            (KingInfo.currentKings kingInfo) /\
     StronglySorted (fun a b => CurrentKing.streak b <= CurrentKing.streak a)
                    (topKing :: rest) /\
     kingTitle kingInfo =
       titleFor (CurrentKing.streak topKing) +:+ ": " +:+
       join " & " (kingLabel <$> topKing :: rest)).
Proof.
  unfold kingTitle.
  pose proof (arraySort_Permutation byStreakDesc (KingInfo.currentKings kingInfo)) as Hperm.
  pose proof (arraySort_sorted byStreakDesc byStreakDesc_total byStreakDesc_trans
                (KingInfo.currentKings kingInfo)) as Hsorted.
  destruct (KingInfo.currentKings kingInfo) as [|k ks] eqn:Hkings.
  { split; [done|]. by intros []. }
  rewrite <- Hkings in *.
  destruct (arraySort byStreakDesc (KingInfo.currentKings kingInfo))
    as [|topKing rest] eqn:Hsort.
  { rewrite Hkings in Hperm. by apply Permutation_nil_cons in Hperm. }
  rewrite Hkings at 1 2. split.
  - split; [|done]. intros Heq. by apply titleFor_headline in Heq.
  - intros _. exists topKing, rest. split_and!; try done.
    + rewrite <- Hperm. apply Forall_cons. split; [lia|].
      apply StronglySorted_inv in Hsorted as [_ Hall].
      eapply Forall_impl; [exact Hall|]. intros b Hb. unfold byStreakDesc in Hb. lia.
    + clear -Hsorted. induction Hsorted as [|a l _ IH Hall]; constructor; [done|].
      eapply Forall_impl; [exact Hall|]. intros b Hb. unfold byStreakDesc in Hb. lia.
Qed.

(** *** Persistence *)

Lemma map_get_app {V} (k : string) (l1 l2 : list (string * V)) :
  map_get k (l1 ++ l2) =
    match map_get k l1 with Some v => Some v | None => map_get k l2 end.
Proof.
  induction l1 as [|[k' v'] l1 IH]; simpl; [done|]. by case_decide.
Qed.

Lemma map_get_None {V} (k : string) (l : list (string * V)) :
  map_get k l = None <-> k ∉ l.*1.
Proof.
  induction l as [|[k' v'] l IH]; csimpl.
  - split; [intros _; apply not_elem_of_nil|done].
  - case_decide as Hk; subst.
    + split; [done|]. intros Hout. exfalso. apply Hout. left.
    + rewrite IH, not_elem_of_cons. split; [by split|by intros [_ ?]].
Qed.

Lemma map_get_rev_NoDup {V} (k : string) (l : list (string * V)) :
  NoDup l.*1 -> map_get k (rev l) = map_get k l.
Proof.
  induction l as [|[k' v'] l IH]; csimpl; [done|].
  intros [Hk' Hnd]%NoDup_cons. rewrite map_get_app, IH by done. simpl.
  case_decide as Hk; subst.
  - apply map_get_None in Hk'. by rewrite Hk'.
  - by destruct (map_get k l).
Qed.

(** Reading a key after [{ ...initial, ...data }]: the last value the
    spread wrote, else the initial one. *)
Lemma spread_lookup (initial kvs : list (string * value)) (k : string) :
  map_get k (foldl (fun o kv => map_set kv.1 kv.2 o) initial kvs) =
    match map_get k (rev kvs) with
    | Some v => Some v
    | None => map_get k initial
    end.
Proof.
  revert initial. induction kvs as [|[k' v'] kvs IH]; intros initial; simpl; [done|].
  rewrite IH, map_get_app. destruct (map_get k (rev kvs)); [done|]. simpl.
  case_decide as Hk; subst.
  - apply map_get_set_eq.
  - by apply map_get_set_ne.
Qed.

Section persistence.
Variable JSON_stringify : value -> string.
Variable JSON_parse : string -> option value.

(** X21. What the application starts from is always an object that has
    every key of the initial state.  A missing or empty stored text and a
    text that does not parse give the initial state itself.  A stored
    object overrides the initial values key by key, and a key it lacks
    keeps its initial value.  Under a codec that reads back what it
    wrote and rejects the empty text, the snapshot saved after a change
    is the snapshot loaded at the next start. *)
Theorem X21_loadState_merges_over_initial (initial : list (string * value))
    (raw : option string) :
  (exists props,
     loadState JSON_parse initial raw = VObj props /\
     (forall k, k ∈ initial.*1 -> is_Some (map_get k props)) /\
     (forall text data,
        raw = Some text -> text <> "" -> JSON_parse text = Some data ->
        forall k,
          (map_get k (ownProps data) = None -> map_get k props = map_get k initial) /\
          (forall v, NoDup (ownProps data).*1 -> map_get k (ownProps data) = Some v ->
                     map_get k props = Some v))) /\
  (raw = None \/ raw = Some "" \/ (exists text, raw = Some text /\ JSON_parse text = None) ->
   loadState JSON_parse initial raw = VObj initial) /\
  (forall db0 db,
     JSON_parse "" = None ->
     JSON_parse (JSON_stringify (dbValue db)) = Some (dbValue db) ->
     loadState JSON_parse (ownProps (dbValue db0))
       (Some (saveState JSON_stringify (dbValue db))) = dbValue db).
Proof.
  split_and!.
  - unfold loadState.
    assert (Hinitial : forall k, k ∈ initial.*1 -> is_Some (map_get k initial)).
    { intros k Hk. destruct (map_get k initial) eqn:Hget; [done|].
      by apply map_get_None in Hget. }
    destruct raw as [text|]; [|exists initial; by split_and!].
    case_decide as Hempty.
    { exists initial. split_and!; [done|done|]. intros ? ? [= <-] ? ?. congruence. }
    destruct (JSON_parse text) as [data|] eqn:Hparse.
    2: { exists initial. split_and!; [done|done|]. intros ? ? [= <-] ? ?. congruence. }
    exists (spreadOver initial data). split_and!; [done| |].
    + intros k Hk. unfold spreadOver. rewrite spread_lookup.
      destruct (map_get k (rev (ownProps data))); [done|]. by apply Hinitial.
    + intros text' data' [= <-] _ Hparse' k.
      assert (data' = data) as -> by congruence.
      unfold spreadOver. rewrite spread_lookup. split.
      * intros Hnone. apply map_get_None in Hnone.
        assert (map_get k (rev (ownProps data)) = None) as ->; [|done].
        apply map_get_None. intros Hin. apply Hnone.
        apply list_elem_of_fmap in Hin as (e & -> & He).
        apply list_elem_of_fmap. exists e. split; [done|].
        apply list_elem_of_In, in_rev. by apply list_elem_of_In.
      * intros v Hnd Hsome. rewrite map_get_rev_NoDup by done. by rewrite Hsome.
  - unfold loadState. intros [->|[->|(text & -> & Hparse)]]; [done|done|].
    case_decide; [done|]. by rewrite Hparse.
  - intros db0 db Hempty Hcodec. unfold loadState, saveState.
    case_decide as Htext; [by rewrite Htext, Hempty in Hcodec|].
    by rewrite Hcodec.
Qed.
End persistence.

Lemma X21_loadState_merges_over_initial_witness :
  loadState parse (ownProps (dbValue sampleDB))
    (Some (saveState stringify2 (dbValue sampleLeague)))
  = dbValue sampleLeague.
Proof.
  apply (X21_loadState_merges_over_initial stringify2 parse [] None).
  - reflexivity.
  - apply parse_stringify2_finite, finite_dbValue.
Defined.

(** *** Manual match entry *)

Lemma size_list_to_set_le (l : list string) :
  (size (list_to_set l : gset string) <= length l)%nat.
Proof.
  induction l as [|x l IH].
  - by rewrite list_to_set_nil, size_empty.
  - rewrite list_to_set_cons. simpl length.
    destruct (decide (x ∈ l)) as [Hin|Hout].
    + assert ({[x]} ∪ list_to_set l = (list_to_set l : gset string)) as ->; [|lia].
      apply set_eq. intros y. rewrite elem_of_union, elem_of_singleton, elem_of_list_to_set.
      split; [intros [->|?]; done|by right].
    + rewrite size_union, size_singleton; [lia|].
      intros y ->%elem_of_singleton Hy%elem_of_list_to_set. done.
Qed.

Lemma size_list_to_set_NoDup (l : list string) :
  size (list_to_set l : gset string) = length l <-> NoDup l.
Proof.
  split; [|apply size_list_to_set].
  induction l as [|x l IH]; [constructor|].
  rewrite list_to_set_cons. simpl length.
  destruct (decide (x ∈ l)) as [Hin|Hout].
  - assert ({[x]} ∪ list_to_set l = (list_to_set l : gset string)) as ->.
    { apply set_eq. intros y.
      rewrite elem_of_union, elem_of_singleton, elem_of_list_to_set.
      split; [intros [->|?]; done|by right]. }
    pose proof (size_list_to_set_le l). lia.
  - rewrite size_union, size_singleton.
    + intros Hsize. apply NoDup_cons. split; [done|]. apply IH. lia.
    + intros y ->%elem_of_singleton Hy%elem_of_list_to_set. done.
Qed.

Lemma canSave_sound (form : NewMatch.t) :
  canSave form = true ->
  length (NewMatch.teamAPlayers form) = playersPerTeam (NewMatch.mode form) /\
  length (NewMatch.teamBPlayers form) = playersPerTeam (NewMatch.mode form) /\
  NoDup (NewMatch.teamAPlayers form ++ NewMatch.teamBPlayers form).
Proof.
  unfold canSave. intros Hsave.
  destruct (bool_decide (NewMatch.mode form = Mode1v1) && _) eqn:H1; [done|].
  destruct (bool_decide (NewMatch.mode form = Mode2v2) && _) eqn:H2; [done|].
  case_bool_decide as Hsize; [done|].
  assert (size (list_to_set (NewMatch.teamAPlayers form ++ NewMatch.teamBPlayers form)
                  : gset string)
          = length (NewMatch.teamAPlayers form ++ NewMatch.teamBPlayers form)) as Hnd.
  { rewrite length_app. lia. }
  apply size_list_to_set_NoDup in Hnd.
  apply andb_false_iff in H1, H2.
  destruct (NewMatch.mode form) eqn:Hmode.
  - destruct H1 as [H1|H1]; [by apply bool_decide_eq_false in H1|].
    apply orb_false_iff in H1 as [HA HB].
    apply bool_decide_eq_false in HA, HB. simpl. split_and!; [lia|lia|done].
  - destruct H2 as [H2|H2]; [by apply bool_decide_eq_false in H2|].
    apply orb_false_iff in H2 as [HA HB].
    apply bool_decide_eq_false in HA, HB. simpl. split_and!; [lia|lia|done].
Qed.

(** X22. The save button of the manual entry is enabled exactly when both
    teams have the size of the mode, one player each for 1v1 and two
    each for 2v2, and no player is listed twice, be it within a team or
    in both. *)
Theorem X22_canSave_iff_teams_complete_and_disjoint (form : NewMatch.t) :
  canSave form = true <->
  length (NewMatch.teamAPlayers form) = playersPerTeam (NewMatch.mode form) /\
  length (NewMatch.teamBPlayers form) = playersPerTeam (NewMatch.mode form) /\
  NoDup (NewMatch.teamAPlayers form ++ NewMatch.teamBPlayers form).
Proof.
  split; [apply canSave_sound|].
  intros (HA & HB & Hnd). unfold canSave.
  apply size_list_to_set_NoDup in Hnd. rewrite length_app in Hnd.
  rewrite (bool_decide_eq_false_2 (size _ <> _)) by lia.
  destruct (NewMatch.mode form) eqn:Hmode; simpl in HA, HB.
  - rewrite (bool_decide_eq_false_2 (_ <> 1%nat)) by lia.
    rewrite (bool_decide_eq_false_2 (_ <> 1%nat)) by lia.
    rewrite andb_false_r.
    by rewrite (bool_decide_eq_false_2 (Mode1v1 = Mode2v2)) by done.
  - rewrite (bool_decide_eq_false_2 (Mode2v2 = Mode1v1)) by done.
    rewrite (bool_decide_eq_false_2 (_ <> 2%nat)) by lia.
    rewrite (bool_decide_eq_false_2 (_ <> 2%nat)) by lia.
    by rewrite andb_false_r.
Qed.

Lemma toggle_picked (mode : Mode) (value : list string) (id : string) :
  pickedOk mode value ->
  pickedOk mode
    (TeamPicker.toggle (match mode with Mode1v1 => 1%nat | Mode2v2 => 2%nat end) value id).
Proof.
  intros [Hnd Hlen]. unfold TeamPicker.toggle.
  change (match mode with Mode1v1 => 1%nat | Mode2v2 => 2%nat end)
    with (playersPerTeam mode).
  case_bool_decide as Hin.
  - pose proof (List_filter_sublist (fun x => negb (bool_decide (x = id))) value) as Hsub.
    split; [by eapply sublist_NoDup|]. apply sublist_length in Hsub. lia.
  - case_bool_decide as Hroom; [|done]. split.
    + apply NoDup_app. split_and!; [done| |apply NoDup_singleton].
      by intros x Hx ->%list_elem_of_singleton.
    + rewrite length_app. simpl. lia.
Qed.

Section manual_entry.
Variable toISOString : string -> option string.
Variable host : Host.
Variable players : list Player.t.

Lemma newMatchStep_inv (s : NewMatch.t * list Match.t * nat) (e : NewMatchEvent) :
  pickedOk (NewMatch.mode s.1.1) (NewMatch.teamAPlayers s.1.1) ->
  pickedOk (NewMatch.mode s.1.1) (NewMatch.teamBPlayers s.1.1) ->
  Forall sizedMatch s.1.2 ->
  let s' := newMatchStep toISOString host players s e in
  pickedOk (NewMatch.mode s'.1.1) (NewMatch.teamAPlayers s'.1.1) /\
  pickedOk (NewMatch.mode s'.1.1) (NewMatch.teamBPlayers s'.1.1) /\
  Forall sizedMatch s'.1.2.
Proof.
  destruct s as [[form matches] count]. simpl. intros HA HB Hms.
  assert (Hnone : forall mode, pickedOk mode []).
  { intros mode. split; [constructor|simpl; lia]. }
  destruct e; simpl; try done.
  - case_decide; simpl; [done|]. by split_and!.
  - destruct (players !! i); simpl; [|done]. split_and!; try done. by apply toggle_picked.
  - destruct (players !! i); simpl; [|done]. split_and!; try done. by apply toggle_picked.
  - destruct (canSave form) eqn:Hsave; simpl; [|done].
    unfold addMatch. destruct (toISOString (NewMatch.date form)); simpl; [|done].
    split_and!; try done. apply Forall_cons. split; [|done].
    by apply canSave_sound in Hsave.
Qed.

(** X23. Manual entry keeps the stored matches complete: along any
    sequence of events on the entry form each selection stays duplicate
    free and within the team size of the mode, and if every stored match
    has two disjoint teams of its mode's size when the form opens, so
    has every stored match afterwards. *)
Theorem X23_manual_entries_are_complete (date : string) (matches : list Match.t)
    (count : nat) (events : list NewMatchEvent) :
  Forall sizedMatch matches ->
  let s := foldl (newMatchStep toISOString host players)
                 (emptyEntry date, matches, count) events in
  pickedOk (NewMatch.mode s.1.1) (NewMatch.teamAPlayers s.1.1) /\
  pickedOk (NewMatch.mode s.1.1) (NewMatch.teamBPlayers s.1.1) /\
  Forall sizedMatch s.1.2.
Proof.
  intros Hms.
  assert (Hgen : forall s,
            pickedOk (NewMatch.mode s.1.1) (NewMatch.teamAPlayers s.1.1) /\
            pickedOk (NewMatch.mode s.1.1) (NewMatch.teamBPlayers s.1.1) /\
            Forall sizedMatch s.1.2 ->
            let s' := foldl (newMatchStep toISOString host players) s events in
            pickedOk (NewMatch.mode s'.1.1) (NewMatch.teamAPlayers s'.1.1) /\
            pickedOk (NewMatch.mode s'.1.1) (NewMatch.teamBPlayers s'.1.1) /\
            Forall sizedMatch s'.1.2).
  { induction events as [|e l IH]; intros s Hs; [done|].
    simpl. apply IH. destruct Hs as (HA & HB & Hs). by apply newMatchStep_inv. }
  apply Hgen. simpl. split_and!; [split; [constructor|simpl; lia]..|done].
Qed.
End manual_entry.

Lemma X23_manual_entries_are_complete_witness :
  Forall sizedMatch
    (foldl (newMatchStep anyDate sampleHost samplePlayers)
           (emptyEntry "2025-01-05T10:00", sampleMatches, 0%nat)
           [TogglePlayerA 0; TogglePlayerB 0; ClickSave; TogglePlayerB 0;
            TogglePlayerB 1; EnterGoalsA (Some 3); ClickSave]).1.2.
Proof.
  apply (X23_manual_entries_are_complete anyDate sampleHost samplePlayers).
  unfold sampleMatches, sizedMatch, wellFormedMatch. repeat apply Forall_cons_2; simpl.
  - split_and!; [done|done|compute_done].
  - split_and!; [done|done|compute_done].
  - apply Forall_nil_2.
Defined.

(** *** One more session *)

Lemma insertSorted_snoc {A} (comparefn : A -> A -> Z) (x s : A) (l : list A) :
  comparefn x s <= 0 ->
  insertSorted comparefn x (l ++ [s]) = insertSorted comparefn x l ++ [s].
Proof.
  intros Hxs. induction l as [|y l IH]; simpl.
  - rewrite decide_False; [done|lia].
  - case_decide; [by rewrite IH|done].
Qed.

Lemma arraySort_snoc {A} (comparefn : A -> A -> Z) (s : A) (l : list A) :
  Forall (fun x => comparefn x s <= 0) l ->
  arraySort comparefn (l ++ [s]) = arraySort comparefn l ++ [s].
Proof.
  induction 1 as [|x l Hx _ IH]; [done|].
  change (arraySort comparefn ((x :: l) ++ [s]))
    with (insertSorted comparefn x (arraySort comparefn (l ++ [s]))).
  rewrite IH. by apply insertSorted_snoc.
Qed.

Section streak_values.
Implicit Types (st : Streaks) (p : Player.t) (pid : string).

Lemma flushPlayer_other st p pid :
  Player.id p <> pid -> streakAt (flushPlayer st p) pid = streakAt st pid.
Proof.
  intros Hne. unfold streakAt, flushPlayer. case_decide; simpl; [|done].
  by rewrite lookup_total_insert_ne.
Qed.

Lemma flushPlayer_self st p :
  streakAt (flushPlayer st p) (Player.id p) = flushPair (streakAt st (Player.id p)).
Proof.
  unfold streakAt, flushPlayer, flushPair. case_decide; simpl.
  - rewrite lookup_total_insert_eq. f_equal. lia.
  - f_equal. lia.
Qed.

Lemma stepPlayer_other session st p pid :
  Player.id p <> pid -> streakAt (stepPlayer session st p) pid = streakAt st pid.
Proof.
  intros Hne. unfold stepPlayer. case_decide.
  - unfold streakAt. simpl. by rewrite lookup_total_insert_ne.
  - pose proof (flushPlayer_other st p pid Hne) as Hflush.
    unfold streakAt in *. simpl. rewrite lookup_total_insert_ne by done. done.
Qed.

Lemma stepPlayer_self session st p :
  streakAt (stepPlayer session st p) (Player.id p)
  = stepPair (bool_decide (Player.id p ∈ KingSession.kings session))
             (streakAt st (Player.id p)).
Proof.
  unfold stepPlayer, stepPair. case_decide as Hin.
  - rewrite bool_decide_eq_true_2 by done.
    unfold streakAt. simpl. by rewrite lookup_total_insert_eq.
  - rewrite bool_decide_eq_false_2 by done.
    pose proof (flushPlayer_self st p) as Hflush.
    unfold streakAt, flushPair in *. simpl in *.
    rewrite lookup_total_insert_eq. injection Hflush as _ ->. done.
Qed.

Lemma loop_other (f : Streaks -> Player.t -> Streaks) (players : list Player.t)
    st pid :
  (forall st' p, Player.id p <> pid -> streakAt (f st' p) pid = streakAt st' pid) ->
  pid ∉ Player.id <$> players ->
  streakAt (foldl f st players) pid = streakAt st pid.
Proof.
  intros Hother. revert st. induction players as [|p l IH]; intros st Hout; csimpl; [done|].
  apply not_elem_of_cons in Hout as [Hne Hout].
  rewrite IH by done. by apply Hother.
Qed.

Lemma loop_self (f : Streaks -> Player.t -> Streaks) (g : Player.t -> Z * Z -> Z * Z)
    (players : list Player.t) st p :
  (forall st' q pid, Player.id q <> pid -> streakAt (f st' q) pid = streakAt st' pid) ->
  (forall st' q, streakAt (f st' q) (Player.id q) = g q (streakAt st' (Player.id q))) ->
  NoDup (Player.id <$> players) -> p ∈ players ->
  streakAt (foldl f st players) (Player.id p) = g p (streakAt st (Player.id p)).
Proof.
  intros Hother Hself. revert st.
  induction players as [|q l IH]; intros st Hnd Hin; [by apply elem_of_nil in Hin|].
  csimpl in Hnd. apply NoDup_cons in Hnd as [Hq Hnd]. simpl.
  apply elem_of_cons in Hin as [->|Hin].
  - rewrite (loop_other f l); [apply Hself|intros; by apply Hother|done].
  - rewrite IH by done. rewrite Hother; [done|].
    intros Heq. apply Hq. rewrite Heq. by apply list_elem_of_fmap_2.
Qed.

Lemma current_nonneg_loop {B} (f : Streaks -> B -> Streaks) (l : list B) st :
  (forall st' x, (forall pid, 0 <= currentStreaks st' !!! pid) ->
                 forall pid, 0 <= currentStreaks (f st' x) !!! pid) ->
  (forall pid, 0 <= currentStreaks st !!! pid) ->
  forall pid, 0 <= currentStreaks (foldl f st l) !!! pid.
Proof.
  intros Hf. revert st. induction l as [|x l IH]; intros st Hst; simpl; [done|].
  apply IH. by apply Hf.
Qed.

Lemma stepPlayer_nonneg session st p :
  (forall pid, 0 <= currentStreaks st !!! pid) ->
  forall pid, 0 <= currentStreaks (stepPlayer session st p) !!! pid.
Proof.
  intros Hst pid. unfold stepPlayer. case_decide; simpl.
  - destruct (decide (Player.id p = pid)) as [<-|Hne].
    + rewrite lookup_total_insert_eq. specialize (Hst (Player.id p)). lia.
    + by rewrite lookup_total_insert_ne.
  - destruct (decide (Player.id p = pid)) as [<-|Hne].
    + by rewrite lookup_total_insert_eq.
    + rewrite lookup_total_insert_ne by done.
      unfold flushPlayer. by case_decide.
Qed.
End streak_values.

Section one_more_session.
Variable getTime : string -> Z.

Lemma walk_nonneg (db : DB.t) (pid : string) :
  0 <= currentStreaks
         (foldl (stepSession (DB.players db))
                (foldl initPlayer (mkStreaks ∅ ∅) (DB.players db))
                (sortedSessions getTime db)) !!! pid.
Proof.
  revert pid. apply current_nonneg_loop.
  - intros st session Hst. unfold stepSession. case_decide; [done|].
    apply current_nonneg_loop; [|done]. intros st' p. apply stepPlayer_nonneg.
  - apply current_nonneg_loop.
    + intros st p Hst pid. unfold initPlayer. simpl.
      destruct (decide (Player.id p = pid)) as [<-|Hne].
      * by rewrite lookup_total_insert_eq.
      * by rewrite lookup_total_insert_ne.
    + intros pid. simpl. by rewrite lookup_total_empty.
Qed.

Lemma kingStreaks_snoc (db : DB.t) (s : KingSession.t) :
  latest getTime s (DB.kingSessions db) ->
  kingStreaks getTime (withKingSessions db (DB.kingSessions db ++ [s])) =
    foldl flushPlayer
      (stepSession (DB.players db)
         (foldl (stepSession (DB.players db))
                (foldl initPlayer (mkStreaks ∅ ∅) (DB.players db))
                (sortedSessions getTime db))
         s)
      (DB.players db).
Proof.
  intros Hlatest. unfold kingStreaks, sortedSessions. simpl.
  rewrite arraySort_snoc.
  - by rewrite foldl_app.
  - unfold latest in Hlatest. eapply Forall_impl; [exact Hlatest|].
    intros x Hx. simpl in *. unfold byDate. lia.
Qed.

(** The streaks after one more session, player by player. *)
Lemma later_session_streaks (db : DB.t) (s : KingSession.t) :
  NoDup (Player.id <$> DB.players db) ->
  KingSession.kings s <> [] ->
  latest getTime s (DB.kingSessions db) ->
  let before := kingStreaks getTime db in
  let db' := withKingSessions db (DB.kingSessions db ++ [s]) in
  let after := kingStreaks getTime db' in
  (forall p, p ∈ DB.players db ->
     let current :=
       if decide (Player.id p ∈ KingSession.kings s)
       then currentStreaks before !!! Player.id p + 1 else 0 in
     currentStreaks after !! Player.id p = Some current /\
     longestStreaks after !! Player.id p
       = Some (Z.max (longestStreaks before !!! Player.id p) current)) /\
  KingInfo.currentKings (useKingInfo getTime db') =
    (fun p => CurrentKing.mk (Player.id p) (Player.name p)
                (currentStreaks before !!! Player.id p + 1))
      <$> List.filter (fun p => bool_decide (Player.id p ∈ KingSession.kings s))
                      (DB.players db).
Proof.
  intros Hnd Hkings Hlatest before db' after.
  set (walk := foldl (stepSession (DB.players db))
                 (foldl initPlayer (mkStreaks ∅ ∅) (DB.players db))
                 (sortedSessions getTime db)).
  assert (Hbefore : forall p, p ∈ DB.players db ->
            streakAt before (Player.id p) = flushPair (streakAt walk (Player.id p))).
  { intros p Hp. subst before. unfold kingStreaks. fold walk.
    apply (loop_self flushPlayer (fun _ => flushPair)); try done.
    - intros. by apply flushPlayer_other.
    - intros. apply flushPlayer_self. }
  assert (Hafter : forall p, p ∈ DB.players db ->
            streakAt after (Player.id p) =
              flushPair (stepPair (bool_decide (Player.id p ∈ KingSession.kings s))
                           (streakAt walk (Player.id p)))).
  { intros p Hp. subst after db'. rewrite kingStreaks_snoc by done. fold walk.
    rewrite (loop_self flushPlayer (fun _ => flushPair)); try done.
    - f_equal. unfold stepSession. rewrite decide_False.
      + pose (g := fun q : Player.t =>
                     stepPair (bool_decide (Player.id q ∈ KingSession.kings s))).
        change (stepPair (bool_decide (Player.id p ∈ KingSession.kings s))) with (g p).
        apply (loop_self (stepPlayer s) g); try done.
        * intros. by apply stepPlayer_other.
        * intros. apply stepPlayer_self.
      + by destruct (KingSession.kings s).
    - intros. by apply flushPlayer_other.
    - intros. apply flushPlayer_self. }
  assert (Hpresent : forall p, p ∈ DB.players db -> present after (Player.id p)).
  { intros p Hp. subst after. unfold kingStreaks.
    apply foldl_present; [intros; by apply flushPlayer_present|].
    apply foldl_present; [intros; by apply stepSession_present|].
    apply init_loop_present. right. by apply list_elem_of_fmap_2. }
  assert (Hvalues : forall p, p ∈ DB.players db ->
            currentStreaks after !!! Player.id p =
              (if decide (Player.id p ∈ KingSession.kings s)
               then currentStreaks before !!! Player.id p + 1 else 0) /\
            longestStreaks after !!! Player.id p =
              Z.max (longestStreaks before !!! Player.id p)
                    (if decide (Player.id p ∈ KingSession.kings s)
                     then currentStreaks before !!! Player.id p + 1 else 0)).
  { intros p Hp. specialize (Hbefore p Hp). specialize (Hafter p Hp).
    pose proof (walk_nonneg db (Player.id p)) as Hnonneg. fold walk in Hnonneg.
    unfold streakAt, flushPair, stepPair in *.
    injection Hbefore as Hc Hl. rewrite Hc, Hl.
    destruct (decide (Player.id p ∈ KingSession.kings s)) as [Hin|Hout].
    - rewrite bool_decide_eq_true_2 in Hafter by done. simpl in Hafter.
      injection Hafter as -> ->. split; lia.
    - rewrite bool_decide_eq_false_2 in Hafter by done. simpl in Hafter.
      injection Hafter as -> ->. split; lia. }
  split.
  - intros p Hp current. subst current.
    destruct (Hvalues p Hp) as [Hc Hl]. destruct (Hpresent p Hp) as [[c Hc'] [l Hl']].
    rewrite (lookup_total_correct _ _ _ Hc') in Hc.
    rewrite (lookup_total_correct _ _ _ Hl') in Hl.
    rewrite Hc', Hl'. by rewrite Hc, Hl.
  - unfold useKingInfo. fold db' after. simpl.
    assert (Hfilter : forall l : list Player.t,
              (forall p, p ∈ l -> p ∈ DB.players db) ->
              (fun p => CurrentKing.mk (Player.id p) (Player.name p)
                          (currentStreaks after !!! Player.id p))
                <$> List.filter (fun p => bool_decide (currentStreaks after !!! Player.id p > 0)) l
              = (fun p => CurrentKing.mk (Player.id p) (Player.name p)
                            (currentStreaks before !!! Player.id p + 1))
                  <$> List.filter (fun p => bool_decide (Player.id p ∈ KingSession.kings s)) l).
    { induction l as [|p l IH]; intros Hl; [done|]. simpl.
      destruct (Hvalues p (Hl p ltac:(left))) as [Hc _].
      assert (0 <= currentStreaks before !!! Player.id p) as Hnonneg.
      { pose proof (Hbefore p (Hl p ltac:(left))) as Hb.
        pose proof (walk_nonneg db (Player.id p)) as Hw. fold walk in Hw.
        unfold streakAt, flushPair in Hb. injection Hb as -> _. done. }
      destruct (decide (Player.id p ∈ KingSession.kings s)) as [Hin|Hout].
      - rewrite (bool_decide_eq_true_2 (_ > 0)) by lia.
        rewrite (bool_decide_eq_true_2 (_ ∈ _)) by done. csimpl.
        rewrite Hc. f_equal. apply IH. intros q Hq. apply Hl. by right.
      - rewrite (bool_decide_eq_false_2 (_ > 0)) by lia.
        rewrite (bool_decide_eq_false_2 (_ ∈ _)) by done.
        apply IH. intros q Hq. apply Hl. by right. }
    by apply Hfilter.
Qed.
(** X24. One more king session that is not earlier than any stored one
    and has kings: with distinct roster ids, every roster player listed
    among its kings has the current streak raised by one, every other
    roster player has it reset to zero, and each longest streak becomes
    the larger of the old longest and the new current streak.  The
    current kings are then exactly the roster players among the
    session's kings. *)
Theorem X24_later_session_extends_or_resets (db : DB.t) (s : KingSession.t) :
  NoDup (Player.id <$> DB.players db) ->
  KingSession.kings s <> [] ->
  latest getTime s (DB.kingSessions db) ->
  let before := kingStreaks getTime db in
  let db' := withKingSessions db (DB.kingSessions db ++ [s]) in
  let after := kingStreaks getTime db' in
  (forall p, p ∈ DB.players db ->
     let current :=
       if decide (Player.id p ∈ KingSession.kings s)
       then currentStreaks before !!! Player.id p + 1 else 0 in
     currentStreaks after !! Player.id p = Some current /\
     longestStreaks after !! Player.id p
       = Some (Z.max (longestStreaks before !!! Player.id p) current)) /\
  KingInfo.currentKings (useKingInfo getTime db') =
    (fun p => CurrentKing.mk (Player.id p) (Player.name p)
                (currentStreaks before !!! Player.id p + 1))
      <$> List.filter (fun p => bool_decide (Player.id p ∈ KingSession.kings s))
                      (DB.players db).
Proof. apply later_session_streaks. Qed.

(** X29. Winning a series crowns the winners: when a score entry makes a
    team the winner, the session is finalized in the same step, and if
    the roster ids are distinct, the winning team has players and no
    stored king session is later than the moment of finalization, then
    the current kings are exactly the roster players of the winning team,
    each with a streak one longer than before. *)
Theorem X29_winning_a_series_crowns_the_winners
    (host : Host) (app : App) (session : ActiveSession.t)
    (schedule : list ActiveSessionMatch.t) (matchId : string) (team : Side)
    (score : option Z) (winner : SessionTeam.t) :
  NoDup (Player.id <$> DB.players (db app)) ->
  activeSession app = Some (session, schedule) ->
  winnerTeam session (updateScore matchId team score schedule) = Some winner ->
  SessionTeam.players winner <> [] ->
  Forall (fun x => getTime (KingSession.dateISO x) <= getTime (nowISO host))
         (DB.kingSessions (db app)) ->
  let app' := act host app (EnterScore matchId team score) in
  activeSession app' = None /\
  KingInfo.currentKings (useKingInfo getTime (db app')) =
    (fun p => CurrentKing.mk (Player.id p) (Player.name p)
                (currentStreaks (kingStreaks getTime (db app)) !!! Player.id p + 1))
      <$> List.filter (fun p => bool_decide (Player.id p ∈ SessionTeam.players winner))
                      (DB.players (db app)).
Proof.
  intros Hnd Hactive Hwinner Hplayers Hlatest app'. subst app'.
  set (schedule' := updateScore matchId team score schedule) in *.
  assert (Hdecided : decided session schedule' = true).
  { unfold decided. unfold winnerTeam in Hwinner.
    destruct (bool_decide (teamAWins schedule' >= winsNeeded session)); [done|].
    by destruct (bool_decide (teamBWins schedule' >= winsNeeded session)). }
  assert (Hkings : kings session schedule' = SessionTeam.players winner).
  { unfold kings. by rewrite Hwinner. }
  assert (Hact : act host app (EnterScore matchId team score) =
                 mkApp (appendSession host session schedule' (uidCount app) (db app)) None
                       (uidCount app + 1 + length (List.filter filled schedule'))).
  { unfold act. rewrite Hactive. unfold autoFinish. simpl. fold schedule'.
    by rewrite Hdecided. }
  rewrite Hact. cbn [db activeSession]. split; [done|].
  pose (s := newKingSession host session schedule' (uidCount app)).
  change (useKingInfo getTime (appendSession host session schedule' (uidCount app) (db app)))
    with (useKingInfo getTime
            (withKingSessions (db app) (DB.kingSessions (db app) ++ [s]))).
  assert (KingSession.kings s = SessionTeam.players winner) as Hs by exact Hkings.
  destruct (later_session_streaks (db app) s) as [_ Hcurrent]; try done.
  - by rewrite Hs.
  - rewrite Hcurrent. by rewrite Hs.
Qed.
End one_more_session.

Lemma X24_later_session_extends_or_resets_witness :
  KingInfo.currentKings
    (useKingInfo sampleTime
       (withKingSessions sampleHistory
          (DB.kingSessions sampleHistory ++ [sampleKings "k5" ["p2"]])))
  = [CurrentKing.mk "p2" "Bob" 2].
Proof.
  destruct (X24_later_session_extends_or_resets sampleTime sampleHistory
              (sampleKings "k5" ["p2"])) as [_ Hkings].
  - compute_done.
  - done.
  - unfold latest, sampleHistory. simpl. repeat apply Forall_cons_2; by vm_compute.
  - rewrite Hkings. reflexivity.
Defined.

(** *** The decisive entry *)

Lemma updateScore_absent (matchId : string) (team : Side) (score : option Z)
    (schedule : list ActiveSessionMatch.t) :
  matchId ∉ ActiveSessionMatch.id <$> schedule ->
  updateScore matchId team score schedule = schedule.
Proof.
  unfold updateScore. induction schedule as [|slot l IH]; csimpl; [done|].
  intros [Hne Hout]%not_elem_of_cons. rewrite decide_False by done. by rewrite IH.
Qed.

(** With distinct slot ids one entry changes one slot, so each tally
    moves by at most one and not both upwards. *)
Lemma updateScore_tallies (matchId : string) (team : Side) (score : option Z)
    (schedule : list ActiveSessionMatch.t) :
  NoDup (ActiveSessionMatch.id <$> schedule) ->
  exists dA dB : Z,
    teamAWins (updateScore matchId team score schedule) = teamAWins schedule + dA /\
    teamBWins (updateScore matchId team score schedule) = teamBWins schedule + dB /\
    dA <= 1 /\ dB <= 1 /\ (dA <= 0 \/ dB <= 0).
Proof.
  induction schedule as [|slot l IH]; csimpl.
  - intros _. exists 0, 0. unfold updateScore. simpl. lia.
  - intros [Hslot Hnd]%NoDup_cons.
    change (updateScore matchId team score (slot :: l))
      with ((if decide (ActiveSessionMatch.id slot = matchId) then
               match team with
               | SideA => ActiveSessionMatch.mk (ActiveSessionMatch.id slot)
                            (ActiveSessionMatch.teamA slot) (ActiveSessionMatch.teamB slot)
                            score (ActiveSessionMatch.goalsB slot)
               | SideB => ActiveSessionMatch.mk (ActiveSessionMatch.id slot)
                            (ActiveSessionMatch.teamA slot) (ActiveSessionMatch.teamB slot)
                            (ActiveSessionMatch.goalsA slot) score
               end
             else slot) :: updateScore matchId team score l).
    rewrite !teamAWins_cons, !teamBWins_cons.
    destruct (decide (ActiveSessionMatch.id slot = matchId)) as [Heq|Hne].
    + rewrite updateScore_absent by (by rewrite <- Heq).
      destruct team; simpl.
      * exists (slotCredit score (ActiveSessionMatch.goalsB slot)
                - slotCredit (ActiveSessionMatch.goalsA slot) (ActiveSessionMatch.goalsB slot)),
               (slotCredit (ActiveSessionMatch.goalsB slot) score
                - slotCredit (ActiveSessionMatch.goalsB slot) (ActiveSessionMatch.goalsA slot)).
        unfold slotCredit.
        destruct score, (ActiveSessionMatch.goalsA slot), (ActiveSessionMatch.goalsB slot);
          repeat case_decide; lia.
      * exists (slotCredit (ActiveSessionMatch.goalsA slot) score
                - slotCredit (ActiveSessionMatch.goalsA slot) (ActiveSessionMatch.goalsB slot)),
               (slotCredit score (ActiveSessionMatch.goalsA slot)
                - slotCredit (ActiveSessionMatch.goalsB slot) (ActiveSessionMatch.goalsA slot)).
        unfold slotCredit.
        destruct score, (ActiveSessionMatch.goalsA slot), (ActiveSessionMatch.goalsB slot);
          repeat case_decide; lia.
    + destruct (IH Hnd) as (dA & dB & -> & -> & Hbounds).
      exists dA, dB. lia.
Qed.

(** X25. The entry that decides a series leaves exactly one winner: if
    the slot ids are distinct and neither tally had reached the
    threshold, then after a score entry that makes the series decided
    one team has exactly [winsNeeded] wins, the other fewer, and
    [winnerTeam] is the team that reached the threshold.  This holds for
    every series length, odd or even. *)
Theorem X25_decisive_entry_has_one_winner
    (session : ActiveSession.t) (schedule : list ActiveSessionMatch.t)
    (matchId : string) (team : Side) (score : option Z) :
  NoDup (ActiveSessionMatch.id <$> schedule) ->
  decided session schedule = false ->
  decided session (updateScore matchId team score schedule) = true ->
  let schedule' := updateScore matchId team score schedule in
  (teamAWins schedule' = winsNeeded session /\
   teamBWins schedule' < winsNeeded session /\
   winnerTeam session schedule' = ActiveSession.teams session !! 0%nat) \/
  (teamBWins schedule' = winsNeeded session /\
   teamAWins schedule' < winsNeeded session /\
   winnerTeam session schedule' = ActiveSession.teams session !! 1%nat).
Proof.
  intros Hnd Hbefore Hafter schedule'. subst schedule'.
  apply undecided_tallies in Hbefore as [HA HB].
  destruct (updateScore_tallies matchId team score schedule Hnd)
    as (dA & dB & HA' & HB' & HdA & HdB & Hone).
  unfold decided in Hafter. unfold winnerTeam.
  apply orb_true_iff in Hafter.
  destruct (decide (teamAWins (updateScore matchId team score schedule)
                    >= winsNeeded session)) as [Hwin|Hnot].
  - left. rewrite bool_decide_eq_true_2 by done. split_and!; [lia|lia|done].
  - right. rewrite (bool_decide_eq_false_2 (teamAWins _ >= _)) by done.
    destruct Hafter as [Hw|Hw]; apply bool_decide_eq_true in Hw; [done|].
    rewrite bool_decide_eq_true_2 by done. split_and!; [lia|lia|done].
Qed.

Lemma X25_decisive_entry_has_one_winner_witness :
  winnerTeam sampleSession (updateScore "s2" SideB (Some 0) sampleSchedule) = Some teamAl.
Proof.
  destruct (X25_decisive_entry_has_one_winner sampleSession sampleSchedule "s2" SideB
              (Some 0)) as [(_ & _ & Hwinner)|(Hwins & _)].
  - compute_done.
  - reflexivity.
  - reflexivity.
  - exact Hwinner.
  - discriminate Hwins.
Defined.

(** *** First revision: roster and king sessions *)

Lemma rename_ids (id newName : string) (players : list Player.t) :
  Player.id <$> Rev1.rename id newName players = Player.id <$> players.
Proof.
  unfold Rev1.rename. rewrite <- list_fmap_compose. apply list_fmap_ext.
  intros i p _. simpl. by case_decide.
Qed.

(** X26. Renaming a player changes names only: with distinct roster ids
    the standings after [rename] are the standings before with the new
    name in the rows of that id; every counter, the points and the goal
    difference stay, since matches refer to players by id. *)
Theorem X26_rename_keeps_the_counters (id newName : string) (players : list Player.t)
    (ms : list Match.t) :
  NoDup (Player.id <$> players) ->
  computeStandings (Rev1.rename id newName players) ms
  = renameRow id newName <$> computeStandings players ms.
Proof.
  intros Hnd.
  rewrite !computeStandings_tally, !initMap_NoDup_ids by (by rewrite ?rename_ids).
  unfold Rev1.rename. rewrite <- !list_fmap_compose. apply list_fmap_ext.
  intros i p _. simpl. unfold renameRow, toRow, applyTally, freshStat. simpl.
  by case_decide.
Qed.

Lemma X26_rename_keeps_the_counters_witness :
  (fun r => (Row.name r, Row.played r, Row.points r)) <$>
    computeStandings (Rev1.rename "p3" "Cyrus" samplePlayers) sampleMatches
  = [("Al", 1, 1); ("Bob", 1, 1); ("Cyrus", 2, 2)].
Proof.
  rewrite (X26_rename_keeps_the_counters "p3" "Cyrus" samplePlayers sampleMatches
             ltac:(compute_done)).
  reflexivity.
Defined.

Lemma titlesIn_cons (ks : list string) (l : list (list string)) (pid : string) :
  titlesIn (ks :: l) pid = appearances pid ks + titlesIn l pid.
Proof. done. Qed.

Lemma appearances_cons (pid x : string) (l : list string) :
  appearances pid (x :: l) = (if decide (x = pid) then 1 else 0) + appearances pid l.
Proof.
  unfold appearances. simpl. destruct (decide (x = pid)) as [Heq|Hne].
  - rewrite bool_decide_eq_true_2 by done. simpl length. lia.
  - rewrite bool_decide_eq_false_2 by done. lia.
Qed.

Lemma bump_loop (ks : list string) (m : list (string * Z)) (pid : string) :
  default 0 (map_get pid (foldl Rev1.bump m ks))
  = default 0 (map_get pid m) + appearances pid ks.
Proof.
  revert m. induction ks as [|k ks IH]; intros m.
  - unfold appearances. simpl. lia.
  - simpl foldl. rewrite IH, appearances_cons. unfold Rev1.bump.
    destruct (decide (k = pid)) as [->|Hne].
    + rewrite map_get_set_eq. simpl. lia.
    + rewrite map_get_set_ne by done. lia.
Qed.

Lemma kingWins_loop (sessions : list Rev1.Session.t) (m : list (string * Z))
    (pid : string) :
  default 0 (map_get pid
               (foldl (fun m s => foldl Rev1.bump m (Rev1.Session.kings s)) m sessions))
  = default 0 (map_get pid m) + titlesIn (Rev1.Session.kings <$> sessions) pid.
Proof.
  revert m. induction sessions as [|s l IH]; intros m.
  - simpl. unfold titlesIn. simpl. lia.
  - simpl foldl. rewrite IH, bump_loop, fmap_cons, titlesIn_cons. lia.
Qed.

Lemma iter_sessions (n : nat) (r : Rev1.SessionCount.t) :
  Nat.iter n (fun rec => Rev1.SessionCount.mk (Rev1.SessionCount.id rec)
                           (Rev1.SessionCount.name rec)
                           (Rev1.SessionCount.sessions rec + 1)
                           (Rev1.SessionCount.wins rec + 1)) r =
    Rev1.SessionCount.mk (Rev1.SessionCount.id r) (Rev1.SessionCount.name r)
      (Rev1.SessionCount.sessions r + Z.of_nat n) (Rev1.SessionCount.wins r + Z.of_nat n).
Proof.
  induction n as [|n IH].
  - destruct r; simpl. f_equal; lia.
  - rewrite Nat.iter_succ, IH. simpl. f_equal; lia.
Qed.

Lemma sessions_loop (sessions : list Rev1.Session.t)
    (map : list (string * Rev1.SessionCount.t)) :
  NoDup map.*1 ->
  foldl (fun map s => foldl Rev1.countSession map (Rev1.Session.kings s)) map sessions =
    (fun e => (e.1, Rev1.SessionCount.mk (Rev1.SessionCount.id e.2)
                      (Rev1.SessionCount.name e.2)
                      (Rev1.SessionCount.sessions e.2
                       + titlesIn (Rev1.Session.kings <$> sessions) e.1)
                      (Rev1.SessionCount.wins e.2
                       + titlesIn (Rev1.Session.kings <$> sessions) e.1))) <$> map.
Proof.
  revert map. induction sessions as [|s l IH]; intros map Hnd; simpl.
  - rewrite <- (list_fmap_id map) at 1. apply list_fmap_ext.
    intros i [k [rid rname rsessions rwins]] _. simpl. unfold titlesIn. simpl.
    do 2 f_equal; lia.
  - pose proof (keyed_update_loop
                  (fun rec => Rev1.SessionCount.mk (Rev1.SessionCount.id rec)
                                (Rev1.SessionCount.name rec)
                                (Rev1.SessionCount.sessions rec + 1)
                                (Rev1.SessionCount.wins rec + 1))
                  (Rev1.Session.kings s) map Hnd) as Hloop.
    change (foldl Rev1.countSession map (Rev1.Session.kings s)) with
      (foldl (fun m pid =>
                match map_get pid m with
                | None => m
                | Some v => map_set pid (Rev1.SessionCount.mk (Rev1.SessionCount.id v)
                                           (Rev1.SessionCount.name v)
                                           (Rev1.SessionCount.sessions v + 1)
                                           (Rev1.SessionCount.wins v + 1)) m
                end) map (Rev1.Session.kings s)).
    rewrite Hloop. rewrite IH.
    + rewrite <- list_fmap_compose. apply list_fmap_ext.
      intros i [k r] _. unfold compose. cbn [fst snd]. rewrite iter_sessions.
      cbn [fst snd Rev1.SessionCount.id Rev1.SessionCount.name
           Rev1.SessionCount.sessions Rev1.SessionCount.wins].
      unfold titlesIn, appearances. simpl.
      f_equal. f_equal; rewrite <- Z.add_assoc; reflexivity.
    + rewrite <- list_fmap_compose.
      by rewrite (list_fmap_ext (fst ∘ _) fst map) by (by intros ? []).
Qed.

(** X27. The two title counts of the first revision agree.  The rows of
    the statistics tab, before sorting, give every roster player the
    number of times the player's id is listed in the kings of the
    sessions that pass the best-of filter; with distinct roster ids the
    session view of the table gives every roster player that same
    number, both as [sessions] and as [wins]. *)
Theorem X27_both_title_counts_agree (localeCompare : string -> string -> Z)
    (players : list Player.t) (boFilter : option Z) (sortBy : Rev1.SortBy)
    (sessions : list Rev1.Session.t) :
  NoDup (Player.id <$> players) ->
  let titles pid :=
    titlesIn (Rev1.Session.kings <$> Rev1.sessionsFiltered boFilter sessions) pid in
  Rev1.rows localeCompare players boFilter sortBy sessions ≡ₚ
    (fun p => TitleCount.mk (Player.id p) (Player.name p) (titles (Player.id p)))
      <$> players /\
  Rev1.sessionCounts players boFilter sessions =
    (fun p => Rev1.SessionCount.mk (Player.id p) (Player.name p)
                (titles (Player.id p)) (titles (Player.id p)))
      <$> players.
Proof.
  intros Hnd titles. subst titles. split.
  - unfold Rev1.rows. rewrite arraySort_Permutation.
    erewrite list_fmap_ext; [done|]. intros i p _. simpl. f_equal.
    unfold Rev1.kingWins. by rewrite kingWins_loop.
  - unfold Rev1.sessionCounts.
    rewrite (foldl_map_set_NoDup Player.id
               (fun p => Rev1.SessionCount.mk (Player.id p) (Player.name p) 0 0)) by done.
    rewrite sessions_loop.
    + rewrite <- !list_fmap_compose. apply list_fmap_ext. by intros i p _.
    + rewrite <- list_fmap_compose. exact Hnd.
Qed.

Lemma X27_both_title_counts_agree_witness :
  (fun r => (Rev1.SessionCount.name r, Rev1.SessionCount.wins r))
    <$> Rev1.sessionCounts samplePlayers (Some 3) sampleSessions
  = [("Al", 1); ("Bob", 0); ("Cy", 1)].
Proof.
  destruct (X27_both_title_counts_agree codeUnitCompare samplePlayers (Some 3) Rev1.ByWins
              sampleSessions ltac:(compute_done)) as [_ Hcounts].
  rewrite Hcounts. reflexivity.
Defined.

Lemma Rev1_toggle_picked (id : string) (prev : list string) :
  NoDup prev -> (length prev <= 2)%nat ->
  NoDup (Rev1.toggle id prev) /\ (length (Rev1.toggle id prev) <= 2)%nat.
Proof.
  intros Hnd Hlen. unfold Rev1.toggle. case_bool_decide as Hin.
  - pose proof (List_filter_sublist (fun x => negb (bool_decide (x = id))) prev) as Hsub.
    split; [by eapply sublist_NoDup|]. apply sublist_length in Hsub. lia.
  - case_bool_decide as Hfull; [done|]. split.
    + apply NoDup_app. split_and!; [done| |apply NoDup_singleton].
      by intros x Hx ->%list_elem_of_singleton.
    + rewrite length_app. simpl. lia.
Qed.

Section kings_tab.
Variable todayKey : string.
Variable todayLocale : string.
Variable host : Host.
Variable players : list Player.t.

Lemma counterStep_inv (s : Rev1.Counter.t * list Rev1.Session.t * nat)
    (e : Rev1.CounterEvent) :
  NoDup (Rev1.Counter.selected s.1.1) /\
  (length (Rev1.Counter.selected s.1.1) <= 2)%nat /\
  Forall sessionTyped s.1.2 ->
  let s' := Rev1.counterStep todayKey todayLocale host players s e in
  NoDup (Rev1.Counter.selected s'.1.1) /\
  (length (Rev1.Counter.selected s'.1.1) <= 2)%nat /\
  Forall sessionTyped s'.1.2.
Proof.
  destruct s as [[counter sessions] count]. simpl. intros (Hnd & Hlen & Htyped).
  destruct e; simpl; try done.
  - destruct (players !! i); simpl; [|done].
    destruct (Rev1_toggle_picked (Player.id t) _ Hnd Hlen). by split_and!.
  - unfold Rev1.addQuickSession. case_decide; simpl; [done|].
    split_and!; [constructor|lia|]. apply Forall_cons. split; [|done].
    split_and!; [done|done|]. simpl. apply optionValue_options.
  - split_and!; [done|done|]. unfold Rev1.clearKings. apply Forall_fmap.
    eapply Forall_impl; [exact Htyped|]. intros s (H1 & H2 & H3). simpl.
    case_decide; [|done]. split_and!; simpl; [constructor|lia|done].
Qed.

(** X28. The kings tab of the first revision keeps what the [Session]
    type asks for: through any sequence of events the selection holds at
    most two players and none twice, and if every stored session has at
    most two kings, none twice, and a series length of 3, 5, 7 or 9, so
    has every stored session afterwards, whether added by the counter or
    cleared of its kings. *)
Theorem X28_kings_tab_keeps_sessions_typed (sessions : list Rev1.Session.t)
    (count : nat) (events : list Rev1.CounterEvent) :
  Forall sessionTyped sessions ->
  let s := foldl (Rev1.counterStep todayKey todayLocale host players)
                 (Rev1.Counter.mk [] "" BestOf3, sessions, count) events in
  NoDup (Rev1.Counter.selected s.1.1) /\
  (length (Rev1.Counter.selected s.1.1) <= 2)%nat /\
  Forall sessionTyped s.1.2.
Proof.
  intros Htyped.
  assert (Hgen : forall s,
            NoDup (Rev1.Counter.selected s.1.1) /\
            (length (Rev1.Counter.selected s.1.1) <= 2)%nat /\
            Forall sessionTyped s.1.2 ->
            let s' := foldl (Rev1.counterStep todayKey todayLocale host players) s events in
            NoDup (Rev1.Counter.selected s'.1.1) /\
            (length (Rev1.Counter.selected s'.1.1) <= 2)%nat /\
            Forall sessionTyped s'.1.2).
  { induction events as [|e l IH]; intros s Hs; [done|].
    simpl. apply IH. by apply counterStep_inv. }
  apply Hgen. simpl. split_and!; [constructor|lia|done].
Qed.
End kings_tab.

Lemma X28_kings_tab_keeps_sessions_typed_witness :
  Forall sessionTyped
    (foldl (Rev1.counterStep "2025-01-02" "2.1.2025" sampleHost samplePlayers)
           (Rev1.Counter.mk [] "" BestOf3, sampleSessions, 0%nat)
           [Rev1.ClickKing 0; Rev1.ClickKing 1; Rev1.ClickKing 2; Rev1.ClickAdd;
            Rev1.ClickClearKings "q2"]).1.2.
Proof.
  apply (X28_kings_tab_keeps_sessions_typed "2025-01-02" "2.1.2025" sampleHost
           samplePlayers sampleSessions 0%nat).
  unfold sampleSessions, sessionTyped. repeat apply Forall_cons_2; simpl.
  - split_and!; [compute_done|lia|set_solver].
  - split_and!; [compute_done|lia|set_solver].
  - split_and!; [compute_done|lia|set_solver].
  - apply Forall_nil_2.
Defined.

Lemma X29_winning_a_series_crowns_the_winners_witness :
  KingInfo.currentKings
    (useKingInfo sampleTime
       (db (act sampleHost sampleApp (EnterScore "s2" SideB (Some 0)))))
  = [CurrentKing.mk "p1" "Al" 1].
Proof.
  destruct (X29_winning_a_series_crowns_the_winners sampleTime sampleHost sampleApp
              sampleSession sampleSchedule "s2" SideB (Some 0) teamAl) as [_ Hkings].
  - compute_done.
  - reflexivity.
  - reflexivity.
  - done.
  - apply Forall_nil_2.
  - rewrite Hkings. reflexivity.
Defined.

(** *** Team size and mode *)

Lemma toggleTeamPlayer_adds (perTeam : nat) (id : string) (current : list string) :
  id ∉ current -> (length current < perTeam)%nat ->
  toggleTeamPlayer perTeam id current = current ++ [id].
Proof.
  intros Hout Hroom. unfold toggleTeamPlayer.
  rewrite bool_decide_eq_false_2 by done. by rewrite bool_decide_eq_false_2 by lia.
Qed.

(** X30. The size of a team is not tied to the mode of the session: the
    mode buttons empty the selection but keep the teams built so far.
    With at least three players of distinct ids in the roster, adding a
    team of one in 1v1 mode, switching to 2v2 and adding a team of two
    starts a 2v2 session whose first team has one player. *)
Theorem X30_team_size_is_not_tied_to_mode (trim : string -> string) (host : Host)
    (db0 : DB.t) (p1 p2 p3 : Player.t) (rest : list Player.t) :
  DB.players db0 = p1 :: p2 :: p3 :: rest ->
  NoDup [Player.id p1; Player.id p2; Player.id p3] ->
  exists session schedule tA tB,
    activeSession
      (run trim db0
         ((fun e => (host, OnForm e))
            <$> [ClickPlayer 0; ClickAddTeam; PickMode Mode2v2; ClickPlayer 0;
                 ClickPlayer 1; ClickAddTeam; ClickStart])).1
      = Some (session, schedule) /\
    ActiveSession.mode session = Mode2v2 /\
    ActiveSession.teams session = [tA; tB] /\
    SessionTeam.players tA = [Player.id p1] /\
    SessionTeam.players tB = [Player.id p2; Player.id p3].
Proof.
  intros Hplayers Hnd.
  apply NoDup_cons in Hnd as [H1 Hnd]. apply NoDup_cons in Hnd as [H2 _].
  apply not_elem_of_cons in H1 as [H12 H1]. apply not_elem_of_cons in H1 as [H13 _].
  apply not_elem_of_cons in H2 as [H23 _].
  assert (Hout : Player.id p3 ∉ [Player.id p2]).
  { rewrite elem_of_cons, elem_of_nil. intuition congruence. }
  unfold run, availablePlayers, takenIds.
  cbn [fmap list_fmap foldl step activeSession formStep db fst snd].
  repeat (progress (simpl; rewrite ?Hplayers; simpl; unfold addTeam;
            rewrite ?toggleTeamPlayer_adds by (simpl; first [done|lia|apply not_elem_of_nil]);
            simpl;
            repeat first
              [ rewrite bool_decide_eq_true_2
                  by (simpl; rewrite ?elem_of_cons, ?elem_of_nil;
                      first [done|lia|intuition congruence])
              | rewrite bool_decide_eq_false_2
                  by (simpl; rewrite ?elem_of_cons, ?elem_of_nil;
                      first [done|lia|intuition congruence]) ])).
  eexists _, _, _, _. split; [reflexivity|]. done.
Qed.

Lemma X30_team_size_is_not_tied_to_mode_witness :
  exists session schedule tA tB,
    activeSession
      (run (fun s => s) sampleDB
         ((fun e => (sampleHost, OnForm e))
            <$> [ClickPlayer 0; ClickAddTeam; PickMode Mode2v2; ClickPlayer 0;
                 ClickPlayer 1; ClickAddTeam; ClickStart])).1
      = Some (session, schedule) /\
    ActiveSession.mode session = Mode2v2 /\
    ActiveSession.teams session = [tA; tB] /\
    SessionTeam.players tA = ["p1"] /\
    SessionTeam.players tB = ["p2"; "p3"].
Proof.
  apply (X30_team_size_is_not_tied_to_mode (fun s => s) sampleHost sampleDB
           (Player.mk "p1" "Al") (Player.mk "p2" "Bob") (Player.mk "p3" "Cy") []).
  - reflexivity.
  - compute_done.
Defined.
